(** * Task prioritisation engine: scoring and dependency-aware ordering

    A shallow embedding of [tasks/scoring.py] and [tasks/views.py].

    Conventions used throughout:
    - every score-like quantity of the source is a decimal number with at
      most three decimals.  Signals (urgency, importance, effort, dependency
      bonus) are kept in tenths, strategy weights in hundredths, and scores
      in thousandths, all as [Z].  The module [FloatCheck] at the end of the
      definitions replays the source's binary64 arithmetic and its
      [round(_, 3)] on every combination of signal levels and shows that it
      yields exactly the double nearest to the decimal computed here;
    - Python exceptions are values of [exn]; a computation that may raise
      returns a [result];
    - the recursion of [dfs] and the [while] loop of the ordering phase are
      driven by a fuel argument, and are shown never to exhaust it (the
      interpreter's own recursion limit is not part of the model). *)

From Stdlib Require Import ZArith Lia Ascii PrimFloat SpecFloat FloatOps.
From stdpp Require Import gmap strings list sorting relations.

Set Warnings "-inexact-float,-clear-no-such-hyp".
Local Open Scope Z_scope.

(** ** Exceptions and results *)

Inductive exn : Set := TypeError | ValueError | OverflowError | KeyError.

Inductive result (A : Type) : Type :=
| Ok (a : A)
| Raise (e : exn)
| OutOfFuel.
Arguments Ok {A} a.
Arguments Raise {A} e.
Arguments OutOfFuel {A}.

#[global] Instance result_ret : MRet result := @Ok.
#[global] Instance result_bind : MBind result :=
  λ A B f m, match m with
             | Ok a => f a
             | Raise e => Raise e
             | OutOfFuel => OutOfFuel
             end.
#[global] Instance result_fmap : FMap result :=
  λ A B f m, match m with
             | Ok a => Ok (f a)
             | Raise e => Raise e
             | OutOfFuel => OutOfFuel
             end.

(** [for x in l: acc = body(acc, x)], stopping at the first exception. *)
Fixpoint foldM {A B : Type} (body : B → A → result B) (l : list A) (acc : B)
  : result B :=
  match l with
  | [] => Ok acc
  | x :: l' => acc' ← body acc x; foldM body l' acc'
  end.

(** A lookup that raises [KeyError], as [d[k]] does. *)
Definition getitem {K V : Type} `{Countable K} (d : gmap K V) (k : K) : result V :=
  match d !! k with
  | Some v => Ok v
  | None => Raise KeyError
  end.

(** ** Python values reaching the engine *)

(** The fields of a task are declared [Any].  [pyval] covers what a decoded
    JSON document or the ORM can put there: [None], booleans, integers,
    doubles, strings, [datetime.date] and [datetime.datetime] values (both
    carried as proleptic Gregorian ordinals, the latter with its time of day
    in seconds), and [VOther] for lists, dicts and any other object that
    supports neither [int()], [float()] nor the date checks. *)
Inductive pyval : Set :=
| VNone
| VBool (b : bool)
| VInt (n : Z)
| VFloat (f : float)
| VStr (s : string)
| VDate (ordinal : Z)
| VDateTime (ordinal : Z) (seconds : Z)
| VOther.

(** *** The built-ins [int], [float] and [datetime.strptime]

    Strings are treated as ASCII: Python additionally accepts non-ASCII
    decimal digits, and (from 3.11 on) refuses integer
    literals of more than 4300 digits; neither is modelled. *)
Module Py.

Definition is_digit (c : ascii) : bool :=
  let n := nat_of_ascii c in ((48 <=? n) && (n <=? 57))%nat.

Definition digit_val (c : ascii) : Z := Z.of_nat (nat_of_ascii c) - 48.

Definition is_space (c : ascii) : bool :=
  let n := nat_of_ascii c in
  (((9 <=? n) && (n <=? 13)) || (n =? 32))%nat.

Fixpoint lstrip (l : list ascii) : list ascii :=
  match l with
  | c :: r => if is_space c then lstrip r else l
  | [] => []
  end.

Definition strip (l : list ascii) : list ascii := rev (lstrip (rev (lstrip l))).

(** Underscores may only separate two digits; they are removed. *)
Fixpoint drop_underscores (prev : option ascii) (l : list ascii)
  : option (list ascii) :=
  match l with
  | [] => if bool_decide (prev = Some "_"%char) then None else Some []
  | c :: r =>
      if bool_decide (c = "_"%char)
      then (if from_option is_digit false prev
            then drop_underscores (Some c) r else None)
      else if bool_decide (prev = Some "_"%char) && negb (is_digit c)
           then None
           else cons c <$> drop_underscores (Some c) r
  end.

Fixpoint span_digits (l : list ascii) : list ascii * list ascii :=
  match l with
  | c :: r =>
      if is_digit c
      then let '(d, r') := span_digits r in (c :: d, r')
      else ([], l)
  | [] => ([], [])
  end.

Definition digits_value (ds : list ascii) : Z :=
  fold_left (λ a c, 10 * a + digit_val c) ds 0.

Definition take_sign (l : list ascii) : bool * list ascii :=
  match l with
  | c :: r =>
      if bool_decide (c = "-"%char) then (true, r)
      else if bool_decide (c = "+"%char) then (false, r)
      else (false, l)
  | [] => (false, [])
  end.

(** [int(s)] for a string: [None] stands for [ValueError]. *)
Definition int_of_str (s : string) : option Z :=
  l ← drop_underscores None (strip (String.list_ascii_of_string s));
  let '(neg, r) := take_sign l in
  let '(ds, rest) := span_digits r in
  match ds, rest with
  | _ :: _, [] => Some (if neg : bool then - digits_value ds else digits_value ds)
  | _, _ => None
  end.

(** The double nearest to an integer (ties to even). *)
Definition Z_to_float (n : Z) : float :=
  SF2Prim (binary_normalize prec emax n 0 false).

(** The double nearest to [D * 10^k] for [D >= 0]: for a negative [k] the
    quotient is taken with at least 64 bits and a sticky bit, which the
    final rounding to 53 bits cannot tell from the exact quotient. *)
Definition dec_to_float (neg : bool) (D k : Z) : float :=
  let sgn (x : Z) := if neg then - x else x in
  if D =? 0 then (if neg then neg_zero else zero)
  else if 0 <=? k
       then SF2Prim (binary_normalize prec emax (sgn (D * 10 ^ k)) 0 neg)
       else
         let d := 10 ^ (- k) in
         let s := Z.max 0 (64 + Z.log2 d - Z.log2 D) in
         let q := (D * 2 ^ s) / d in
         let r := (D * 2 ^ s) mod d in
         let q' := 2 * q + (if r =? 0 then 0 else 1) in
         SF2Prim (binary_normalize prec emax (sgn q') (- s - 1) neg).

Definition lower (c : ascii) : ascii :=
  let n := nat_of_ascii c in
  if ((65 <=? n) && (n <=? 90))%nat then ascii_of_nat (n + 32) else c.

(** [float(s)] for a string: [None] stands for [ValueError]. *)
Definition float_of_str (s : string) : option float :=
  l ← drop_underscores None (strip (String.list_ascii_of_string s));
  let '(neg, r) := take_sign l in
  let w := String.string_of_list_ascii (map lower r) in
  if bool_decide (w = "inf"%string ∨ w = "infinity"%string)
  then Some (if neg then neg_infinity else infinity)
  else if bool_decide (w = "nan"%string) then Some nan
  else
    let '(ip, r1) := span_digits r in
    let '(fp, r2) :=
      match r1 with
      | c :: r' => if bool_decide (c = "."%char) then span_digits r' else ([], r1)
      | [] => ([], r1)
      end in
    let D := digits_value (ip ++ fp) in
    let scale := - Z.of_nat (length fp) in
    match ip ++ fp, r2 with
    | [], _ => None
    | _ :: _, [] => Some (dec_to_float neg D scale)
    | _ :: _, c :: r3 =>
        if bool_decide (lower c = "e"%char)
        then
          let '(eneg, r4) := take_sign r3 in
          let '(ed, r5) := span_digits r4 in
          match ed, r5 with
          | _ :: _, [] =>
              let e := digits_value ed in
              Some (dec_to_float neg D ((if eneg : bool then - e else e) + scale))
          | _, _ => None
          end
        else None
    end.

(** [int(v)]: truncation towards zero for a double. *)
Definition int (v : pyval) : result Z :=
  match v with
  | VBool b => Ok (if b then 1 else 0)
  | VInt n => Ok n
  | VFloat f =>
      match Prim2SF f with
      | S754_nan => Raise ValueError
      | S754_infinity _ => Raise OverflowError
      | S754_zero _ => Ok 0
      | S754_finite s m e =>
          let a := if 0 <=? e then Z.shiftl (Zpos m) e else Z.shiftr (Zpos m) (- e) in
          Ok (if s then - a else a)
      end
  | VStr s =>
      match int_of_str s with
      | Some n => Ok n
      | None => Raise ValueError
      end
  | VNone | VDate _ | VDateTime _ _ | VOther => Raise TypeError
  end.

(** [float(v)]. *)
Definition float (v : pyval) : result PrimFloat.float :=
  match v with
  | VBool b => Ok (if b then 1%float else 0%float)
  | VInt n =>
      let f := Z_to_float n in
      if is_infinity f then Raise OverflowError else Ok f
  | VFloat f => Ok f
  | VStr s =>
      match float_of_str s with
      | Some f => Ok f
      | None => Raise ValueError
      end
  | VNone | VDate _ | VDateTime _ _ | VOther => Raise TypeError
  end.

(** Proleptic Gregorian calendar, as in [datetime.date.toordinal]. *)
Definition is_leap (y : Z) : bool :=
  (y mod 4 =? 0) && (negb (y mod 100 =? 0) || (y mod 400 =? 0)).

Definition days_in_month (y m : Z) : Z :=
  if m =? 2 then (if is_leap y then 29 else 28)
  else if (m =? 4) || (m =? 6) || (m =? 9) || (m =? 11) then 30
  else 31.

Definition days_before_year (y : Z) : Z :=
  let p := y - 1 in p * 365 + p / 4 - p / 100 + p / 400.

Definition days_before_month (y m : Z) : Z :=
  foldr (λ k acc, days_in_month y k + acc) 0
        (Z.of_nat <$> seq 1 (Z.to_nat (m - 1))).

Definition make_date (y m d : Z) : option Z :=
  if (1 <=? y) && (y <=? 9999) && (1 <=? m) && (m <=? 12)
     && (1 <=? d) && (d <=? days_in_month y m)
  then Some (days_before_year y + days_before_month y m + d)
  else None.

(** One or two digits with a value in [1, hi]: the regular expressions
    behind [%m] and [%d]. *)
Definition small_number (hi : Z) (tok : list ascii) : option Z :=
  let v := digits_value tok in
  if forallb is_digit tok && bool_decide (1 ≤ length tok ≤ 2)%nat
     && (1 <=? v) && (v <=? hi)
  then Some v else None.

Definition day_number (tok : list ascii) : option Z :=
  match tok with
  | [c; d] =>
      if bool_decide (c = " "%char)
      then small_number 9 [d]
      else small_number 31 tok
  | _ => small_number 31 tok
  end.

Fixpoint split_dash (l : list ascii) : list ascii * option (list ascii) :=
  match l with
  | [] => ([], None)
  | c :: r =>
      if bool_decide (c = "-"%char) then ([], Some r)
      else let '(a, b) := split_dash r in (c :: a, b)
  end.

(** [datetime.strptime(s, "%Y-%m-%d").date()] as an ordinal; [None] stands
    for [ValueError]. *)
Definition strptime_ymd (s : string) : option Z :=
  match String.list_ascii_of_string s with
  | y1 :: y2 :: y3 :: y4 :: dash :: r =>
      if forallb is_digit [y1; y2; y3; y4] && bool_decide (dash = "-"%char)
      then
        match split_dash r with
        | (mtok, Some dtok) =>
            m ← small_number 12 mtok;
            d ← day_number dtok;
            make_date (digits_value [y1; y2; y3; y4]) m d
        | (_, None) => None
        end
      else None
  | _ => None
  end.

End Py.

(** ** Data model *)

(** Task identifiers: integers or strings, and [None], which is what
    [t.get("id")] yields for a task without an ["id"] key. *)
Inductive ident : Set :=
| IdNone
| IdInt (n : Z)
| IdStr (s : string).

#[global] Instance ident_eq_dec : EqDecision ident.
Proof. solve_decision. Defined.

#[global] Instance ident_countable : Countable ident.
Proof.
  refine (inj_countable'
            (λ i, match i with
                  | IdNone => inl ()
                  | IdInt n => inr (inl n)
                  | IdStr s => inr (inr s)
                  end)
            (λ x, match x with
                  | inl _ => IdNone
                  | inr (inl n) => IdInt n
                  | inr (inr s) => IdStr s
                  end) _).
  by intros [].
Defined.

(** A task record ([Dict[str, Any]]).  [task_id = None] means that the
    ["id"] key is absent; [dependencies = None] that the key is absent or
    holds [None]. *)
Record task : Set := Task {
  task_id : option ident;
  title : pyval;
  due_date : pyval;
  estimated_hours : pyval;
  importance : pyval;
  dependencies : option (list ident)
}.

(** [t.get("id")] *)
Definition get_id (t : task) : ident := default IdNone (task_id t).

(** [t.get("dependencies") or []] *)
Definition deps_of (t : task) : list ident := default [] (dependencies t).

(** The output record: [{**t, "score": ..., "explanation": ...}], the score
    in thousandths. *)
Record scored_task : Set := Scored {
  s_task : task;
  score : Z;
  explanation : string
}.

(** *** Insertion-ordered dictionaries

    Python dictionaries iterate in insertion order, and assigning to an
    existing key keeps its position.  The engine iterates over the keys of
    [tasks_by_id], [graph] and [scored_by_id], so these are association
    lists with that discipline. *)
Section odict.
Context {V : Type}.

Fixpoint od_set (k : ident) (v : V) (d : list (ident * V)) : list (ident * V) :=
  match d with
  | [] => [(k, v)]
  | (k', v') :: r =>
      if decide (k = k') then (k, v) :: r else (k', v') :: od_set k v r
  end.

Fixpoint od_get (d : list (ident * V)) (k : ident) : option V :=
  match d with
  | [] => None
  | (k', v) :: r => if decide (k = k') then Some v else od_get r k
  end.

Definition od_keys (d : list (ident * V)) : list ident := d.*1.
End odict.

(** ** Strategy weights (hundredths) *)

Record weights : Set := Weights {
  w_urgency : Z;
  w_importance : Z;
  w_effort : Z;
  w_deps : Z
}.

Definition STRATEGY_WEIGHTS : gmap string weights :=
  <["fastest_wins" := Weights 20 20 50 10]>
  (<["high_impact" := Weights 20 60 10 10]>
  (<["deadline_driven" := Weights 60 20 10 10]>
  (<["smart_balance" := Weights 35 35 15 15]> ∅))).

#[global] Instance weights_inhabited : Inhabited weights := populate (Weights 0 0 0 0).

(** ** Signal normalizers (tenths) *)

Definition _parse_due_date (value : pyval) : option Z :=
  match value with
  | VNone => None
  | VStr s => if bool_decide (s = "") then None else Py.strptime_ymd s
  | VDate d => Some d
  | VDateTime d _ => Some d
  | _ => None
  end.

(** The system clock: the [k]-th call of [date.today()] made by the process
    returns [clock k].  The number of calls made so far is threaded through
    every function that may read the clock. *)
Definition compute_urgency_score (clock : nat → Z) (due_date : pyval) (k : nat)
  : Z * nat :=
  match _parse_due_date due_date with
  | None => (3, k)
  | Some d =>
      let today := clock k in
      let delta_days := d - today in
      (if delta_days <? 0 then 10
       else if delta_days =? 0 then 9
       else if delta_days <=? 3 then 8
       else if delta_days <=? 7 then 6
       else if delta_days <=? 14 then 4
       else 2, S k)
  end.

Definition compute_effort_score (estimated_hours : pyval) : result Z :=
  match Py.float estimated_hours with
  | Raise TypeError | Raise ValueError => Ok 5
  | Raise e => Raise e
  | OutOfFuel => OutOfFuel
  | Ok h =>
      if (h <=? 0)%float then Ok 5
      else if (h <=? 1)%float then Ok 10
      else if (h <=? 3)%float then Ok 7
      else if (h <=? 6)%float then Ok 4
      else Ok 2
  end.

Definition normalize_importance (importance : pyval) : result Z :=
  imp ← match Py.int importance with
        | Raise TypeError | Raise ValueError => Ok 5
        | r => r
        end;
  let imp := if imp <? 1 then 1 else imp in
  let imp := if imp >? 10 then 10 else imp in
  Ok imp.

(** ** Dependency graph analysis *)

Inductive color : Set := Gray | Black.

(** The variables shared by the nested [dfs] closure: the [visited]
    dictionary (an absent key is a white node), the [in_cycle] set and the
    recursion stack, a list that every call appends to and pops from. *)
Record dfs_state : Type := DfsState {
  visited : gmap ident color;
  in_cycle : gset ident;
  stack : list ident
}.

(** [stack.index(dep)], raising [ValueError] when [dep] is not on it *)
Fixpoint list_index (x : ident) (l : list ident) : result nat :=
  match l with
  | [] => Raise ValueError
  | y :: r => if decide (x = y) then Ok 0%nat else S <$> list_index x r
  end.

(** One iteration of [for dep in graph.get(node, [])], given the recursive
    call [rec]. *)
Definition dfs_visit (rec : ident → dfs_state → result dfs_state)
    (st : dfs_state) (dep : ident) : result dfs_state :=
  match visited st !! dep with
  | None => rec dep st
  | Some Gray =>
      idx ← list_index dep (stack st);
      Ok (DfsState (visited st)
                   (in_cycle st ∪ list_to_set (drop idx (stack st)))
                   (stack st))
  | Some Black => Ok st
  end.

(** The nested function [dfs].  The fuel only carries the recursion:
    [dfs_root] passes more than a traversal can use.  Python bounds the
    depth of recursion and raises [RecursionError] beyond it (a chain of
    about a thousand tasks, each depending on the next); that bound is not
    represented here, so what is stated of [detect_cycles] and of its
    callers is stated of the calls that return. *)
Fixpoint dfs (fuel : nat) (graph : list (ident * list ident)) (node : ident)
    (st : dfs_state) : result dfs_state :=
  match fuel with
  | O => OutOfFuel
  | S fuel' =>
      let st1 := DfsState (<[node := Gray]> (visited st)) (in_cycle st)
                          (stack st ++ [node]) in
      st2 ← foldM (dfs_visit (dfs fuel' graph)) (default [] (od_get graph node)) st1;
      Ok (DfsState (<[node := Black]> (visited st2)) (in_cycle st2)
                   (removelast (stack st2)))
  end.

(** Every node the traversal can reach: the keys and all listed
    dependencies.  The recursion is never deeper than their number. *)
Definition graph_nodes (graph : list (ident * list ident)) : list ident :=
  od_keys graph ++ concat graph.*2.

(** One iteration of [for node in graph.keys()]: a white node starts a
    traversal with a fresh, empty stack. *)
Definition dfs_root (graph : list (ident * list ident)) (st : dfs_state)
    (node : ident) : result dfs_state :=
  match visited st !! node with
  | None => dfs (S (length (graph_nodes graph))) graph node
                (DfsState (visited st) (in_cycle st) [])
  | Some _ => Ok st
  end.

Definition detect_cycles (tasks_by_id : list (ident * task)) : result (gset ident) :=
  let graph := prod_map id deps_of <$> tasks_by_id in
  st ← foldM (dfs_root graph) (od_keys graph) (DfsState ∅ ∅ []);
  Ok (in_cycle st).

(** Dependency bonus in tenths, by number of listings. *)
Definition bonus_of_count (n : Z) : Z :=
  if n =? 0 then 0
  else if n =? 1 then 3
  else if n <=? 3 then 6
  else 10.

Definition count_dependents (tasks : list task) : gmap ident Z :=
  foldl (λ dependents_count t,
           foldl (λ dc dep, <[dep := default 0 (dc !! dep) + 1]> dc)
                 dependents_count (deps_of t))
        ∅ tasks.

Definition compute_dependency_bonus (tasks : list task) : gmap ident Z :=
  let dependents_count := count_dependents tasks in
  foldl (λ bonus t,
           let tid := get_id t in
           let n := default 0 (dependents_count !! tid) in
           <[tid := bonus_of_count n]> bonus)
        ∅ tasks.

(** ** Score composition *)

Definition base_score (w : weights) (urgency importance effort deps : Z) : Z :=
  urgency * w_urgency w + importance * w_importance w
  + effort * w_effort w + deps * w_deps w.

Definition explanation_parts (urgency importance effort deps : Z) (cyclic : bool)
  : list string :=
  (if 8 <=? urgency then ["Due very soon"]
   else if 6 <=? urgency then ["Upcoming deadline"] else [])
  ++ (if 8 <=? importance then ["Very important"]
      else if 6 <=? importance then ["Important"] else [])
  ++ (if 7 <=? effort then ["Quick win"]
      else if effort <=? 3 then ["Large effort task"] else [])
  ++ (if 0 <? deps then ["Unblocks other tasks"] else [])
  ++ (if cyclic then ["Part of circular dependency (penalized)"] else []).

Definition explain (parts : list string) : string :=
  match parts with
  | [] => "Balanced priority based on urgency, importance, effort, and dependencies."
  | _ => String.concat "; " parts
  end.

(** The body of the scoring loop for one task, once its urgency has been
    computed.  The weighted sum is an exact number of thousandths, which
    [round(_, 3)] leaves as it is. *)
Definition score_task (w : weights) (cycles : gset ident) (dep_bonus : gmap ident Z)
    (urgency : Z) (t : task) : result scored_task :=
  let tid := get_id t in
  importance ← normalize_importance (importance t);
  effort ← compute_effort_score (estimated_hours t);
  let deps := default 0 (dep_bonus !! tid) in
  let cyclic := bool_decide (tid ∈ cycles) in
  let base := base_score w urgency importance effort deps in
  let base := if cyclic then base - 200 else base in
  Ok (Scored t base (explain (explanation_parts urgency importance effort deps cyclic))).

Fixpoint score_loop (clock : nat → Z) (w : weights) (cycles : gset ident)
    (dep_bonus : gmap ident Z) (tasks : list task) (k : nat)
  : result (list scored_task * nat) :=
  match tasks with
  | [] => Ok ([], k)
  | t :: rest =>
      let '(urgency, k1) := compute_urgency_score clock (due_date t) k in
      s ← score_task w cycles dep_bonus urgency t;
      '(scored, k2) ← score_loop clock w cycles dep_bonus rest k1;
      Ok (s :: scored, k2)
  end.

(** ** Ordering *)

(** The sort key [scored_by_id[tid].get("score", 0.0)] *)
Definition score_key (scored_by_id : list (ident * scored_task)) (tid : ident)
  : result Z :=
  match od_get scored_by_id tid with
  | Some s => Ok (score s)
  | None => Raise KeyError
  end.

(** [max(l, key=key)]: the first element with the greatest key *)
Definition py_max (key : ident → result Z) (l : list ident) : result ident :=
  match l with
  | [] => Raise ValueError
  | x :: r =>
      kx ← key x;
      fst <$> foldM (λ '(best, kbest) y,
                       ky ← key y;
                       Ok (if kbest <? ky then (y, ky) else (best, kbest)))
                    r (x, kx)
  end.

(** [l.remove(x)]: drops the first occurrence, [ValueError] if there is none *)
Fixpoint py_remove (x : ident) (l : list ident) : result (list ident) :=
  match l with
  | [] => Raise ValueError
  | y :: r => if decide (x = y) then Ok r else cons y <$> py_remove x r
  end.

Fixpoint mapM_result {A B : Type} (f : A → result B) (l : list A) : result (list B) :=
  match l with
  | [] => Ok []
  | x :: r => y ← f x; ys ← mapM_result f r; Ok (y :: ys)
  end.

(** Stable insertion into a list sorted by descending key: the new element,
    which comes earlier in the original list, goes before the first element
    whose key is not greater. *)
Fixpoint insert_desc (x : Z * ident) (l : list (Z * ident)) : list (Z * ident) :=
  match l with
  | [] => [x]
  | y :: r => if x.1 <? y.1 then y :: insert_desc x r else x :: y :: r
  end.

(** [l.sort(key=key, reverse=True)]: keys are computed first, the sort is
    stable. *)
Definition py_sort_desc (key : ident → result Z) (l : list ident)
  : result (list ident) :=
  keyed ← mapM_result (λ x, k ← key x; Ok (k, x)) l;
  Ok (foldr insert_desc [] keyed).*2.

(** The two loops that build [indegree] and [adj] over the non-circular
    identifiers. *)
Definition add_edges (tid : ident) (deps : list ident)
    (g : gmap ident Z * gmap ident (list ident))
  : result (gmap ident Z * gmap ident (list ident)) :=
  foldM (λ '(indegree, adj) dep,
           if bool_decide (is_Some (indegree !! dep))
           then d ← getitem indegree tid;
                Ok (<[tid := d + 1]> indegree,
                    <[dep := default [] (adj !! dep) ++ [tid]]> adj)
           else Ok (indegree, adj))
        deps g.

Definition build_graph (tasks_by_id : list (ident * task)) (non_cycle_ids : list ident)
  : result (gmap ident Z * gmap ident (list ident)) :=
  let indegree : gmap ident Z := list_to_map ((λ tid, (tid, 0)) <$> non_cycle_ids) in
  let adj : gmap ident (list ident) := list_to_map ((λ tid, (tid, [])) <$> non_cycle_ids) in
  foldM (λ g tid,
           let deps := from_option deps_of [] (od_get tasks_by_id tid) in
           add_edges tid deps g)
        non_cycle_ids (indegree, adj).

(** [for nxt in adj.get(best_id, [])]: decrement and release. *)
Definition release (nxts : list ident) (st : gmap ident Z * list ident)
  : result (gmap ident Z * list ident) :=
  foldM (λ '(indegree, available) nxt,
           d ← getitem indegree nxt;
           Ok (<[nxt := d - 1]> indegree,
               if bool_decide (d - 1 = 0) then available ++ [nxt] else available))
        nxts st.

(** The [while available:] loop. *)
Fixpoint kahn (fuel : nat) (key : ident → result Z) (adj : gmap ident (list ident))
    (indegree : gmap ident Z) (available ordered_ids : list ident)
  : result (list ident) :=
  match available with
  | [] => Ok ordered_ids
  | _ :: _ =>
      match fuel with
      | O => OutOfFuel
      | S fuel' =>
          best_id ← py_max key available;
          available ← py_remove best_id available;
          let ordered_ids := ordered_ids ++ [best_id] in
          '(indegree, available) ←
            release (default [] (adj !! best_id)) (indegree, available);
          kahn fuel' key adj indegree available ordered_ids
      end
  end.

(** [{t["id"]: t for t in l if "id" in t}] *)
Definition index_by_id {A : Type} (id_of : A → option ident) (l : list A)
  : list (ident * A) :=
  foldl (λ d t, match id_of t with
                | Some tid => od_set tid t d
                | None => d
                end) [] l.

(** The ordering phase of [score_tasks], from [scored_by_id] on. *)
Definition order_tasks (tasks_by_id : list (ident * task)) (cycles : gset ident)
    (scored : list scored_task) : result (list scored_task) :=
  let scored_by_id := index_by_id (λ s, task_id (s_task s)) scored in
  let non_cycle_ids := filter (λ tid, tid ∉ cycles) (od_keys scored_by_id) in
  let cycle_ids := filter (λ tid, tid ∈ cycles) (od_keys scored_by_id) in
  '(indegree, adj) ← build_graph tasks_by_id non_cycle_ids;
  let available :=
    filter (λ tid, default 0 (indegree !! tid) = 0) non_cycle_ids in
  ordered_ids ← kahn (length non_cycle_ids) (score_key scored_by_id) adj
                     indegree available [];
  remaining_non_cycle ←
    py_sort_desc (score_key scored_by_id)
                 (filter (λ tid, tid ∉ ordered_ids) non_cycle_ids);
  cycle_ids ← py_sort_desc (score_key scored_by_id) cycle_ids;
  let final_order_ids := ordered_ids ++ remaining_non_cycle ++ cycle_ids in
  mapM_result (λ tid, match od_get scored_by_id tid with
                      | Some s => Ok s
                      | None => Raise KeyError
                      end) final_order_ids.

(** ** Main scoring entry point *)

Definition strategy_weights (strategy : string) : weights :=
  default (STRATEGY_WEIGHTS !!! "smart_balance") (STRATEGY_WEIGHTS !! strategy).

Definition score_tasks (clock : nat → Z) (tasks : list task) (strategy : string)
    (k : nat) : result (list scored_task * nat) :=
  let weights := strategy_weights strategy in
  let tasks_by_id := index_by_id task_id tasks in
  cycles ← detect_cycles tasks_by_id;
  let dep_bonus := compute_dependency_bonus tasks in
  '(scored, k') ← score_loop clock weights cycles dep_bonus tasks k;
  final_tasks ← order_tasks tasks_by_id cycles scored;
  Ok (final_tasks, k').

(** The engine on a day that does not change during the call. *)
Definition score_tasks_at (now : Z) (tasks : list task) (strategy : string)
  : result (list scored_task) :=
  fst <$> score_tasks (λ _, now) tasks strategy 0.

(** ** The request handlers of [tasks/views.py] *)

(** What a request can hold under ["tasks"]: a list of task objects, or any
    other JSON value (for an object only its keys matter). *)
Inductive payload : Set :=
| PList (items : list task)
| PNull
| PBool (b : bool)
| PNumber (n : Z)
| PString (s : string)
| PObject (keys : list string).

(** [request.data]: [None] for an absent key. *)
Record request : Set := Request {
  req_strategy : option string;
  req_tasks : option payload
}.

Inductive body : Set :=
| ErrorBody (message : string)
| TasksBody (strategy : string) (tasks : list scored_task).

Inductive reply : Set :=
| Response (status : Z) (content : body)
| Uncaught (e : exn)
| Unfinished.

(** What a view did: its reply, the task lists it handed to [score_tasks],
    and the clock reads made. *)
Record outcome : Set := Outcome {
  out_reply : reply;
  engine_calls : list (list task);
  clock_reads : nat
}.

(** What iterating over a payload yields: the task objects of a list, the
    characters of a string, the keys of an object. *)
Inductive element : Set :=
| ElemTask (t : task)
| ElemStr (s : string).

Definition py_iter (p : payload) : result (list element) :=
  match p with
  | PList items => Ok (ElemTask <$> items)
  | PString s => Ok ((λ c, ElemStr (String c EmptyString)) <$> String.list_ascii_of_string s)
  | PObject keys => Ok (ElemStr <$> keys)
  | PNull | PBool _ | PNumber _ => Raise TypeError
  end.

Definition empty_task : task := Task None VNone VNone VNone VNone None.

(** [dict(t)]: a copy of a task object; the empty string gives the empty
    dictionary, any other string is refused. *)
Definition py_dict (e : element) : result task :=
  match e with
  | ElemTask t => Ok t
  | ElemStr s => if bool_decide (s = "") then Ok empty_task else Raise ValueError
  end.

(** [t.setdefault('id', v)] *)
Definition setdefault_id (v : ident) (t : task) : task :=
  match task_id t with
  | Some _ => t
  | None => Task (Some v) (title t) (due_date t) (estimated_hours t)
                 (importance t) (dependencies t)
  end.

(** [for idx, t in enumerate(tasks_data): ...], [idx] counting from [start] *)
Fixpoint normalize_from (start : Z) (items : list element) : result (list task) :=
  match items with
  | [] => Ok []
  | e :: r =>
      t ← py_dict e;
      ts ← normalize_from (start + 1) r;
      Ok (setdefault_id (IdInt (start + 1)) t :: ts)
  end.

Definition HTTP_200_OK : Z := 200.
Definition HTTP_400_BAD_REQUEST : Z := 400.

(** The part shared by both views: normalise, score, reply. *)
Definition score_and_reply (clock : nat → Z) (k : nat) (strategy : string)
    (tasks_data : payload) (cut : list scored_task → list scored_task) : outcome :=
  match items ← py_iter tasks_data; normalize_from 0 items with
  | Ok normalized =>
      match score_tasks clock normalized strategy k with
      | Ok (scored, k') =>
          Outcome (Response HTTP_200_OK (TasksBody strategy (cut scored)))
                  [normalized] k'
      | Raise e => Outcome (Uncaught e) [normalized] k
      | OutOfFuel => Outcome Unfinished [normalized] k
      end
  | Raise e => Outcome (Uncaught e) [] k
  | OutOfFuel => Outcome Unfinished [] k
  end.

Definition is_list (p : payload) : bool :=
  match p with
  | PList _ => true
  | _ => false
  end.

Definition AnalyzeTasksView_post (clock : nat → Z) (req : request) (k : nat) : outcome :=
  let strategy := default "smart_balance" (req_strategy req) in
  let tasks_data := default (PList []) (req_tasks req) in
  if negb (is_list tasks_data)
  then Outcome (Response HTTP_400_BAD_REQUEST (ErrorBody "tasks must be a list")) [] k
  else score_and_reply clock k strategy tasks_data id.

Definition SuggestTasksView_post (clock : nat → Z) (req : request) (k : nat) : outcome :=
  let strategy := default "smart_balance" (req_strategy req) in
  let tasks_data := default (PList []) (req_tasks req) in
  score_and_reply clock k strategy tasks_data (take 3).

(** ** The source's binary64 arithmetic

    [score_tasks] computes in doubles and rounds with [round(x, 3)].  This
    module replays that computation on the literals of the source, to be
    compared with the decimal computation above. *)
Module FloatCheck.

(** The integer nearest to [num / den], ties to even ([den > 0]). *)
Definition round_half_even (num den : Z) : Z :=
  let q := num / den in
  let r := num mod den in
  if 2 * r <? den then q
  else if den <? 2 * r then q + 1
  else if Z.even q then q else q + 1.

(** [round(x, 3)]: the exact value of [x] is rounded to three decimals,
    ties to even, and the double nearest to that decimal is returned (the
    sign of a zero result is not tracked). *)
Definition py_round3 (x : float) : float :=
  match Prim2SF x with
  | S754_finite s m e =>
      let n := (if s then - 1 else 1) * Zpos m * 1000 in
      let q := if 0 <=? e then n * 2 ^ e else round_half_even n (2 ^ (- e)) in
      (Py.Z_to_float q / 1000)%float
  | _ => x
  end.

(** The double a score in thousandths stands for. *)
Definition decode (millis : Z) : float := (Py.Z_to_float millis / 1000)%float.

(** The literals of the source, each with the decimal it is written as. *)
Definition urgency_levels : list (Z * float) :=
  [(3, 0.3%float); (10, 1.0%float); (9, 0.9%float); (8, 0.8%float);
   (6, 0.6%float); (4, 0.4%float); (2, 0.2%float)].

Definition effort_levels : list (Z * float) :=
  [(5, 0.5%float); (10, 1.0%float); (7, 0.7%float); (4, 0.4%float);
   (2, 0.2%float)].

Definition bonus_levels : list (Z * float) :=
  [(0, 0.0%float); (3, 0.3%float); (6, 0.6%float); (10, 1.0%float)].

(** [imp / 10.0] for the clamped rating *)
Definition importance_levels : list (Z * float) :=
  (λ imp, (imp, (Py.Z_to_float imp / 10.0)%float)) <$> [1; 2; 3; 4; 5; 6; 7; 8; 9; 10].

Definition weight_sets : list (weights * (float * float * float * float)) :=
  [(Weights 20 20 50 10, (0.20, 0.20, 0.50, 0.10)%float);
   (Weights 20 60 10 10, (0.20, 0.60, 0.10, 0.10)%float);
   (Weights 60 20 10 10, (0.60, 0.20, 0.10, 0.10)%float);
   (Weights 35 35 15 15, (0.35, 0.35, 0.15, 0.15)%float)].

(** [round(float(base_score), 3)] as the source computes it *)
Definition float_score (w : float * float * float * float)
    (urgency importance effort deps : float) (cyclic : bool) : float :=
  let '(wu, wi, we, wd) := w in
  let base_score := (urgency * wu + importance * wi + effort * we + deps * wd)%float in
  let base_score := if cyclic then (base_score - 0.2)%float else base_score in
  py_round3 base_score.

(** The decimal score of a combination stands for the double the source
    computes, that double lies between -0.2 and 1.0, and the thresholds of
    the explanation agree. *)
Definition agree (w : weights * (float * float * float * float))
    (u i e d : Z * float) (cyclic : bool) : bool :=
  let millis := base_score w.1 u.1 i.1 e.1 d.1 - (if cyclic then 200 else 0) in
  let fs := float_score w.2 u.2 i.2 e.2 d.2 cyclic in
  (fs =? decode millis)%float && (-0.2 <=? fs)%float && (fs <=? 1.0)%float
  && bool_decide ((0.8 <=? u.2)%float = (8 <=? u.1))
  && bool_decide ((0.6 <=? u.2)%float = (6 <=? u.1))
  && bool_decide ((0.8 <=? i.2)%float = (8 <=? i.1))
  && bool_decide ((0.6 <=? i.2)%float = (6 <=? i.1))
  && bool_decide ((0.7 <=? e.2)%float = (7 <=? e.1))
  && bool_decide ((e.2 <=? 0.3)%float = (e.1 <=? 3))
  && bool_decide ((0 <? d.2)%float = (0 <? d.1)).

Definition all_agree : bool :=
  forallb (λ w,
    forallb (λ u,
      forallb (λ i,
        forallb (λ e,
          forallb (λ d, agree w u i e d false && agree w u i e d true)
                  bonus_levels)
                effort_levels)
              importance_levels)
            urgency_levels)
          weight_sets.

(** Every score lies between -200 and 1000 thousandths; on that range
    [decode] preserves the order, so comparing doubles is comparing
    thousandths. *)
Definition score_range : list Z := (λ n, Z.of_nat n - 200) <$> seq 0 1201.

Definition decode_monotone : bool :=
  let fs := (λ m, (m, decode m)) <$> score_range in
  forallb (λ a, forallb (λ b,
     bool_decide ((a.2 <? b.2)%float = (a.1 <? b.1))
     && bool_decide ((a.2 =? b.2)%float = (a.1 =? b.1))) fs) fs.

End FloatCheck.

Definition occurrences (n : ident) (l : list ident) : Z :=
  Z.of_nat (length (filter (λ y, y = n) l)).

(** ** Vocabulary of the ordering proofs *)

(** The dependency list the ordering phase reads for an identifier *)
Definition task_deps (tasks_by_id : list (ident * task)) (tid : ident) : list ident :=
  from_option deps_of [] (od_get tasks_by_id tid).

(** The edges [(dep, tid)] of the restricted graph, in the order in which
    [build_graph] meets them (a dependency listed twice gives two edges). *)
Definition edges (tasks_by_id : list (ident * task)) (N ns : list ident)
  : list (ident * ident) :=
  n ← ns; (λ d, (d, n)) <$> filter (λ d, d ∈ N) (task_deps tasks_by_id n).

(** How many edges into [n] come from a task not yet placed *)
Definition pending (E : list (ident * ident)) (placed : list ident) (n : ident) : nat :=
  length (filter (λ p, p.2 = n ∧ p.1 ∉ placed) E).

Definition graph_built (N : list ident) (E : list (ident * ident))
    (indegree : gmap ident Z) (adj : gmap ident (list ident)) : Prop :=
  (∀ n, indegree !! n =
        if decide (n ∈ N) then Some (Z.of_nat (length (filter (λ p, p.2 = n) E)))
        else None)
  ∧ (∀ d, d ∈ N → adj !! d = Some (filter (λ p, p.1 = d) E).*2).

(** The invariant of the [while available:] loop *)
Definition kahn_inv (N : list ident) (E : list (ident * ident))
    (indegree : gmap ident Z) (available ordered_ids : list ident) : Prop :=
  NoDup (ordered_ids ++ available)
  ∧ (∀ n, n ∈ ordered_ids ++ available → n ∈ N)
  ∧ (∀ n, n ∈ N → indegree !! n = Some (Z.of_nat (pending E ordered_ids n)))
  ∧ (∀ n, n ∈ N → n ∈ ordered_ids ++ available ↔ pending E ordered_ids n = 0%nat).

(** Every emitted identifier had all its restricted dependencies placed
    and the greatest key among the identifiers in that situation. *)
Definition greedy (N : list ident) (E : list (ident * ident)) (kf : ident → Z)
    (ordered_ids : list ident) : Prop :=
  ∀ pre b post, ordered_ids = pre ++ b :: post →
    pending E pre b = 0%nat
    ∧ ∀ x, x ∈ N → x ∉ pre → pending E pre x = 0%nat → kf x ≤ kf b.

(** The score the ordering phase reads for an identifier *)
Definition key_of (scored_by_id : list (ident * scored_task)) (tid : ident) : Z :=
  from_option score 0 (od_get scored_by_id tid).

(** The three segments of identifiers that [order_tasks] concatenates *)
Definition ordering_of (tasks_by_id : list (ident * task)) (cycles : gset ident)
    (scored_by_id : list (ident * scored_task))
    (ordered leftover cyclic : list ident) : Prop :=
  let N := filter (λ tid, tid ∉ cycles) (od_keys scored_by_id) in
  let E := edges tasks_by_id N N in
  NoDup ordered
  ∧ (∀ n, n ∈ ordered → n ∈ N)
  ∧ greedy N E (key_of scored_by_id) ordered
  ∧ (∀ n, n ∈ N → n ∈ ordered ↔ pending E ordered n = 0%nat)
  ∧ leftover ≡ₚ filter (λ tid, tid ∉ ordered) N
  ∧ StronglySorted (λ a b, key_of scored_by_id b ≤ key_of scored_by_id a) leftover
  ∧ cyclic ≡ₚ filter (λ tid, tid ∈ cycles) (od_keys scored_by_id)
  ∧ StronglySorted (λ a b, key_of scored_by_id b ≤ key_of scored_by_id a) cyclic.

(** ** Vocabulary of the traversal proofs *)

(** [graph.get(node, [])] *)
Definition graph_deps (graph : list (ident * list ident)) (node : ident) : list ident :=
  default [] (od_get graph node).

(** Gray nodes are exactly the nodes on the recursion stack. *)
Definition dfs_wf (st : dfs_state) : Prop :=
  ∀ x, visited st !! x = Some Gray ↔ x ∈ stack st.

(** What a completed call changes: the stack is restored, colours already
    given are kept, no new gray node is left behind, marks are only added,
    and never to a node that was already black. *)
Definition dfs_ext (st st' : dfs_state) : Prop :=
  stack st' = stack st
  ∧ (∀ x c, visited st !! x = Some c → visited st' !! x = Some c)
  ∧ (∀ x, visited st' !! x = Some Gray → visited st !! x = Some Gray)
  ∧ in_cycle st ⊆ in_cycle st'
  ∧ (∀ x, visited st !! x = Some Black → x ∈ in_cycle st' → x ∈ in_cycle st).

(** The white nodes left *)
Definition white (graph : list (ident * list ident)) (st : dfs_state) : gset ident :=
  list_to_set (graph_nodes graph) ∖ dom (visited st).

(** [L] lists the black nodes in the order in which they were finished:
    every dependency of an unmarked black node was finished before it. *)
Definition finished (graph : list (ident * list ident)) (st : dfs_state)
    (L : list ident) : Prop :=
  (∀ u, u ∈ L ↔ visited st !! u = Some Black)
  ∧ (∀ i u, L !! i = Some u → u ∉ in_cycle st →
       ∀ v, v ∈ graph_deps graph u → ∃ j, (j < i)%nat ∧ L !! j = Some v).

(** The dependency edges of the graph, the paths they form on the stack,
    and the soundness of the marks: a marked node lies on a cycle that
    runs through marked nodes only. *)
Definition edge (graph : list (ident * list ident)) (u v : ident) : Prop :=
  v ∈ graph_deps graph u.

Definition stack_path (graph : list (ident * list ident)) (l : list ident) : Prop :=
  ∀ i a b, l !! i = Some a → l !! S i = Some b → edge graph a b.

Definition marks_sound (graph : list (ident * list ident)) (st : dfs_state) : Prop :=
  ∀ x, x ∈ in_cycle st → tc (λ a b, edge graph a b ∧ b ∈ in_cycle st) x x.

(** What a call of [dfs] with a given fuel is shown to do *)
Definition dfs_call_ok (graph : list (ident * list ident)) (fuel : nat) : Prop :=
  ∀ node st L,
    dfs_wf st → visited st !! node = None →
    node ∈ (list_to_set (graph_nodes graph) : gset ident) →
    (size (white graph st) ≤ fuel)%nat →
    finished graph st L →
    stack_path graph (stack st ++ [node]) →
    marks_sound graph st →
    ∃ st' L',
      dfs fuel graph node st = Ok st' ∧ dfs_ext st st' ∧ dfs_wf st'
      ∧ finished graph st' (L ++ L') ∧ visited st' !! node = Some Black
      ∧ marks_sound graph st'.

(** A task depends on the identifiers it lists; an identifier is on a
    cycle when it reaches itself through at least one dependency. *)
Definition depends_on (tasks_by_id : list (ident * task)) (u v : ident) : Prop :=
  v ∈ task_deps tasks_by_id u.

Definition on_cycle (tasks_by_id : list (ident * task)) (u : ident) : Prop :=
  tc (depends_on tasks_by_id) u u.

(** ** Vocabulary of the output theorems *)

(** The identifier of an output record *)
Definition sid (s : scored_task) : ident := get_id (s_task s).


Definition no_scored_task : scored_task := Scored empty_task 0 "".

(** ** Sample batches *)

(** 2024-03-01 as an ordinal *)
Definition sample_today : Z := 738946.

(** The two-task scenario: B depends on A and scores higher. *)
Definition task_A : task :=
  Task (Some (IdInt 1)) (VStr "A") VNone (VInt 2) (VInt 5) (Some []).
Definition task_B : task :=
  Task (Some (IdInt 2)) (VStr "B") (VStr "2024-03-01") (VFloat 0.5) (VInt 9)
       (Some [IdInt 1]).

(** A two-cycle of large, unimportant tasks due far in the future. *)
Definition task_X : task :=
  Task (Some (IdStr "X")) (VStr "X") (VStr "2024-06-01") (VInt 10) (VInt 1)
       (Some [IdStr "Y"]).
Definition task_Y : task :=
  Task (Some (IdStr "Y")) (VStr "Y") (VStr "2024-06-01") (VInt 10) (VInt 5)
       (Some [IdStr "X"]).

Definition sample_batch : list task := [task_X; task_A; task_Y; task_B].

(** A -> B -> C -> A and an isolated D *)
Definition plain_task (name : string) (deps : list string) : task :=
  Task (Some (IdStr name)) VNone VNone VNone VNone (Some (IdStr <$> deps)).
Definition abc_batch : list task :=
  [plain_task "A" ["B"]; plain_task "B" ["C"]; plain_task "C" ["A"]; plain_task "D" []].

(** A cycle A -> B -> C -> A in which A lists C before B *)
Definition acb_batch : list task :=
  [plain_task "A" ["C"; "B"]; plain_task "B" ["C"]; plain_task "C" ["A"]].

(** A task without an ["id"] key *)
Definition untracked_task : task :=
  Task None (VStr "untracked") VNone VNone VNone None.

(** A second task with the identifier of [task_A] *)
Definition task_A_bis : task :=
  Task (Some (IdInt 1)) (VStr "A again") VNone (VInt 2) (VInt 5) (Some []).

(** A task that lists itself *)
Definition self_listing_task : task :=
  Task (Some (IdInt 1)) VNone VNone VNone VNone (Some [IdInt 1]).

(** A task whose rating is the double [inf], as decoded from [1e999] *)
Definition infinite_rating_task : task :=
  Task (Some (IdInt 1)) VNone VNone VNone (VFloat infinity) None.

(** ** Vocabulary of the dependency bonus *)

(** How many tasks of the batch list [tid] among their dependencies *)
Definition listing_tasks (tasks : list task) (tid : ident) : Z :=
  Z.of_nat (length (filter (λ t, tid ∈ deps_of t) tasks)).

(** The count in the words of the specification: how many tasks of the
    batch other than the one at position [i] list [tid]. *)
Definition other_listing_tasks (tasks : list task) (i : nat) (tid : ident) : Z :=
  Z.of_nat (length (filter (λ p : nat * task, p.1 ≠ i ∧ tid ∈ deps_of p.2)
                           (imap pair tasks))).

(** [imp] clamped to the range of ratings *)
Definition clamp_rating (imp : Z) : Z :=
  if imp <? 1 then 1 else if imp >? 10 then 10 else imp.


(** ** Vocabulary of the error behaviour *)

(** The ratings that [int()] refuses with [OverflowError]: the two infinite
    doubles *)
Definition infinite_rating (v : pyval) : bool :=
  match v with
  | VFloat f =>
      match Prim2SF f with
      | S754_infinity _ => true
      | _ => false
      end
  | _ => false
  end.

(** The hours that [float()] refuses with [OverflowError]: the integers
    beyond the range of doubles *)
Definition oversized_hours (v : pyval) : bool :=
  match v with
  | VInt n => is_infinity (Py.Z_to_float n)
  | _ => false
  end.


(** ** Vocabulary of the clock reads *)

(** The tasks for which [compute_urgency_score] reads the clock: those
    whose due date parses *)
Definition dated (t : task) : bool := bool_decide (is_Some (_parse_due_date (due_date t))).

(** ** Vocabulary of the due dates *)

(** A string of ASCII characters only: every byte is below 128, so that
    bytes and characters coincide and the only decimal digits are 0..9. *)
Definition ascii_only (s : string) : bool :=
  forallb (λ c, (nat_of_ascii c <? 128)%nat) (String.list_ascii_of_string s).

(** ** Vocabulary of the explanations *)

(** [needle in text] *)
Definition mentions (needle text : string) : bool :=
  match String.index 0 needle text with
  | Some _ => true
  | None => false
  end.

(** ** Vocabulary of the request handlers *)

(** What the views hand to the engine for a list of task objects: every
    task without an identifier gets its position, counted from one. *)
Definition with_positions (items : list task) : list task :=
  imap (λ i t, setdefault_id (IdInt (Z.of_nat i + 1)) t) items.

(** The reply with its task list cut to the first [n] records *)
Definition truncated (n : nat) (r : reply) : reply :=
  match r with
  | Response status (TasksBody strategy tasks) =>
      Response status (TasksBody strategy (take n tasks))
  | _ => r
  end.

(** ** Vocabulary of the tie-breaking *)

(** The position in the batch of the first task that carries [tid] *)
Definition first_position (tasks : list task) (tid : ident) : option nat :=
  fst <$> list_find (λ t, task_id t = Some tid) tasks.

(** A task with the signals of [task_A] and another identifier *)
Definition twin_of_A : task :=
  Task (Some (IdInt 7)) (VStr "twin") VNone (VInt 2) (VInt 5) None.

(** * Properties *)

(** ** The built-ins on sample values *)

Example py_int_examples :
  Py.int (VStr "abc") = Raise ValueError ∧ Py.int (VStr " -1_0 ") = Ok (-10) ∧
  Py.int (VFloat 7.9) = Ok 7 ∧ Py.int (VFloat (-0.5)) = Ok 0 ∧
  Py.int (VFloat infinity) = Raise OverflowError ∧
  Py.int (VFloat nan) = Raise ValueError ∧ Py.int VNone = Raise TypeError ∧
  Py.int (VBool true) = Ok 1 ∧ Py.int (VStr "1__0") = Raise ValueError.
Proof. vm_compute. repeat split. Qed.

Example py_float_examples :
  Py.float (VStr "0.5") = Ok 0.5%float ∧ Py.float (VStr "") = Raise ValueError ∧
  Py.float (VStr "1e-3") = Ok 0.001%float ∧ Py.float (VStr " 2.50 ") = Ok 2.5%float ∧
  Py.float (VStr "0.1") = Ok 0.1%float ∧ Py.float (VStr "1e400") = Ok infinity ∧
  Py.float (VStr "1e-400") = Ok 0%float ∧
  Py.float (VInt (10 ^ 400)) = Raise OverflowError ∧ Py.float (VInt 3) = Ok 3%float.
Proof. vm_compute. repeat split. Qed.

Example py_strptime_examples :
  Py.strptime_ymd "2024-03-01" = Some 738946 ∧
  Py.strptime_ymd "2023-02-29" = None ∧
  Py.strptime_ymd "2024-2-29" = Some 738945 ∧
  Py.strptime_ymd "0001-01-01" = Some 1 ∧
  Py.strptime_ymd "0000-01-01" = None ∧
  Py.strptime_ymd "2024-13-01" = None ∧
  Py.strptime_ymd "24-01-01" = None ∧
  Py.strptime_ymd "2024-01-01T00:00" = None.
Proof. vm_compute. repeat split. Qed.

(** ** Results and loops *)

Lemma bind_Ok {A B : Type} (m : result A) (f : A → result B) (b : B) :
  m ≫= f = Ok b ↔ ∃ a, m = Ok a ∧ f a = Ok b.
Proof.
  destruct m as [a| |]; simpl; split; try naive_solver.
Qed.

Lemma fmap_Ok {A B : Type} (m : result A) (f : A → B) (b : B) :
  f <$> m = Ok b ↔ ∃ a, m = Ok a ∧ b = f a.
Proof.
  destruct m as [a| |]; simpl; split; try naive_solver.
Qed.

Lemma foldM_app {A B : Type} (body : B → A → result B) (l1 l2 : list A) (acc : B) :
  foldM body (l1 ++ l2) acc = foldM body l1 acc ≫= foldM body l2.
Proof.
  revert acc. induction l1 as [|x l1 IH]; intros acc; simpl; [done|].
  destruct (body acc x); simpl; auto.
Qed.

Lemma mapM_result_Ok {A B : Type} (f : A → result B) (g : A → B) (l : list A) :
  (∀ x, x ∈ l → f x = Ok (g x)) → mapM_result f l = Ok (g <$> l).
Proof.
  induction l as [|x l IH]; intros Hf; simpl; [done|].
  rewrite Hf by left. simpl. rewrite IH; [done|].
  intros y Hy. apply Hf. by right.
Qed.

(** ** Insertion-ordered dictionaries *)

Section odict_facts.
Context {V : Type}.
Implicit Types (d : list (ident * V)) (k : ident) (v : V).

Lemma od_get_set_eq d k v : od_get (od_set k v d) k = Some v.
Proof.
  induction d as [|[k' v'] d IH]; simpl.
  - by rewrite decide_True.
  - destruct (decide (k = k')) as [->|Hne]; simpl.
    + by rewrite decide_True.
    + by rewrite decide_False.
Qed.

Lemma od_get_set_ne d k k' v : k ≠ k' → od_get (od_set k v d) k' = od_get d k'.
Proof.
  intros Hne. induction d as [|[k0 v0] d IH]; simpl.
  - by rewrite decide_False.
  - destruct (decide (k = k0)) as [->|Hne0]; simpl.
    + by rewrite !decide_False.
    + by rewrite IH.
Qed.

Lemma od_get_Some_elem d k v : od_get d k = Some v → (k, v) ∈ d.
Proof.
  induction d as [|[k' v'] d IH]; simpl; [done|].
  destruct (decide (k = k')) as [->|Hne].
  - intros [= ->]. left.
  - intros Hg. right. auto.
Qed.

Lemma od_get_is_Some d k : is_Some (od_get d k) ↔ k ∈ od_keys d.
Proof.
  unfold od_keys. induction d as [|[k' v'] d IH]; simpl.
  - split; [by intros [? ?]|by intros ?%elem_of_nil].
  - destruct (decide (k = k')) as [->|Hne].
    + split; [intros _; left | eauto].
    + rewrite IH. set_solver.
Qed.

Lemma od_get_None d k : od_get d k = None ↔ k ∉ od_keys d.
Proof. rewrite <- od_get_is_Some, eq_None_not_Some. done. Qed.

Lemma od_keys_set_in d k v : k ∈ od_keys d → od_keys (od_set k v d) = od_keys d.
Proof.
  unfold od_keys. induction d as [|[k' v'] d IH]; simpl.
  - by intros ?%elem_of_nil.
  - destruct (decide (k = k')) as [->|Hne]; simpl; [done|].
    intros Hin. f_equal. apply IH. set_solver.
Qed.

Lemma od_keys_set_notin d k v :
  k ∉ od_keys d → od_keys (od_set k v d) = od_keys d ++ [k].
Proof.
  unfold od_keys. induction d as [|[k' v'] d IH]; simpl; [done|].
  destruct (decide (k = k')) as [->|Hne]; simpl.
  - intros []. left.
  - intros Hin. f_equal. apply IH. set_solver.
Qed.

Lemma od_set_notin d k v : k ∉ od_keys d → od_set k v d = d ++ [(k, v)].
Proof.
  unfold od_keys. induction d as [|[k' v'] d IH]; simpl; [done|].
  destruct (decide (k = k')) as [->|Hne]; simpl.
  - intros []. left.
  - intros Hin. f_equal. apply IH. set_solver.
Qed.

Lemma od_keys_set_NoDup d k v : NoDup (od_keys d) → NoDup (od_keys (od_set k v d)).
Proof.
  intros Hnd. destruct (decide (k ∈ od_keys d)) as [Hin|Hin].
  - by rewrite od_keys_set_in.
  - rewrite od_keys_set_notin by done. apply NoDup_app. set_solver by eauto using NoDup_singleton.
Qed.

Lemma od_get_NoDup d k v : NoDup (od_keys d) → (k, v) ∈ d → od_get d k = Some v.
Proof.
  unfold od_keys. induction d as [|[k' v'] d IH]; simpl.
  - by intros _ ?%elem_of_nil.
  - intros [Hk Hnd]%NoDup_cons [[= -> ->]|Hin]%elem_of_cons.
    + by rewrite decide_True.
    + rewrite decide_False; [auto|].
      intros ->. apply Hk. apply list_elem_of_fmap. by exists (k', v).
Qed.
End odict_facts.

Section index_facts.
Context {A : Type} (id_of : A → option ident).

Lemma index_by_id_snoc (l : list A) (x : A) :
  index_by_id id_of (l ++ [x]) =
  match id_of x with
  | Some tid => od_set tid x (index_by_id id_of l)
  | None => index_by_id id_of l
  end.
Proof. unfold index_by_id. by rewrite foldl_app. Qed.

Lemma index_by_id_NoDup (l : list A) : NoDup (od_keys (index_by_id id_of l)).
Proof.
  induction l as [|x l IH] using rev_ind; [constructor|].
  rewrite index_by_id_snoc. destruct (id_of x); [|done].
  by apply od_keys_set_NoDup.
Qed.

Lemma index_by_id_keys (l : list A) (k : ident) :
  k ∈ od_keys (index_by_id id_of l) ↔ ∃ x, x ∈ l ∧ id_of x = Some k.
Proof.
  induction l as [|x l IH] using rev_ind.
  - split; [by intros ?%elem_of_nil | by intros (? & ?%elem_of_nil & _)].
  - rewrite index_by_id_snoc. destruct (id_of x) as [tid|] eqn:Hid.
    + destruct (decide (tid ∈ od_keys (index_by_id id_of l))) as [Hin|Hin].
      * rewrite od_keys_set_in by done. rewrite IH. set_solver.
      * rewrite od_keys_set_notin by done. rewrite elem_of_app, IH. set_solver.
    + rewrite IH. set_solver.
Qed.

Lemma index_by_id_elem (l : list A) (k : ident) (x : A) :
  od_get (index_by_id id_of l) k = Some x → x ∈ l ∧ id_of x = Some k.
Proof.
  induction l as [|y l IH] using rev_ind; [done|].
  rewrite index_by_id_snoc. destruct (id_of y) as [tid|] eqn:Hid.
  - destruct (decide (tid = k)) as [->|Hne].
    + rewrite od_get_set_eq. intros [= ->]. set_solver.
    + rewrite od_get_set_ne by done. set_solver.
  - set_solver.
Qed.

(** With an identifier on every element and no identifier twice, the
    dictionary lists the elements in order. *)
Lemma index_by_id_distinct (l : list A) :
  (∀ x, x ∈ l → is_Some (id_of x)) → NoDup (id_of <$> l) →
  (prod_map Some id <$> index_by_id id_of l) = (λ x, (id_of x, x)) <$> l.
Proof.
  induction l as [|x l IH] using rev_ind; intros Hid Hnd; [done|].
  rewrite index_by_id_snoc. rewrite fmap_app in Hnd. rewrite fmap_app.
  apply NoDup_app in Hnd as (Hnd & Hx & _).
  assert (is_Some (id_of x)) as [tid Htid] by (apply Hid; set_solver).
  rewrite Htid.
  rewrite od_set_notin.
  - rewrite fmap_app, IH by set_solver. simpl. by rewrite Htid.
  - rewrite index_by_id_keys. intros (y & Hy & Hyid).
    apply (Hx (Some tid)); [|simpl; rewrite Htid; left].
    apply list_elem_of_fmap. exists y. by rewrite Hyid.
Qed.
End index_facts.

Lemma index_by_id_fmap {A B : Type} (g : A → B) (id_of : B → option ident) (l : list A) :
  prod_map id g <$> index_by_id (id_of ∘ g) l = index_by_id id_of (g <$> l).
Proof.
  induction l as [|x l IH] using rev_ind; [done|].
  rewrite fmap_app. simpl. rewrite !index_by_id_snoc. simpl.
  destruct (id_of (g x)) as [tid|]; [|done].
  rewrite <- IH. generalize (index_by_id (id_of ∘ g) l). intros d.
  induction d as [|[k v] d IHd]; simpl; [done|].
  destruct (decide (tid = k)); simpl; [done|]. f_equal. exact IHd.
Qed.

Lemma od_get_fmap {A B : Type} (g : A → B) (d : list (ident * A)) (k : ident) :
  od_get (prod_map id g <$> d) k = g <$> od_get d k.
Proof.
  induction d as [|[k' v] d IH]; [done|].
  rewrite fmap_cons. simpl. by destruct (decide (k = k')).
Qed.

Lemma od_keys_fmap {A B : Type} (g : A → B) (d : list (ident * A)) :
  od_keys (prod_map id g <$> d) = od_keys d.
Proof.
  unfold od_keys. rewrite <- list_fmap_compose. by apply list_fmap_ext.
Qed.


(** ** [max], [remove] and [sort] *)

Section keyed.
Context (key : ident → result Z) (kf : ident → Z).

Lemma py_max_loop (r : list ident) (b : ident) :
  (∀ y, y ∈ r → key y = Ok (kf y)) →
  ∃ b', foldM (λ '(best, kbest) y,
                 ky ← key y;
                 Ok (if kbest <? ky then (y, ky) else (best, kbest)))
              r (b, kf b) = Ok (b', kf b')
        ∧ (b' = b ∨ b' ∈ r) ∧ kf b ≤ kf b' ∧ ∀ y, y ∈ r → kf y ≤ kf b'.
Proof.
  revert b. induction r as [|y r IH]; intros b Hkey; simpl.
  - exists b. split_and!; [done|by left|lia|by intros ? ?%elem_of_nil].
  - rewrite Hkey by left. simpl.
    destruct (Z.ltb_spec (kf b) (kf y)) as [Hlt|Hge].
    + destruct (IH y) as (b' & -> & Hin & Hle & Hmax); [set_solver|].
      exists b'. split_and!; [done| |lia|].
      * right. destruct Hin as [->|?]; [left|by right].
      * intros z [->|?]%elem_of_cons; auto.
    + destruct (IH b) as (b' & -> & Hin & Hle & Hmax); [set_solver|].
      exists b'. split_and!; [done| |lia|].
      * destruct Hin as [->|?]; [by left|right; by right].
      * intros z [->|?]%elem_of_cons; [lia|auto].
Qed.

Lemma py_max_spec (l : list ident) :
  l ≠ [] → (∀ x, x ∈ l → key x = Ok (kf x)) →
  ∃ b, py_max key l = Ok b ∧ b ∈ l ∧ ∀ x, x ∈ l → kf x ≤ kf b.
Proof.
  destruct l as [|x r]; [done|]. intros _ Hkey. simpl.
  rewrite Hkey by left. simpl.
  destruct (py_max_loop r x) as (b & -> & Hin & Hle & Hmax); [set_solver|].
  exists b. split_and!; [done| |].
  - destruct Hin as [->|?]; [left|by right].
  - intros z [->|?]%elem_of_cons; auto.
Qed.

Lemma insert_desc_perm (x : Z * ident) (l : list (Z * ident)) :
  insert_desc x l ≡ₚ x :: l.
Proof.
  induction l as [|y l IH]; simpl; [done|].
  destruct (x.1 <? y.1); [|done].
  rewrite IH. apply Permutation_swap.
Qed.

Lemma insert_desc_sorted (x : Z * ident) (l : list (Z * ident)) :
  StronglySorted (λ a b, b.1 ≤ a.1) l →
  StronglySorted (λ a b, b.1 ≤ a.1) (insert_desc x l).
Proof.
  induction 1 as [|y l Hs IH Hall]; simpl.
  - repeat constructor.
  - destruct (Z.ltb_spec x.1 y.1) as [Hlt|Hge].
    + constructor; [done|].
      rewrite insert_desc_perm. constructor; [lia|done].
    + constructor; [by constructor|].
      constructor; [done|].
      eapply Forall_impl; [done|]. simpl. intros; lia.
Qed.

Lemma sort_desc_perm (l : list (Z * ident)) : foldr insert_desc [] l ≡ₚ l.
Proof.
  induction l as [|x l IH]; simpl; [done|].
  by rewrite insert_desc_perm, IH.
Qed.

Lemma sort_desc_sorted (l : list (Z * ident)) :
  StronglySorted (λ a b, b.1 ≤ a.1) (foldr insert_desc [] l).
Proof.
  induction l as [|x l IH]; simpl; [constructor|].
  by apply insert_desc_sorted.
Qed.

Lemma keyed_sorted_snd (s : list (Z * ident)) :
  Forall (λ p, p.1 = kf p.2) s →
  StronglySorted (λ a b, b.1 ≤ a.1) s →
  StronglySorted (λ a b, kf b ≤ kf a) s.*2.
Proof.
  intros Hk Hs. induction Hs as [|p t Hs IH Hall]; [constructor|].
  apply Forall_cons in Hk as [Hp Hk]. rewrite fmap_cons.
  constructor; [auto|].
  rewrite Forall_fmap. rewrite Forall_forall in Hall, Hk |- *.
  intros q Hq. simpl. rewrite <- Hp, <- (Hk q Hq). auto.
Qed.

Lemma py_sort_desc_spec (l : list ident) :
  (∀ x, x ∈ l → key x = Ok (kf x)) →
  ∃ l', py_sort_desc key l = Ok l' ∧ l' ≡ₚ l
        ∧ StronglySorted (λ a b, kf b ≤ kf a) l'.
Proof.
  intros Hkey. unfold py_sort_desc.
  rewrite (mapM_result_Ok _ (λ x, (kf x, x))); last first.
  { intros x Hx. by rewrite Hkey. }
  simpl. eexists. split; [done|]. split.
  - rewrite sort_desc_perm, <- list_fmap_compose.
    by rewrite (list_fmap_ext _ id l) by done; rewrite list_fmap_id.
  - apply keyed_sorted_snd; [|apply sort_desc_sorted].
    rewrite sort_desc_perm. rewrite Forall_fmap. by apply Forall_true.
Qed.
End keyed.

Lemma py_remove_spec (b : ident) (l : list ident) :
  b ∈ l → ∃ l', py_remove b l = Ok l' ∧ l ≡ₚ b :: l'.
Proof.
  induction l as [|y l IH]; [by intros ?%elem_of_nil|].
  intros Hin. simpl. destruct (decide (b = y)) as [->|Hne]; [by eexists|].
  destruct IH as (l' & -> & Hperm); [set_solver|].
  simpl. eexists. split; [done|]. rewrite Hperm. apply Permutation_swap.
Qed.

(** ** Releasing the dependents of an emitted task *)

Lemma occurrences_cons (n x : ident) (l : list ident) :
  occurrences n (x :: l) = (if decide (x = n) then 1 else 0) + occurrences n l.
Proof.
  unfold occurrences. rewrite filter_cons.
  destruct (decide (x = n)); simpl length; lia.
Qed.

Lemma occurrences_nonneg (n : ident) (l : list ident) : 0 ≤ occurrences n l.
Proof. unfold occurrences. lia. Qed.

Lemma occurrences_pos (n : ident) (l : list ident) : 0 < occurrences n l → n ∈ l.
Proof.
  unfold occurrences. intros Hpos.
  destruct (filter (λ y, y = n) l) as [|y r] eqn:Hf; [simpl in Hpos; lia|].
  assert (Hy : y ∈ filter (λ y, y = n) l) by (rewrite Hf; left).
  apply list_elem_of_filter in Hy as [-> ?]. done.
Qed.

Lemma release_cons (x : ident) (L : list ident) (ind : gmap ident Z) (av : list ident) :
  release (x :: L) (ind, av) =
  d ← getitem ind x;
  release L (<[x := d - 1]> ind, if bool_decide (d - 1 = 0) then av ++ [x] else av).
Proof. unfold release. simpl. by destruct (getitem ind x). Qed.

Lemma release_spec (L : list ident) (ind : gmap ident Z) (av : list ident) :
  (∀ n, n ∈ L → is_Some (ind !! n)) →
  ∃ ind' new,
    release L (ind, av) = Ok (ind', av ++ new)
    ∧ (∀ n, ind' !! n = (λ d, d - occurrences n L) <$> ind !! n)
    ∧ NoDup new
    ∧ (∀ n d, ind !! n = Some d → n ∈ new ↔ 1 ≤ d ≤ occurrences n L)
    ∧ (∀ n, n ∈ new → n ∈ L).
Proof.
  revert ind av. induction L as [|x L IH]; intros ind av Hdom.
  - exists ind, []. rewrite app_nil_r. split_and!; [done| |constructor| |done].
    + intros n. destruct (ind !! n); simpl; [|done]. f_equal.
      unfold occurrences. simpl. lia.
    + intros n d _. unfold occurrences. simpl. split; [by intros ?%elem_of_nil|lia].
  - destruct (Hdom x) as [d Hd]; [left|].
    rewrite release_cons. unfold getitem. rewrite Hd. simpl.
    set (ind1 := <[x := d - 1]> ind).
    set (av1 := if bool_decide (d - 1 = 0) then av ++ [x] else av).
    destruct (IH ind1 av1) as (ind' & new & Hrel & Hlook & Hnd & Hnew & Hsub).
    { intros n Hn. unfold ind1. destruct (decide (x = n)) as [->|Hne].
      - rewrite lookup_insert_eq. eauto.
      - rewrite lookup_insert_ne by done. apply Hdom. by right. }
    rewrite Hrel.
    exists ind', ((if bool_decide (d - 1 = 0) then [x] else []) ++ new).
    assert (Hx1 : ind1 !! x = Some (d - 1)) by (unfold ind1; by rewrite lookup_insert_eq).
    split_and!.
    + f_equal. f_equal. unfold av1. case_bool_decide; simpl; [by rewrite <- app_assoc|done].
    + intros n. rewrite Hlook, occurrences_cons. unfold ind1.
      destruct (decide (x = n)) as [->|Hne].
      * rewrite lookup_insert_eq, Hd. simpl. f_equal. lia.
      * rewrite lookup_insert_ne by done. destruct (ind !! n); simpl; [|done]. f_equal; lia.
    + case_bool_decide; simpl; [|done]. constructor; [|done].
      rewrite (Hnew x (d - 1) Hx1). lia.
    + intros n e He. rewrite occurrences_cons, elem_of_app.
      pose proof (occurrences_nonneg n L).
      destruct (decide (x = n)) as [->|Hne].
      * rewrite He in Hd. injection Hd as ->. rewrite (Hnew n (d - 1) Hx1).
        case_bool_decide; [rewrite list_elem_of_singleton|rewrite elem_of_nil];
          intuition (try done; lia).
      * assert (ind1 !! n = Some e) as Hn1 by (unfold ind1; by rewrite lookup_insert_ne).
        rewrite (Hnew n e Hn1).
        case_bool_decide; [rewrite list_elem_of_singleton|rewrite elem_of_nil];
          intuition (try congruence; try lia).
    + intros n [Hn|Hn]%elem_of_app.
      * case_bool_decide; [|by apply elem_of_nil in Hn].
        apply list_elem_of_singleton in Hn as ->. left.
      * right. auto.
Qed.

(** ** Building [indegree] and [adj] *)

Section build_graph_facts.
Context (tasks_by_id : list (ident * task)) (N : list ident).
Hypothesis HN : NoDup N.

Lemma add_edges_spec (tid : ident) (deps : list ident) (E0 : list (ident * ident))
    (ind : gmap ident Z) (adj : gmap ident (list ident)) :
  tid ∈ N → graph_built N E0 ind adj →
  ∃ ind' adj',
    add_edges tid deps (ind, adj) = Ok (ind', adj')
    ∧ graph_built N (E0 ++ ((λ d, (d, tid)) <$> filter (λ d, d ∈ N) deps)) ind' adj'.
Proof.
  intros Htid. revert E0 ind adj.
  induction deps as [|dep deps IH]; intros E0 ind adj HG.
  - exists ind, adj. simpl. by rewrite app_nil_r.
  - unfold add_edges. simpl. destruct HG as [Hind Hadj].
    rewrite filter_cons. case_bool_decide as Hdep.
    + assert (dep ∈ N) as HdepN.
      { rewrite Hind in Hdep. by case_decide; [|destruct Hdep]. }
      rewrite decide_True by done.
      unfold getitem. rewrite (Hind tid), decide_True by done. simpl.
      edestruct (IH (E0 ++ [(dep, tid)])) as (ind' & adj' & Hrun & HG'); last first.
      { exists ind', adj'. split; [exact Hrun|].
        by rewrite cons_middle, app_assoc. }
      split.
      * intros n. rewrite filter_app, length_app, filter_cons, filter_nil. simpl.
        destruct (decide (tid = n)) as [->|Hne].
        -- rewrite lookup_insert_eq.
           repeat case_decide; simplify_eq/=; try done. f_equal; lia.
        -- rewrite lookup_insert_ne, Hind by done.
           repeat case_decide; simplify_eq/=; try done. f_equal; lia.
      * intros d Hd. rewrite filter_app, fmap_app, filter_cons, filter_nil. simpl.
        destruct (decide (dep = d)) as [->|Hne].
        -- rewrite lookup_insert_eq, Hadj by done.
           repeat case_decide; simplify_eq/=; done.
        -- rewrite lookup_insert_ne, Hadj by done.
           repeat case_decide; simplify_eq/=. by rewrite app_nil_r.
    + assert (dep ∉ N) as HdepN.
      { intros Hin. apply Hdep. rewrite Hind, decide_True by done. eauto. }
      rewrite decide_False by done. by apply IH.
Qed.

Lemma build_graph_loop (ns : list ident) (E0 : list (ident * ident))
    (ind : gmap ident Z) (adj : gmap ident (list ident)) :
  (∀ n, n ∈ ns → n ∈ N) → graph_built N E0 ind adj →
  ∃ ind' adj',
    foldM (λ g tid, add_edges tid (task_deps tasks_by_id tid) g) ns (ind, adj)
    = Ok (ind', adj')
    ∧ graph_built N (E0 ++ edges tasks_by_id N ns) ind' adj'.
Proof.
  revert E0 ind adj. induction ns as [|n ns IH]; intros E0 ind adj Hns HG.
  - exists ind, adj. simpl. by rewrite app_nil_r.
  - simpl.
    destruct (add_edges_spec n (task_deps tasks_by_id n) E0 ind adj)
      as (ind1 & adj1 & -> & HG1); [set_solver|done|].
    simpl. destruct (IH _ ind1 adj1 ltac:(set_solver) HG1) as (ind' & adj' & -> & HG').
    exists ind', adj'. split; [done|].
    unfold edges in *. csimpl. by rewrite app_assoc.
Qed.

Lemma build_graph_spec :
  ∃ ind adj,
    build_graph tasks_by_id N = Ok (ind, adj)
    ∧ graph_built N (edges tasks_by_id N N) ind adj.
Proof.
  unfold build_graph.
  edestruct (build_graph_loop N []) as (ind & adj & Hrun & HG); [done| |].
  2: { exists ind, adj. split; [exact Hrun|exact HG]. }
  split.
  - intros n. simpl. case_decide as Hn.
    + apply elem_of_list_to_map_1.
      * rewrite <- list_fmap_compose. simpl.
        by rewrite (list_fmap_ext _ id N) by done; rewrite list_fmap_id.
      * apply list_elem_of_fmap. by exists n.
    + apply not_elem_of_list_to_map_1. rewrite <- list_fmap_compose.
      by rewrite (list_fmap_ext _ id N) by done; rewrite list_fmap_id.
  - intros d Hd. simpl. apply elem_of_list_to_map_1.
    + rewrite <- list_fmap_compose.
      by rewrite (list_fmap_ext _ id N) by done; rewrite list_fmap_id.
    + apply list_elem_of_fmap. by exists d.
Qed.

Lemma edges_in_N (ns : list ident) (p : ident * ident) :
  (∀ n, n ∈ ns → n ∈ N) → p ∈ edges tasks_by_id N ns → p.1 ∈ N ∧ p.2 ∈ N.
Proof.
  intros Hns. unfold edges. rewrite list_elem_of_bind.
  intros (n & Hp & Hn). apply list_elem_of_fmap in Hp as (d & -> & Hd).
  apply list_elem_of_filter in Hd as [Hd _]. simpl. auto.
Qed.
End build_graph_facts.

(** ** The selection loop *)

Lemma pending_le (E : list (ident * ident)) (ord : list ident) (best n : ident) :
  (pending E (ord ++ [best]) n ≤ pending E ord n)%nat.
Proof.
  unfold pending. induction E as [|p E IH]; [done|].
  rewrite !filter_cons. repeat case_decide; simpl; try lia.
  set_solver.
Qed.

Lemma pending_snoc (E : list (ident * ident)) (ord : list ident) (best n : ident) :
  best ∉ ord →
  Z.of_nat (pending E (ord ++ [best]) n) =
  Z.of_nat (pending E ord n) - occurrences n (filter (λ p, p.1 = best) E).*2.
Proof.
  intros Hbest. unfold pending, occurrences.
  induction E as [|p E IH]; [done|].
  rewrite !filter_cons.
  destruct (decide (p.1 = best)) as [Hp|Hp]; rewrite ?fmap_cons, ?filter_cons;
    repeat case_decide; simpl length; try lia; set_solver.
Qed.


Lemma greedy_snoc (N : list ident) (E : list (ident * ident)) (kf : ident → Z)
    (ord : list ident) (best : ident) :
  greedy N E kf ord →
  pending E ord best = 0%nat →
  (∀ x, x ∈ N → x ∉ ord → pending E ord x = 0%nat → kf x ≤ kf best) →
  greedy N E kf (ord ++ [best]).
Proof.
  intros Hg Hb Hmax pre b post Heq.
  destruct post as [|c post _] using rev_ind.
  - apply app_inj_tail in Heq as [-> ->]. auto.
  - rewrite app_comm_cons, app_assoc in Heq.
    apply app_inj_tail in Heq as [Heq _]. eauto.
Qed.

Section kahn_facts.
Context (N : list ident) (E : list (ident * ident)).
Context (key : ident → result Z) (kf : ident → Z) (adj : gmap ident (list ident)).
Hypothesis HN : NoDup N.
Hypothesis HE : ∀ p, p ∈ E → p.1 ∈ N ∧ p.2 ∈ N.
Hypothesis Hadj : ∀ d, d ∈ N → adj !! d = Some (filter (λ p, p.1 = d) E).*2.
Hypothesis Hkey : ∀ x, x ∈ N → key x = Ok (kf x).

Lemma adj_in_N (d n : ident) : n ∈ (filter (λ p, p.1 = d) E).*2 → n ∈ N.
Proof.
  intros (p & -> & Hp)%list_elem_of_fmap.
  apply list_elem_of_filter in Hp as [_ Hp]. by apply HE.
Qed.

(** One iteration keeps the invariant, extends the greedy prefix and
    emits one more identifier. *)
Lemma kahn_step (ind : gmap ident Z) (av ord : list ident) :
  kahn_inv N E ind av ord → greedy N E kf ord → av ≠ [] →
  ∃ best av' ind' new,
    py_max key av = Ok best
    ∧ py_remove best av = Ok av'
    ∧ release (default [] (adj !! best)) (ind, av') = Ok (ind', av' ++ new)
    ∧ kahn_inv N E ind' (av' ++ new) (ord ++ [best])
    ∧ greedy N E kf (ord ++ [best]).
Proof.
  intros (Hnd & Hsub & Hind & Hav) Hg Hne.
  destruct (py_max_spec key kf av Hne) as (best & Hmax & Hbest & Hle).
  { intros x Hx. apply Hkey, Hsub. set_solver. }
  destruct (py_remove_spec best av Hbest) as (av' & Hrem & Hperm).
  assert (HbestN : best ∈ N) by (apply Hsub; set_solver).
  assert (Hbest_ord : best ∉ ord).
  { intros Hin. apply NoDup_app in Hnd as (_ & Hdis & _). by apply (Hdis best). }
  assert (Hbest0 : pending E ord best = 0%nat) by (apply Hav; set_solver).
  set (L := (filter (λ p, p.1 = best) E).*2).
  destruct (release_spec L ind av') as (ind' & new & Hrel & Hlook & Hnew_nd & Hnew & HnewL).
  { intros n Hn. rewrite Hind; [eauto|]. by eapply adj_in_N. }
  exists best, av', ind', new. rewrite (Hadj best HbestN). simpl.
  split_and!; try done.
  - (* the invariant *)
    assert (Hnew' : ∀ n, n ∈ N →
              n ∈ new ↔ (1 ≤ pending E ord n)%nat ∧ pending E (ord ++ [best]) n = 0%nat).
    { intros n Hn. rewrite (Hnew n _ (Hind n Hn)).
      pose proof (pending_snoc E ord best n Hbest_ord). fold L in H.
      pose proof (occurrences_nonneg n L). lia. }
    assert (HnewN : ∀ n, n ∈ new → n ∈ N).
    { intros n Hn. eapply adj_in_N. by apply HnewL. }
    split_and!.
    + rewrite <- app_assoc. simpl.
      assert (Hnd' : NoDup (ord ++ best :: av')).
      { by rewrite <- Hperm. }
      apply NoDup_app in Hnd' as (Ho & Hdis & Hba).
      apply NoDup_app. split_and!; [done| |].
      * intros x Hx [->|[Hx'|Hx']%elem_of_app]%elem_of_cons.
        -- by apply Hbest_ord.
        -- apply (Hdis x Hx). by right.
        -- apply HnewN in Hx' as HxN. apply (Hnew' x HxN) in Hx' as [Hpos _].
           assert (pending E ord x = 0%nat); [|lia].
           apply Hav; [done|]. set_solver.
      * apply NoDup_cons in Hba as [Hb Ha]. constructor.
        -- intros [Hx|Hx]%elem_of_app; [done|].
           apply (Hnew' best HbestN) in Hx as [Hpos _]. lia.
        -- apply NoDup_app. split_and!; [done| |done].
           intros x Hx Hx'. apply HnewN in Hx' as HxN.
           apply (Hnew' x HxN) in Hx' as [Hpos _].
           assert (pending E ord x = 0%nat); [|lia].
           apply Hav; [done|]. rewrite Hperm. set_solver.
    + intros n [[Hn| ->%list_elem_of_singleton]%elem_of_app|[Hn|Hn]%elem_of_app]%elem_of_app.
      * apply Hsub. set_solver.
      * done.
      * apply Hsub. rewrite Hperm. set_solver.
      * by apply HnewN.
    + intros n Hn. rewrite Hlook, (Hind n Hn). simpl. f_equal.
      by rewrite pending_snoc.
    + intros n Hn. pose proof (pending_le E ord best n).
      specialize (Hav n Hn). specialize (Hnew' n Hn).
      assert (n ∈ (ord ++ [best]) ++ av' ++ new ↔ n ∈ ord ++ av ∨ n ∈ new) as ->.
      { rewrite Hperm. set_solver. }
      rewrite Hav, Hnew'. lia.
  - (* the greedy choice *)
    apply greedy_snoc; [done|done|].
    intros x Hx Hxo Hx0. apply Hle.
    assert (x ∈ ord ++ av) as Hin by (by apply Hav).
    set_solver.
Qed.

Lemma kahn_unfold (fuel : nat) (ind : gmap ident Z) (av ord : list ident) :
  av ≠ [] →
  kahn (S fuel) key adj ind av ord =
  best_id ← py_max key av;
  av' ← py_remove best_id av;
  '(ind', av'') ← release (default [] (adj !! best_id)) (ind, av');
  kahn fuel key adj ind' av'' (ord ++ [best_id]).
Proof. by destruct av. Qed.

Lemma kahn_spec (fuel : nat) (ind : gmap ident Z) (av ord : list ident) :
  kahn_inv N E ind av ord → greedy N E kf ord →
  (length N ≤ fuel + length ord)%nat →
  ∃ res,
    kahn fuel key adj ind av ord = Ok res
    ∧ NoDup res ∧ (∀ n, n ∈ res → n ∈ N)
    ∧ greedy N E kf res
    ∧ (∀ n, n ∈ N → n ∈ res ↔ pending E res n = 0%nat).
Proof.
  revert ind av ord. induction fuel as [|fuel IH]; intros ind av ord Hinv Hg Hfuel.
  - destruct (decide (av = [])) as [->|Hne].
    + destruct Hinv as (Hnd & Hsub & _ & Hav). rewrite app_nil_r in *.
      exists ord. done.
    + exfalso. destruct Hinv as (Hnd & Hsub & _).
      assert (length (ord ++ av) ≤ length N)%nat as Hlen.
      { apply submseteq_length, NoDup_submseteq; [done|]. intros x Hx. by apply Hsub. }
      rewrite length_app in Hlen. destruct av; [done|]. simpl in *. lia.
  - destruct (decide (av = [])) as [->|Hne].
    + destruct Hinv as (Hnd & Hsub & _ & Hav). rewrite app_nil_r in *.
      exists ord. done.
    + destruct (kahn_step ind av ord Hinv Hg Hne)
        as (best & av' & ind' & new & Hmax & Hrem & Hrel & Hinv' & Hg').
      destruct (IH ind' (av' ++ new) (ord ++ [best]) Hinv' Hg') as (res & Hres & Hprops).
      { rewrite length_app. simpl. lia. }
      exists res. split; [|done].
      rewrite kahn_unfold by done. rewrite Hmax. simpl.
      rewrite Hrem. simpl. rewrite Hrel. simpl. done.
Qed.
End kahn_facts.

(** ** The ordering phase as a whole *)

Lemma score_key_Ok (sb : list (ident * scored_task)) (tid : ident) :
  tid ∈ od_keys sb → score_key sb tid = Ok (key_of sb tid).
Proof.
  intros [s Hs]%od_get_is_Some. unfold score_key, key_of. by rewrite Hs.
Qed.

Lemma mapM_lookup (sb : list (ident * scored_task)) (l : list ident) :
  (∀ tid, tid ∈ l → tid ∈ od_keys sb) →
  ∃ out, mapM_result (λ tid, match od_get sb tid with
                             | Some s => Ok s
                             | None => Raise KeyError
                             end) l = Ok out
         ∧ Forall2 (λ tid s, od_get sb tid = Some s) l out.
Proof.
  induction l as [|tid l IH]; intros Hl.
  - exists []. by split.
  - destruct (proj2 (od_get_is_Some sb tid)) as [s Hs]; [apply Hl; left|].
    destruct IH as (out & Hout & Hall); [set_solver|].
    exists (s :: out). simpl. rewrite Hs. simpl. rewrite Hout. simpl.
    split; [done|]. by constructor.
Qed.

Lemma kahn_inv_init (N : list ident) (E : list (ident * ident))
    (ind : gmap ident Z) (adj : gmap ident (list ident)) :
  NoDup N → graph_built N E ind adj →
  kahn_inv N E ind (filter (λ tid, default 0 (ind !! tid) = 0) N) [].
Proof.
  intros HN [Hind _].
  assert (Hp : ∀ n, pending E [] n = length (filter (λ p, p.2 = n) E)).
  { intros n. unfold pending. f_equal. apply list_filter_iff.
    intros p. split; [by intros [? _]|]. intros ?. split; [done|]. apply not_elem_of_nil. }
  split_and!; simpl.
  - by apply NoDup_filter.
  - intros n [_ Hn]%list_elem_of_filter. exact Hn.
  - intros n Hn. by rewrite Hind, decide_True, Hp.
  - intros n Hn. rewrite list_elem_of_filter, Hind, decide_True, Hp by done.
    simpl. split; [intros [? _]; lia|intros ->; done].
Qed.

Lemma order_tasks_spec (tasks_by_id : list (ident * task)) (cycles : gset ident)
    (scored : list scored_task) :
  let sb := index_by_id (λ s, task_id (s_task s)) scored in
  ∃ ordered leftover cyclic out,
    order_tasks tasks_by_id cycles scored = Ok out
    ∧ Forall2 (λ tid s, od_get sb tid = Some s) (ordered ++ leftover ++ cyclic) out
    ∧ ordering_of tasks_by_id cycles sb ordered leftover cyclic.
Proof.
  intros sb. unfold order_tasks. fold sb.
  set (N := filter (λ tid, tid ∉ cycles) (od_keys sb)).
  set (C := filter (λ tid, tid ∈ cycles) (od_keys sb)).
  assert (HsbND : NoDup (od_keys sb)) by apply index_by_id_NoDup.
  assert (HN : NoDup N) by by apply NoDup_filter.
  assert (HNsb : ∀ n, n ∈ N → n ∈ od_keys sb).
  { intros n [_ Hn]%list_elem_of_filter. exact Hn. }
  destruct (build_graph_spec tasks_by_id N HN) as (ind & adj & -> & HG).
  simpl. set (E := edges tasks_by_id N N) in *.
  assert (HE : ∀ p, p ∈ E → p.1 ∈ N ∧ p.2 ∈ N).
  { intros p Hp. by eapply edges_in_N. }
  assert (Hkey : ∀ x, x ∈ N → score_key sb x = Ok (key_of sb x)).
  { intros x Hx. apply score_key_Ok. auto. }
  destruct (kahn_spec N E (score_key sb) (key_of sb) adj HN HE (proj2 HG) Hkey
              (length N) ind (filter (λ tid, default 0 (ind !! tid) = 0) N) [])
    as (ordered & -> & Hond & HoN & Hgreedy & Hdone).
  { by apply (kahn_inv_init N E ind adj). }
  { intros pre b post Heq. by destruct pre. }
  { simpl. lia. }
  simpl.
  destruct (py_sort_desc_spec (score_key sb) (key_of sb)
              (filter (λ tid, tid ∉ ordered) N)) as (leftover & -> & Hlperm & Hlsort).
  { intros x [_ Hx]%list_elem_of_filter. apply score_key_Ok. auto. }
  simpl.
  destruct (py_sort_desc_spec (score_key sb) (key_of sb) C) as (cyc & -> & Hcperm & Hcsort).
  { intros x [_ Hx]%list_elem_of_filter. by apply score_key_Ok. }
  simpl.
  destruct (mapM_lookup sb (ordered ++ leftover ++ cyc)) as (out & Hout & Hall).
  { intros tid. rewrite !elem_of_app, Hlperm, Hcperm.
    intros [Hin|[Hin|Hin]].
    - auto.
    - apply list_elem_of_filter in Hin as [_ Hin]. auto.
    - apply list_elem_of_filter in Hin as [_ Hin]. auto. }
  exists ordered, leftover, cyc, out. split_and!; done.
Qed.

(** ** The modelled traversal completes, and finishes dependencies first *)

Lemma list_index_Ok (x : ident) (l : list ident) :
  x ∈ l → ∃ i, list_index x l = Ok i.
Proof.
  induction l as [|y l IH]; [by intros ?%elem_of_nil|].
  intros Hin. simpl. destruct (decide (x = y)); [by eexists|].
  destruct IH as [i ->]; [set_solver|]. by eexists.
Qed.

Lemma list_index_first (x : ident) (l : list ident) (i : nat) :
  list_index x l = Ok i → l !! i = Some x ∧ ∀ j, (j < i)%nat → l !! j ≠ Some x.
Proof.
  revert i. induction l as [|y l IH]; intros i; simpl; [done|].
  destruct (decide (x = y)) as [->|Hne].
  - intros [= <-]. split; [done|]. intros j Hj. lia.
  - intros (i' & Hi' & ->)%fmap_Ok. destruct (IH i' Hi') as [Hl Hfirst].
    split; [done|]. intros [|j] Hj; simpl; [congruence|]. apply Hfirst. lia.
Qed.

(** The top of the stack belongs to every suffix that starts on it. *)
Lemma last_in_drop (l : list ident) (u : ident) (i : nat) :
  last l = Some u → (i < length l)%nat → u ∈ drop i l.
Proof.
  intros [l' ->]%last_Some Hi. rewrite length_app in Hi. simpl in Hi.
  rewrite drop_app_le by lia. apply elem_of_app. right. left.
Qed.

Lemma size_list_to_set_le (l : list ident) :
  (size (list_to_set l : gset ident) ≤ length l)%nat.
Proof.
  induction l as [|x l IH].
  - rewrite list_to_set_nil, size_empty. simpl. lia.
  - rewrite list_to_set_cons, size_union_alt, size_singleton. simpl length.
    assert (size (list_to_set l ∖ {[x]} : gset ident) ≤ size (list_to_set l : gset ident))%nat.
    { apply subseteq_size. set_solver. }
    lia.
Qed.

Lemma dfs_ext_refl (st : dfs_state) : dfs_ext st st.
Proof. by split_and!. Qed.

Lemma dfs_ext_trans (st1 st2 st3 : dfs_state) :
  dfs_ext st1 st2 → dfs_ext st2 st3 → dfs_ext st1 st3.
Proof.
  intros (Hs1 & Hk1 & Hg1 & Hc1 & Hb1) (Hs2 & Hk2 & Hg2 & Hc2 & Hb2).
  split_and!; [congruence|eauto..|set_solver|eauto].
Qed.

Lemma dfs_visit_gray (rec : ident → dfs_state → result dfs_state)
    (st : dfs_state) (dep : ident) (idx : nat) :
  visited st !! dep = Some Gray → list_index dep (stack st) = Ok idx →
  dfs_visit rec st dep =
  Ok (DfsState (visited st) (in_cycle st ∪ list_to_set (drop idx (stack st))) (stack st)).
Proof. intros Hdep Hidx. unfold dfs_visit. by rewrite Hdep, Hidx. Qed.

Lemma dfs_visit_black (rec : ident → dfs_state → result dfs_state)
    (st : dfs_state) (dep : ident) :
  visited st !! dep = Some Black → dfs_visit rec st dep = Ok st.
Proof. intros Hdep. unfold dfs_visit. by rewrite Hdep. Qed.

Lemma dfs_visit_white (rec : ident → dfs_state → result dfs_state)
    (st : dfs_state) (dep : ident) :
  visited st !! dep = None → dfs_visit rec st dep = rec dep st.
Proof. intros Hdep. unfold dfs_visit. by rewrite Hdep. Qed.

Lemma finished_ext (graph : list (ident * list ident)) (st st' : dfs_state)
    (L : list ident) :
  visited st' = visited st → in_cycle st ⊆ in_cycle st' →
  finished graph st L → finished graph st' L.
Proof.
  intros Hv Hc [Hmem Hord]. split.
  - intros u. by rewrite Hv.
  - intros i u Hi Hu. apply (Hord i u Hi). set_solver.
Qed.

Lemma tc_subrel {A : Type} (R1 R2 : relation A) (x y : A) :
  (∀ a b, R1 a b → R2 a b) → tc R1 x y → tc R2 x y.
Proof.
  intros Hsub. induction 1 as [x y H|x y z H _ IH].
  - apply tc_once. auto.
  - eapply tc_l; eauto.
Qed.

Section dfs_facts.
Context (graph : list (ident * list ident)).

Lemma stack_path_snoc (l : list ident) (u d : ident) :
  stack_path graph l → last l = Some u → edge graph u d →
  stack_path graph (l ++ [d]).
Proof.
  intros Hpath Hlast Hedge i a b Hi HSi.
  pose proof (lookup_lt_Some _ _ _ HSi) as Hlen.
  rewrite length_app in Hlen. simpl in Hlen.
  destruct (decide (S i < length l)%nat) as [Hlt|Hge].
  - rewrite lookup_app_l in Hi, HSi by lia. by eapply Hpath.
  - rewrite lookup_app_l in Hi by lia. rewrite lookup_app_r in HSi by lia.
    apply list_lookup_singleton_Some in HSi as [_ <-].
    rewrite last_lookup in Hlast.
    replace (pred (length l)) with i in Hlast by lia. congruence.
Qed.

(** Along the stack, from the index [idx] on, every step follows an edge
    and ends in the suffix [drop idx l]. *)
Lemma stack_path_rtc_suffix (l : list ident) (idx i k : nat) (a b : ident) :
  stack_path graph l → (idx ≤ i)%nat → l !! i = Some a → l !! (i + k)%nat = Some b →
  rtc (λ x y, edge graph x y ∧ y ∈ drop idx l) a b.
Proof.
  intros Hpath Hle. revert b. induction k as [|k IH]; intros b Hi Hk.
  - rewrite Nat.add_0_r in Hk. assert (a = b) as -> by congruence. done.
  - replace (i + S k)%nat with (S (i + k)) in Hk by lia.
    destruct (lookup_lt_is_Some_2 l (i + k)) as [c Hc].
    { apply lookup_lt_Some in Hk. lia. }
    eapply rtc_r; [by apply IH|]. split; [by eapply Hpath|].
    apply list_elem_of_lookup. exists (S (i + k) - idx)%nat.
    rewrite lookup_drop. by replace (idx + (S (i + k) - idx))%nat with (S (i + k)) by lia.
Qed.

(** Every node of the stack suffix that starts at [dep] lies on a cycle
    within that suffix once the top of the stack has an edge to [dep]. *)
Lemma stack_suffix_closed_cycle (l : list ident) (idx : nat) (dep u x : ident) :
  stack_path graph l → l !! idx = Some dep → last l = Some u →
  edge graph u dep → x ∈ drop idx l →
  tc (λ a b, edge graph a b ∧ b ∈ drop idx l) x x.
Proof.
  intros Hpath Hidx Hlast Hedge [k Hk]%list_elem_of_lookup.
  rewrite lookup_drop in Hk.
  assert (rtc (λ a b, edge graph a b ∧ b ∈ drop idx l) dep x) as Hdx.
  { by apply (stack_path_rtc_suffix l idx idx k). }
  assert (rtc (λ a b, edge graph a b ∧ b ∈ drop idx l) x u) as Hxu.
  { rewrite last_lookup in Hlast.
    pose proof (lookup_lt_Some _ _ _ Hk) as Hlt.
    apply (stack_path_rtc_suffix l idx (idx + k) (pred (length l) - (idx + k)));
      [done|lia|done|].
    by replace (idx + k + (pred (length l) - (idx + k)))%nat with (pred (length l)) by lia. }
  eapply tc_rtc_l; [exact Hxu|]. eapply tc_rtc_r; [|exact Hdx]. apply tc_once.
  split; [done|]. apply list_elem_of_lookup. exists 0%nat.
  by rewrite lookup_drop, Nat.add_0_r.
Qed.

Lemma graph_key_node (node : ident) :
  node ∈ od_keys graph → node ∈ (list_to_set (graph_nodes graph) : gset ident).
Proof. unfold graph_nodes. set_solver. Qed.

Lemma graph_dep_node (node d : ident) :
  d ∈ graph_deps graph node →
  d ∈ (list_to_set (graph_nodes graph) : gset ident).
Proof.
  unfold graph_deps.
  destruct (od_get graph node) as [l|] eqn:Hl; simpl; [|by intros ?%elem_of_nil].
  intros Hd. apply od_get_Some_elem in Hl.
  unfold graph_nodes. rewrite elem_of_list_to_set, elem_of_app. right.
  apply list_elem_of_In, in_concat. exists l.
  rewrite <- !list_elem_of_In. split; [|done].
  apply list_elem_of_fmap. by exists (node, l).
Qed.

Lemma white_ext (st st' : dfs_state) :
  dfs_ext st st' → (size (white graph st') ≤ size (white graph st))%nat.
Proof.
  intros (_ & Hk & _). apply subseteq_size. unfold white.
  assert (dom (visited st) ⊆ dom (visited st')); [|set_solver].
  intros x [c Hc]%elem_of_dom. apply elem_of_dom. eauto.
Qed.

(** The loop over the dependencies of the node [u] on top of the stack,
    given that calls with this fuel complete: afterwards every dependency
    is black, or [u] is marked. *)
Lemma dfs_loop_spec (fuel : nat) (deps : list ident) (st : dfs_state)
    (L : list ident) (u : ident) :
  dfs_call_ok graph fuel →
  dfs_wf st →
  (∀ d, d ∈ deps → d ∈ (list_to_set (graph_nodes graph) : gset ident)) →
  (size (white graph st) ≤ fuel)%nat →
  finished graph st L →
  last (stack st) = Some u →
  (∀ d, d ∈ deps → edge graph u d) →
  stack_path graph (stack st) →
  marks_sound graph st →
  ∃ st' L',
    foldM (dfs_visit (dfs fuel graph)) deps st = Ok st'
    ∧ dfs_ext st st' ∧ dfs_wf st' ∧ finished graph st' (L ++ L')
    ∧ (∀ v, v ∈ deps → visited st' !! v = Some Black ∨ u ∈ in_cycle st')
    ∧ marks_sound graph st'.
Proof.
  intros Hrec. revert st L.
  induction deps as [|dep deps IH];
    intros st L Hwf Hdeps Hsize Hfin Hlast Hedges Hpath Hsound.
  - exists st, []. rewrite app_nil_r.
    split_and!; [done|apply dfs_ext_refl|done|done|by intros ? ?%elem_of_nil|done].
  - cbn [foldM].
    assert (Hedges' : ∀ d, d ∈ deps → edge graph u d) by (intros; apply Hedges; by right).
    assert (Hdeps' : ∀ d, d ∈ deps → d ∈ (list_to_set (graph_nodes graph) : gset ident))
      by (intros; apply Hdeps; by right).
    destruct (visited st !! dep) as [[]|] eqn:Hdep.
    + (* gray: the stack suffix is marked *)
      destruct (list_index_Ok dep (stack st)) as [idx Hidx]; [by apply Hwf|].
      rewrite (dfs_visit_gray _ _ _ idx) by done. simpl.
      set (st1 := DfsState _ _ _).
      pose proof (list_index_first _ _ _ Hidx) as [Hat _].
      assert (Hext1 : dfs_ext st st1).
      { split_and!; simpl; [done..|set_solver|].
        intros x Hx [?|Hin]%elem_of_union; [done|].
        apply elem_of_list_to_set, subseteq_drop, Hwf in Hin.
        congruence. }
      assert (Hu1 : u ∈ in_cycle st1).
      { simpl. apply elem_of_union. right. apply elem_of_list_to_set.
        apply last_in_drop; [done|]. by eapply lookup_lt_Some. }
      assert (Hsound1 : marks_sound graph st1).
      { intros x [Hx|Hx]%elem_of_union.
        - eapply tc_subrel; [|by apply Hsound].
          intros a b [Hab Hb]. split; [done|]. simpl. set_solver.
        - apply elem_of_list_to_set in Hx.
          eapply tc_subrel;
            [|eapply (stack_suffix_closed_cycle (stack st) idx dep u); try done;
              apply Hedges; left].
          intros a b [Hab Hb]. split; [done|]. simpl. set_solver. }
      destruct (IH st1 L) as (st' & L' & -> & Hext & Hwf' & Hfin' & Hprop & Hsound');
        try done.
      { eapply finished_ext; [| |done]; simpl; [done|set_solver]. }
      exists st', L'. split_and!; [done| |done|done| |done].
      * by eapply dfs_ext_trans.
      * intros v [->|Hv]%elem_of_cons; [|auto].
        right. destruct Hext as (_ & _ & _ & Hc & _). set_solver.
    + (* black *)
      rewrite dfs_visit_black by done. simpl.
      destruct (IH st L) as (st' & L' & -> & Hext & Hwf' & Hfin' & Hprop & Hsound');
        try done.
      exists st', L'. split_and!; [done..| |done].
      intros v [->|Hv]%elem_of_cons; [|auto].
      left. destruct Hext as (_ & Hk & _). auto.
    + (* white: recursive call *)
      rewrite dfs_visit_white by done.
      destruct (Hrec dep st L)
        as (st1 & L1 & -> & Hext1 & Hwf1 & Hfin1 & Hblack & Hsound1); try done.
      { apply Hdeps. left. }
      { eapply stack_path_snoc; [done..|]. apply Hedges. left. }
      simpl.
      destruct (IH st1 (L ++ L1))
        as (st' & L' & -> & Hext & Hwf' & Hfin' & Hprop & Hsound'); try done.
      { pose proof (white_ext st st1 Hext1). lia. }
      { destruct Hext1 as (-> & _). done. }
      { destruct Hext1 as (-> & _). done. }
      exists st', (L1 ++ L'). rewrite app_assoc.
      split_and!; [done| |done|done| |done].
      * by eapply dfs_ext_trans.
      * intros v [->|Hv]%elem_of_cons; [|auto].
        left. destruct Hext as (_ & Hk & _). auto.
Qed.

Lemma dfs_spec (fuel : nat) : dfs_call_ok graph fuel.
Proof.
  induction fuel as [|fuel IH]; intros node st L Hwf Hnode HU Hsize Hfin Hpath Hsound.
  - exfalso. assert (node ∈ white graph st) as Hin.
    { unfold white. apply elem_of_difference. split; [done|].
      by apply not_elem_of_dom. }
    assert (white graph st ≡ ∅) as Hempty by (apply size_empty_inv; lia).
    set_solver.
  - simpl.
    set (st1 := DfsState (<[node:=Gray]> (visited st)) (in_cycle st) (stack st ++ [node])).
    assert (Hwf1 : dfs_wf st1).
    { intros x. simpl. rewrite elem_of_app, list_elem_of_singleton, <- (Hwf x).
      destruct (decide (node = x)) as [->|Hne].
      - rewrite lookup_insert_eq. naive_solver.
      - rewrite lookup_insert_ne by done. naive_solver. }
    assert (Hsize1 : (size (white graph st1) ≤ fuel)%nat).
    { assert (white graph st1 ⊂ white graph st) as Hsub; [|apply subset_size in Hsub; lia].
      assert (node ∉ dom (visited st)) as Hnd by by apply not_elem_of_dom.
      unfold white. simpl. rewrite dom_insert_L. split.
      - intros x. rewrite !elem_of_difference, elem_of_union. tauto.
      - intros Hsub. specialize (Hsub node).
        rewrite !elem_of_difference, elem_of_union, elem_of_singleton in Hsub.
        tauto. }
    assert (Hfin1 : finished graph st1 L).
    { destruct Hfin as [Hmem Hord]. split; [|done].
      intros x. rewrite Hmem. simpl.
      destruct (decide (node = x)) as [->|Hne].
      - rewrite lookup_insert_eq, Hnode. naive_solver.
      - by rewrite lookup_insert_ne. }
    destruct (dfs_loop_spec fuel (graph_deps graph node) st1 L node IH Hwf1)
      as (st2 & L2 & Hrun & (Hs2 & Hk2 & Hg2 & Hc2 & Hb2) & Hwf2 & Hfin2 & Hprop & Hsound2);
      try done.
    { intros d Hd. by eapply graph_dep_node. }
    { simpl. apply last_snoc. }
    unfold graph_deps in Hrun. rewrite Hrun. simpl.
    set (st3 := DfsState (<[node:=Black]> (visited st2)) (in_cycle st2)
                         (removelast (stack st2))).
    assert (Hgray2 : visited st2 !! node = Some Gray).
    { apply Hk2. simpl. by rewrite lookup_insert_eq. }
    assert (Hext : dfs_ext st st3).
    { split_and!; simpl.
      - rewrite Hs2. simpl. apply removelast_last.
      - intros x c Hx. assert (node ≠ x) by congruence.
        rewrite lookup_insert_ne by done. apply Hk2. simpl.
        by rewrite lookup_insert_ne.
      - intros x. destruct (decide (node = x)) as [->|Hne].
        + by rewrite lookup_insert_eq.
        + rewrite lookup_insert_ne by done. intros Hx%Hg2. simpl in Hx.
          by rewrite lookup_insert_ne in Hx.
      - exact Hc2.
      - intros x Hx Hin. apply Hb2; [|done]. simpl.
        assert (node ≠ x) by congruence. by rewrite lookup_insert_ne. }
    exists st3, (L2 ++ [node]). split_and!; [done|done| | | |done].
    + destruct Hext as (Hs & Hk & Hg & _). intros x. rewrite Hs. split.
      * intros Hx%Hg. by apply Hwf.
      * intros Hx%Hwf. by apply Hk.
    + destruct Hfin2 as [Hmem2 Hord2]. rewrite app_assoc. split.
      * intros x. rewrite elem_of_app, list_elem_of_singleton, Hmem2. simpl.
        destruct (decide (node = x)) as [->|Hne].
        -- rewrite lookup_insert_eq. naive_solver.
        -- rewrite lookup_insert_ne by done. naive_solver.
      * intros i x Hi Hx v Hv. simpl in Hx.
        destruct (decide (i < length (L ++ L2))%nat) as [Hlt|Hge].
        -- rewrite lookup_app_l in Hi by done.
           destruct (Hord2 i x Hi Hx v Hv) as (j & Hj & Hjv).
           exists j. split; [done|]. rewrite lookup_app_l; [done|]. lia.
        -- rewrite lookup_app_r in Hi by lia.
           apply list_lookup_singleton_Some in Hi as [Hi <-].
           destruct (Hprop v Hv) as [Hblack|Hmark]; [|done].
           apply Hmem2, list_elem_of_lookup in Hblack as [j Hj].
           exists j. pose proof (lookup_lt_Some _ _ _ Hj).
           split; [lia|]. by rewrite lookup_app_l.
    + simpl. by rewrite lookup_insert_eq.
Qed.

Lemma dfs_root_seen (st : dfs_state) (node : ident) (c : color) :
  visited st !! node = Some c → dfs_root graph st node = Ok st.
Proof. intros Hc. unfold dfs_root. by rewrite Hc. Qed.

Lemma dfs_root_white (st : dfs_state) (node : ident) :
  visited st !! node = None →
  dfs_root graph st node =
  dfs (S (length (graph_nodes graph))) graph node
      (DfsState (visited st) (in_cycle st) []).
Proof. intros Hc. unfold dfs_root. by rewrite Hc. Qed.

(** The loop over the keys of the graph, each root started with an empty
    stack. *)
Lemma dfs_roots_spec (roots : list ident) (st : dfs_state) (L : list ident) :
  (∀ x, visited st !! x ≠ Some Gray) →
  (∀ r, r ∈ roots → r ∈ od_keys graph) →
  finished graph st L →
  marks_sound graph st →
  ∃ st' L',
    foldM (dfs_root graph) roots st = Ok st'
    ∧ (∀ x, visited st' !! x ≠ Some Gray)
    ∧ (∀ x, visited st !! x = Some Black → visited st' !! x = Some Black)
    ∧ finished graph st' (L ++ L')
    ∧ (∀ r, r ∈ roots → visited st' !! r = Some Black)
    ∧ marks_sound graph st'.
Proof.
  revert st L. induction roots as [|r roots IH]; intros st L Hgray Hroots Hfin Hsound.
  { exists st, []. rewrite app_nil_r.
    split_and!; [done..|by intros ? ?%elem_of_nil|done]. }
  cbn [foldM].
  destruct (visited st !! r) as [c|] eqn:Hr.
  - rewrite (dfs_root_seen _ _ c) by done. simpl.
    destruct (IH st L) as (st' & L' & -> & Hg' & Hb' & Hfin' & Hr' & Hsound');
      [done|set_solver|done|done|].
    exists st', L'. split_and!; [done..| |done].
    intros x [->|Hx]%elem_of_cons; [|auto].
    apply Hb'. destruct c; [by apply Hgray in Hr|done].
  - rewrite dfs_root_white by done.
    destruct (dfs_spec (S (length (graph_nodes graph))) r
                (DfsState (visited st) (in_cycle st) []) L)
      as (st1 & L1 & -> & (Hs & Hk & Hg & Hc & Hb) & Hwf1 & Hfin1 & Hblack & Hsound1).
    + intros x. simpl. split; [by intros ?%Hgray|by intros ?%elem_of_nil].
    + done.
    + apply graph_key_node. apply Hroots. left.
    + transitivity (size (list_to_set (graph_nodes graph) : gset ident)).
      * apply subseteq_size. unfold white. set_solver.
      * pose proof (size_list_to_set_le (graph_nodes graph)). lia.
    + by eapply finished_ext.
    + simpl. by intros [|i] a b.
    + done.
    + simpl.
      destruct (IH st1 (L ++ L1)) as (st' & L' & -> & Hg' & Hb' & Hfin' & Hr' & Hsound');
        [|set_solver|done|done|].
      { intros x Hx. apply Hg in Hx. simpl in Hx. by apply (Hgray x). }
      exists st', (L1 ++ L'). rewrite app_assoc. split_and!; [done|done| |done| |done].
      * intros x Hx. apply Hb'. by apply Hk.
      * intros x [->|Hx]%elem_of_cons; auto.
Qed.
End dfs_facts.

(** In this model [detect_cycles] returns; every identifier of its result
    lies on a dependency cycle that runs through identifiers of the result
    only; and with the result comes an order of the nodes in which every
    dependency of an unmarked node stands before that node. *)
Lemma detect_cycles_closed_spec (tasks_by_id : list (ident * task)) :
  ∃ (cycles : gset ident) (L : list ident),
    detect_cycles tasks_by_id = Ok cycles
    ∧ (∀ tid, tid ∈ cycles →
         tc (λ a b, depends_on tasks_by_id a b ∧ b ∈ cycles) tid tid)
    ∧ (∀ tid, tid ∈ od_keys tasks_by_id → tid ∈ L)
    ∧ (∀ i u, L !! i = Some u → u ∉ cycles →
         ∀ v, v ∈ task_deps tasks_by_id u → ∃ j, (j < i)%nat ∧ L !! j = Some v).
Proof.
  unfold detect_cycles.
  set (graph := prod_map id deps_of <$> tasks_by_id).
  assert (Hdeps : ∀ u, graph_deps graph u = task_deps tasks_by_id u).
  { intros u. unfold graph_deps, task_deps, graph. rewrite od_get_fmap.
    by destruct (od_get tasks_by_id u). }
  destruct (dfs_roots_spec graph (od_keys graph) (DfsState ∅ ∅ []) [])
    as (st & L & -> & _ & _ & [Hmem Hord] & Hroots & Hsound).
  - intros x. simpl. by rewrite lookup_empty.
  - done.
  - split.
    + intros u. simpl. rewrite lookup_empty. split; [by intros ?%elem_of_nil|done].
    + by intros [|i] u.
  - intros x Hx. simpl in Hx. set_solver.
  - simpl in *. exists (in_cycle st), L. split_and!; [done| | |].
    + intros tid Htid. eapply tc_subrel; [|by apply Hsound].
      intros a b. unfold edge, depends_on. by rewrite Hdeps.
    + intros tid Htid. apply Hmem, Hroots. unfold graph. by rewrite od_keys_fmap.
    + intros i u Hi Hu v Hv. apply (Hord i u Hi Hu). by rewrite Hdeps.
Qed.

Lemma detect_cycles_spec (tasks_by_id : list (ident * task)) :
  ∃ (cycles : gset ident) (L : list ident),
    detect_cycles tasks_by_id = Ok cycles
    ∧ (∀ tid, tid ∈ cycles → on_cycle tasks_by_id tid)
    ∧ (∀ tid, tid ∈ od_keys tasks_by_id → tid ∈ L)
    ∧ (∀ i u, L !! i = Some u → u ∉ cycles →
         ∀ v, v ∈ task_deps tasks_by_id u → ∃ j, (j < i)%nat ∧ L !! j = Some v).
Proof.
  destruct (detect_cycles_closed_spec tasks_by_id)
    as (cycles & L & Hrun & Hclosed & HL & Hord).
  exists cycles, L. split_and!; [done| |done..].
  intros tid Htid. eapply tc_subrel; [|by apply Hclosed]. by intros a b [? _].
Qed.

Lemma detect_cycles_total (tasks_by_id : list (ident * task)) :
  ∃ cycles, detect_cycles tasks_by_id = Ok cycles.
Proof. destruct (detect_cycles_spec tasks_by_id) as (cycles & _ & ? & _). eauto. Qed.

(** ** Signals, weights and scores *)

Lemma normalize_importance_range (v : pyval) (imp : Z) :
  normalize_importance v = Ok imp → 1 ≤ imp ≤ 10.
Proof.
  unfold normalize_importance. intros (n & _ & Hn)%bind_Ok.
  injection Hn as <-.
  destruct (Z.ltb_spec n 1); destruct (Z.gtb_spec 1 10);
    repeat match goal with |- context [?a >? ?b] => destruct (Z.gtb_spec a b) end; lia.
Qed.

Lemma compute_effort_score_levels (v : pyval) (e : Z) :
  compute_effort_score v = Ok e → e ∈ [5; 10; 7; 4; 2].
Proof.
  unfold compute_effort_score. destruct (Py.float v) as [h|[]|]; try done.
  - repeat match goal with |- context [if ?b then _ else _] => destruct b end;
      intros [= <-]; set_solver.
  - intros [= <-]; set_solver.
  - intros [= <-]; set_solver.
Qed.

Lemma compute_urgency_score_levels (clock : nat → Z) (due : pyval) (k : nat) :
  (compute_urgency_score clock due k).1 ∈ [3; 10; 9; 8; 6; 4; 2].
Proof.
  unfold compute_urgency_score. destruct (_parse_due_date due); simpl; [|set_solver].
  repeat match goal with |- context [if ?b then _ else _] => destruct b end; set_solver.
Qed.

Lemma bonus_of_count_levels (n : Z) : bonus_of_count n ∈ [0; 3; 6; 10].
Proof.
  unfold bonus_of_count.
  repeat match goal with |- context [if ?b then _ else _] => destruct b end; set_solver.
Qed.

Lemma compute_dependency_bonus_levels (tasks : list task) (tid : ident) (b : Z) :
  compute_dependency_bonus tasks !! tid = Some b → b ∈ [0; 3; 6; 10].
Proof.
  unfold compute_dependency_bonus. generalize (count_dependents tasks). intros dc.
  induction tasks as [|t tasks IH] using rev_ind; simpl.
  - by rewrite lookup_empty.
  - rewrite foldl_app. simpl.
    destruct (decide (get_id t = tid)) as [->|Hne].
    + rewrite lookup_insert_eq. intros [= <-]. apply bonus_of_count_levels.
    + by rewrite lookup_insert_ne.
Qed.

Lemma strategy_weights_cases (strategy : string) :
  strategy_weights strategy ∈
    [Weights 20 20 50 10; Weights 20 60 10 10; Weights 60 20 10 10; Weights 35 35 15 15].
Proof.
  unfold strategy_weights, STRATEGY_WEIGHTS.
  destruct (decide (strategy = "fastest_wins")) as [->|]; [set_solver|].
  rewrite lookup_insert_ne by done.
  destruct (decide (strategy = "high_impact")) as [->|]; [set_solver|].
  rewrite lookup_insert_ne by done.
  destruct (decide (strategy = "deadline_driven")) as [->|]; [set_solver|].
  rewrite lookup_insert_ne by done.
  destruct (decide (strategy = "smart_balance")) as [->|]; [set_solver|].
  rewrite lookup_insert_ne by done. rewrite lookup_empty. set_solver.
Qed.

Lemma strategy_weights_unknown (strategy : string) :
  strategy ∉ ["fastest_wins"; "high_impact"; "deadline_driven"; "smart_balance"] →
  strategy_weights strategy = strategy_weights "smart_balance".
Proof.
  intros Hs. unfold strategy_weights, STRATEGY_WEIGHTS.
  rewrite !(lookup_insert_ne _ _ strategy) by set_solver.
  by rewrite lookup_empty.
Qed.

Lemma base_score_range (w : weights) (u i e d : Z) :
  w ∈ [Weights 20 20 50 10; Weights 20 60 10 10; Weights 60 20 10 10; Weights 35 35 15 15] →
  0 ≤ u ≤ 10 → 0 ≤ i ≤ 10 → 0 ≤ e ≤ 10 → 0 ≤ d ≤ 10 →
  0 ≤ base_score w u i e d ≤ 1000.
Proof.
  intros Hw ????. unfold base_score.
  repeat (apply elem_of_cons in Hw as [->|Hw]; [simpl; lia|]).
  by apply elem_of_nil in Hw.
Qed.

(** What [score_task] returns, spelled out. *)
Lemma score_task_Ok (w : weights) (cycles : gset ident) (db : gmap ident Z)
    (u : Z) (t : task) (s : scored_task) :
  score_task w cycles db u t = Ok s →
  ∃ imp eff,
    normalize_importance (importance t) = Ok imp
    ∧ compute_effort_score (estimated_hours t) = Ok eff
    ∧ s_task s = t
    ∧ score s = base_score w u imp eff (default 0 (db !! get_id t))
                - (if bool_decide (get_id t ∈ cycles) then 200 else 0).
Proof.
  unfold score_task. intros (imp & Himp & (eff & Heff & Hs)%bind_Ok)%bind_Ok.
  exists imp, eff. injection Hs as <-. simpl. split_and!; try done.
  case_bool_decide; lia.
Qed.

Lemma score_loop_Ok (clock : nat → Z) (w : weights) (cycles : gset ident)
    (db : gmap ident Z) (tasks : list task) (k k' : nat) (scored : list scored_task) :
  score_loop clock w cycles db tasks k = Ok (scored, k') →
  Forall2 (λ t s, ∃ j, score_task w cycles db (compute_urgency_score clock (due_date t) j).1 t
                      = Ok s) tasks scored.
Proof.
  revert k scored. induction tasks as [|t tasks IH]; intros k scored; simpl.
  - intros [= <- _]. constructor.
  - destruct (compute_urgency_score clock (due_date t) k) as [u k1] eqn:Hu.
    intros (s & Hs & ([rest k2] & Hrest & Hres)%bind_Ok)%bind_Ok.
    injection Hres as <- <-. constructor; [|by eapply IH].
    exists k. by rewrite Hu.
Qed.

Lemma score_loop_tasks (clock : nat → Z) (w : weights) (cycles : gset ident)
    (db : gmap ident Z) (tasks : list task) (k k' : nat) (scored : list scored_task) :
  score_loop clock w cycles db tasks k = Ok (scored, k') → s_task <$> scored = tasks.
Proof.
  intros H%score_loop_Ok. induction H as [|t s tasks scored (j & Hs) _ IH]; [done|].
  apply score_task_Ok in Hs as (? & ? & _ & _ & Hs & _). rewrite fmap_cons. by f_equal.
Qed.

(** The result of the loop depends on the clock only through the day it
    reports. *)
Lemma score_loop_same_day (now : Z) (clock1 clock2 : nat → Z) (w : weights)
    (cycles : gset ident) (db : gmap ident Z) (tasks : list task) (k1 k2 : nat) :
  (∀ j, clock1 j = now) → (∀ j, clock2 j = now) →
  fst <$> score_loop clock1 w cycles db tasks k1
  = fst <$> score_loop clock2 w cycles db tasks k2.
Proof.
  intros H1 H2. revert k1 k2. induction tasks as [|t tasks IH]; intros k1 k2; [done|].
  simpl. unfold compute_urgency_score. rewrite H1, H2.
  destruct (_parse_due_date (due_date t)) as [d|].
  - destruct (score_task _ _ _ _ t); simpl; try done.
    specialize (IH (S k1) (S k2)).
    destruct (score_loop clock1 w cycles db tasks (S k1)) as [[??]| |],
             (score_loop clock2 w cycles db tasks (S k2)) as [[??]| |];
      simpl in *; congruence.
  - destruct (score_task _ _ _ _ t); simpl; try done.
    specialize (IH k1 k2).
    destruct (score_loop clock1 w cycles db tasks k1) as [[??]| |],
             (score_loop clock2 w cycles db tasks k2) as [[??]| |];
      simpl in *; congruence.
Qed.

(** [score_tasks] with the clock reads forgotten *)
Lemma score_tasks_fst (clock : nat → Z) (tasks : list task) (strategy : string) (k : nat) :
  fst <$> score_tasks clock tasks strategy k =
  cycles ← detect_cycles (index_by_id task_id tasks);
  scored ← fst <$> score_loop clock (strategy_weights strategy) cycles
                              (compute_dependency_bonus tasks) tasks k;
  order_tasks (index_by_id task_id tasks) cycles scored.
Proof.
  unfold score_tasks.
  destruct (detect_cycles _) as [cycles| |]; simpl; try done.
  destruct (score_loop _ _ _ _ _ _) as [[scored k']| |]; simpl; try done.
  by destruct (order_tasks _ _ _).
Qed.

(** The three steps behind a successful call *)
Lemma score_tasks_Ok (clock : nat → Z) (tasks : list task) (strategy : string)
    (k k' : nat) (out : list scored_task) :
  score_tasks clock tasks strategy k = Ok (out, k') →
  ∃ cycles scored,
    detect_cycles (index_by_id task_id tasks) = Ok cycles
    ∧ score_loop clock (strategy_weights strategy) cycles
                 (compute_dependency_bonus tasks) tasks k = Ok (scored, k')
    ∧ order_tasks (index_by_id task_id tasks) cycles scored = Ok out.
Proof.
  unfold score_tasks.
  intros (cycles & Hc & ([scored k1] & Hs & (final & Hf & Hres)%bind_Ok)%bind_Ok)%bind_Ok.
  injection Hres as <- <-. by exists cycles, scored.
Qed.

(** ** From identifiers to output records *)

Lemma od_values_perm {V : Type} (dflt : V) (d : list (ident * V))
    (ids : list ident) (out : list V) :
  NoDup (od_keys d) → ids ≡ₚ od_keys d →
  Forall2 (λ k v, od_get d k = Some v) ids out → out ≡ₚ d.*2.
Proof.
  intros Hnd Hperm Hall.
  assert (out = (λ k, default dflt (od_get d k)) <$> ids) as ->.
  { clear Hperm. induction Hall as [|k v ids out Hk _ IH]; [done|].
    rewrite fmap_cons, Hk. simpl. f_equal. exact IH. }
  rewrite Hperm. unfold od_keys. rewrite <- list_fmap_compose.
  assert ((λ k, default dflt (od_get d k)) ∘ fst <$> d = snd <$> d) as ->; [|done].
  apply Forall_fmap_ext, Forall_forall. intros [k v] Hkv. simpl.
  by rewrite (od_get_NoDup d k v).
Qed.

Lemma ordering_perm (tbi : list (ident * task)) (cycles : gset ident)
    (sb : list (ident * scored_task)) (ordered leftover cyclic : list ident) :
  NoDup (od_keys sb) →
  ordering_of tbi cycles sb ordered leftover cyclic →
  ordered ++ leftover ≡ₚ filter (λ tid, tid ∉ cycles) (od_keys sb)
  ∧ ordered ++ leftover ++ cyclic ≡ₚ od_keys sb.
Proof.
  intros Hnd (Hond & HoN & _ & _ & Hl & _ & Hc & _).
  set (N := filter (λ tid, tid ∉ cycles) (od_keys sb)) in *.
  assert (HN : NoDup N) by by apply NoDup_filter.
  assert (H1 : ordered ++ leftover ≡ₚ N).
  { transitivity (filter (λ tid, tid ∈ ordered) N ++ filter (λ tid : ident, ¬ (tid ∈ ordered)) N);
      [|apply filter_app_complement].
    apply Permutation_app; [|exact Hl].
    apply NoDup_Permutation; [done|by apply NoDup_filter|].
    intros x. rewrite list_elem_of_filter. naive_solver. }
  split; [done|].
  rewrite app_assoc.
  transitivity (filter (λ tid, tid ∉ cycles) (od_keys sb)
                ++ filter (λ tid : ident, ¬ (tid ∉ cycles)) (od_keys sb));
    [|apply filter_app_complement].
  apply Permutation_app; [exact H1|].
  rewrite Hc. erewrite list_filter_iff; [done|].
  intros x. simpl. destruct (decide (x ∈ cycles)); naive_solver.
Qed.



Lemma Forall2_lookup_ids (sb : list (ident * scored_task))
    (ids : list ident) (out : list scored_task) :
  (∀ k s, od_get sb k = Some s → sid s = k) →
  Forall2 (λ tid s, od_get sb tid = Some s) ids out → ids = sid <$> out.
Proof.
  intros Hsid Hall. induction Hall as [|k s ids out Hk _ IH]; [done|].
  rewrite fmap_cons, (Hsid k s Hk). by f_equal.
Qed.


(** ** The shape of a successful call *)

Lemma score_tasks_structure (clock : nat → Z) (tasks : list task) (strategy : string)
    (k k' : nat) (out : list scored_task) :
  score_tasks clock tasks strategy k = Ok (out, k') →
  ∃ cycles scored ordered leftover cyclic,
    detect_cycles (index_by_id task_id tasks) = Ok cycles
    ∧ score_loop clock (strategy_weights strategy) cycles
                 (compute_dependency_bonus tasks) tasks k = Ok (scored, k')
    ∧ Forall2 (λ tid s, od_get (index_by_id (λ s, task_id (s_task s)) scored) tid = Some s)
              (ordered ++ leftover ++ cyclic) out
    ∧ ordering_of (index_by_id task_id tasks) cycles
                  (index_by_id (λ s, task_id (s_task s)) scored) ordered leftover cyclic.
Proof.
  intros (cycles & scored & Hc & Hs & Ho)%score_tasks_Ok.
  destruct (order_tasks_spec (index_by_id task_id tasks) cycles scored)
    as (ordered & leftover & cyclic & out' & Hout & Hall & Hord).
  rewrite Ho in Hout. injection Hout as <-.
  by exists cycles, scored, ordered, leftover, cyclic.
Qed.

Lemma scored_by_id_entry (scored : list scored_task) (tid : ident) (s : scored_task) :
  od_get (index_by_id (λ s, task_id (s_task s)) scored) tid = Some s →
  s ∈ scored ∧ task_id (s_task s) = Some tid ∧ sid s = tid.
Proof.
  intros [Hin Hid]%index_by_id_elem. split_and!; [done..|].
  unfold sid, get_id. by rewrite Hid.
Qed.

Lemma tasks_by_id_entry (scored : list scored_task) (tid : ident) :
  od_get (index_by_id task_id (s_task <$> scored)) tid
  = s_task <$> od_get (index_by_id (λ s, task_id (s_task s)) scored) tid.
Proof.
  rewrite <- od_get_fmap. f_equal. symmetry.
  apply (index_by_id_fmap s_task task_id).
Qed.

Lemma out_from_scored (clock : nat → Z) (tasks : list task) (strategy : string)
    (k k' : nat) (out : list scored_task) (s : scored_task) :
  score_tasks clock tasks strategy k = Ok (out, k') → s ∈ out →
  ∃ cycles j,
    detect_cycles (index_by_id task_id tasks) = Ok cycles
    ∧ s_task s ∈ tasks
    ∧ score_task (strategy_weights strategy) cycles (compute_dependency_bonus tasks)
                 (compute_urgency_score clock (due_date (s_task s)) j).1 (s_task s) = Ok s.
Proof.
  intros (cycles & scored & ordered & leftover & cyclic & Hc & Hs & Hall & _)%score_tasks_structure Hin.
  assert (s ∈ scored) as Hsc.
  { apply list_elem_of_lookup in Hin as [i Hi].
    destruct (Forall2_lookup_r _ _ _ _ _ Hall Hi) as (tid & _ & Htid).
    by apply scored_by_id_entry in Htid as [? _]. }
  apply score_loop_Ok in Hs.
  apply list_elem_of_lookup in Hsc as [i Hi].
  destruct (Forall2_lookup_r _ _ _ _ _ Hs Hi) as (t & Ht & j & Hj).
  assert (s_task s = t) as Hst.
  { by apply score_task_Ok in Hj as (? & ? & _ & _ & ? & _). }
  exists cycles, j. rewrite Hst. split_and!; [done| |done].
  by eapply list_elem_of_lookup_2.
Qed.

(** ** Ordering of the output *)

Lemma score_tasks_layout (clock : nat → Z) (tasks : list task) (strategy : string)
    (k k' : nat) (out : list scored_task) :
  score_tasks clock tasks strategy k = Ok (out, k') →
  ∃ cycles scored o l c,
    let tbi := index_by_id task_id tasks in
    let sb := index_by_id (λ s, task_id (s_task s)) scored in
    out = o ++ l ++ c
    ∧ detect_cycles tbi = Ok cycles
    ∧ s_task <$> scored = tasks
    ∧ od_keys sb = od_keys tbi
    ∧ sid <$> out ≡ₚ od_keys tbi
    ∧ (∀ s, s ∈ out → od_get sb (sid s) = Some s)
    ∧ (∀ s, s ∈ out → od_get tbi (sid s) = Some (s_task s))
    ∧ ordering_of tbi cycles sb (sid <$> o) (sid <$> l) (sid <$> c).
Proof.
  intros Hrun.
  destruct (score_tasks_structure _ _ _ _ _ _ Hrun)
    as (cycles & scored & ids_o & ids_l & ids_c & Hc & Hs & Hall & Hord).
  pose proof (score_loop_tasks _ _ _ _ _ _ _ _ Hs) as Htasks.
  set (sb := index_by_id (λ s, task_id (s_task s)) scored) in *.
  set (tbi := index_by_id task_id tasks) in *.
  assert (HsbND : NoDup (od_keys sb)) by apply index_by_id_NoDup.
  destruct (ordering_perm tbi cycles sb ids_o ids_l ids_c HsbND Hord) as [_ Hperm].
  assert (Hentry : ∀ tid s, od_get sb tid = Some s → sid s = tid).
  { intros tid s H. by apply scored_by_id_entry in H as (_ & _ & ?). }
  pose proof (Forall2_lookup_ids sb _ _ Hentry Hall) as Hids.
  assert (Hget : ∀ s, s ∈ out → od_get sb (sid s) = Some s).
  { assert (∀ ids os, Forall2 (λ tid s, od_get sb tid = Some s) ids os →
                      ∀ s, s ∈ os → od_get sb (sid s) = Some s) as Haux.
    { intros ids os H. induction H as [|tid s ids os Hk _ IH]; [by intros ? ?%elem_of_nil|].
      intros s' [->|Hin]%elem_of_cons; [|auto]. by rewrite (Hentry tid s Hk). }
    by apply (Haux _ _ Hall). }
  assert (Hkeys : od_keys sb = od_keys tbi).
  { unfold tbi. rewrite <- Htasks.
    rewrite <- (index_by_id_fmap s_task task_id). by rewrite od_keys_fmap. }
  apply Forall2_app_inv_l in Hall as (o & lc & Ho & Hlc & ->).
  apply Forall2_app_inv_l in Hlc as (l & c & Hl & Hcy & ->).
  pose proof (Forall2_lookup_ids sb _ _ Hentry Ho) as Hio.
  pose proof (Forall2_lookup_ids sb _ _ Hentry Hl) as Hil.
  pose proof (Forall2_lookup_ids sb _ _ Hentry Hcy) as Hic.
  subst ids_o ids_l ids_c.
  exists cycles, scored, o, l, c. simpl. fold sb tbi.
  split_and!; try done.
  - rewrite <- Hkeys, <- Hperm. by rewrite !fmap_app.
  - intros s Hin. unfold tbi. rewrite <- Htasks, tasks_by_id_entry. fold sb.
    by rewrite (Hget s Hin).
Qed.




(** ** Cardinality of the output *)

(** C1, as stated, fails: of two tasks with the same identifier only the
    last is returned, and a task without an identifier is not returned. *)
Lemma C1_tasks_dropped :
  score_tasks_at sample_today [task_A; task_A_bis] "smart_balance"
  = Ok [Scored task_A_bis 385 "Quick win"]
  ∧ length [Scored task_A_bis 385 "Quick win"] ≠ length [task_A; task_A_bis]
  ∧ score_tasks_at sample_today [untracked_task; task_A] "smart_balance"
    = Ok [Scored task_A 385 "Quick win"]
  ∧ length [Scored task_A 385 "Quick win"] ≠ length [untracked_task; task_A].
Proof. split_and!; try discriminate; vm_compute; reflexivity. Qed.

(** C1, amended: when every task carries an identifier and no identifier
    occurs twice, the returned records are the input tasks, each exactly
    once, in some order. *)
Theorem C1_one_record_per_identified_task (clock : nat → Z) (tasks : list task)
    (strategy : string) (k k' : nat) (out : list scored_task) :
  (∀ t, t ∈ tasks → is_Some (task_id t)) →
  NoDup (task_id <$> tasks) →
  score_tasks clock tasks strategy k = Ok (out, k') →
  s_task <$> out ≡ₚ tasks ∧ length out = length tasks.
Proof.
  intros Hids Hnd Hrun.
  destruct (score_tasks_structure _ _ _ _ _ _ Hrun)
    as (cycles & scored & ids_o & ids_l & ids_c & Hc & Hs & Hall & Hord).
  set (sb := index_by_id (λ s, task_id (s_task s)) scored) in *.
  assert (HsbND : NoDup (od_keys sb)) by apply index_by_id_NoDup.
  destruct (ordering_perm _ cycles sb ids_o ids_l ids_c HsbND Hord) as [_ Hperm].
  pose proof (od_values_perm no_scored_task sb _ out HsbND Hperm Hall) as Hout.
  pose proof (score_loop_tasks _ _ _ _ _ _ _ _ Hs) as Htasks.
  assert (sb.*2 = scored) as Hvals.
  { assert (prod_map Some id <$> sb = (λ s, (task_id (s_task s), s)) <$> scored) as Heq.
    { apply index_by_id_distinct.
      - intros s Hin. apply Hids. rewrite <- Htasks.
        apply list_elem_of_fmap. by exists s.
      - by rewrite (list_fmap_compose s_task task_id), Htasks. }
    apply (f_equal (fmap snd)) in Heq.
    rewrite <- !list_fmap_compose in Heq.
    rewrite (list_fmap_ext (snd ∘ prod_map Some id) snd sb) in Heq by (by intros ? []).
    rewrite Heq. rewrite (list_fmap_ext _ id scored) by done. by rewrite list_fmap_id. }
  assert (s_task <$> out ≡ₚ tasks) as Hp.
  { by rewrite Hout, Hvals, Htasks. }
  split; [done|]. by rewrite <- (length_fmap s_task out), Hp.
Qed.

Lemma C1_one_record_per_identified_task_witness :
  s_task <$> [Scored task_A 430 "Quick win; Unblocks other tasks";
              Scored task_B 780 "Due very soon; Very important; Quick win"]
  ≡ₚ [task_A; task_B]
  ∧ length [Scored task_A 430 "Quick win; Unblocks other tasks";
            Scored task_B 780 "Due very soon; Very important; Quick win"]
    = length [task_A; task_B].
Proof.
  apply (C1_one_record_per_identified_task (λ _, sample_today) [task_A; task_B]
           "smart_balance" 0%nat 1%nat).
  - intros t Ht. repeat (apply elem_of_cons in Ht as [->|Ht]; [by eexists|]).
    by apply elem_of_nil in Ht.
  - vm_compute. repeat constructor; set_solver.
  - vm_compute. reflexivity.
Defined.

(** ** Scores *)

Lemma urgency_same_day (now : Z) (due : pyval) (j : nat) :
  (compute_urgency_score (λ _, now) due j).1 = (compute_urgency_score (λ _, now) due 0).1.
Proof. unfold compute_urgency_score. by destruct (_parse_due_date due). Qed.

(** The doubles of the source agree with the decimals of this model on
    every combination of signal levels, weights and penalty, and comparing
    scores as doubles is comparing them as thousandths. *)
Lemma float_arithmetic_agrees :
  FloatCheck.all_agree = true ∧ FloatCheck.decode_monotone = true.
Proof. split; vm_compute; reflexivity. Qed.

Lemma forallb_nested {A B C D E : Type} (f : A → B → C → D → E → bool)
    (la : list A) (lb : list B) (lc : list C) (ld : list D) (le : list E) :
  forallb (λ a, forallb (λ b, forallb (λ c, forallb (λ d,
    forallb (λ e, f a b c d e) le) ld) lc) lb) la = true →
  ∀ a b c d e, a ∈ la → b ∈ lb → c ∈ lc → d ∈ ld → e ∈ le → f a b c d e = true.
Proof.
  intros H a b c d e Ha Hb Hc Hd He.
  rewrite forallb_forall in H. apply list_elem_of_In, H in Ha.
  rewrite forallb_forall in Ha. apply list_elem_of_In, Ha in Hb.
  rewrite forallb_forall in Hb. apply list_elem_of_In, Hb in Hc.
  rewrite forallb_forall in Hc. apply list_elem_of_In, Hc in Hd.
  rewrite forallb_forall in Hd. apply list_elem_of_In, Hd in He. exact He.
Qed.

Lemma float_score_agrees (w : weights * (float * float * float * float))
    (u i e d : Z * float) (cyclic : bool) :
  w ∈ FloatCheck.weight_sets → u ∈ FloatCheck.urgency_levels →
  i ∈ FloatCheck.importance_levels → e ∈ FloatCheck.effort_levels →
  d ∈ FloatCheck.bonus_levels →
  FloatCheck.agree w u i e d cyclic = true.
Proof.
  intros Hw Hu Hi He Hd.
  assert (FloatCheck.agree w u i e d false && FloatCheck.agree w u i e d true = true) as H.
  { apply (forallb_nested
             (λ w u i e d, FloatCheck.agree w u i e d false && FloatCheck.agree w u i e d true)
             FloatCheck.weight_sets FloatCheck.urgency_levels FloatCheck.importance_levels
             FloatCheck.effort_levels FloatCheck.bonus_levels);
      [vm_compute; reflexivity|assumption..]. }
  apply andb_prop in H as [Hf Ht]. by destruct cyclic.
Qed.

Lemma strategy_weights_table (strategy : string) :
  strategy_weights strategy =
  if decide (strategy = "fastest_wins") then Weights 20 20 50 10
  else if decide (strategy = "high_impact") then Weights 20 60 10 10
  else if decide (strategy = "deadline_driven") then Weights 60 20 10 10
  else Weights 35 35 15 15.
Proof.
  unfold strategy_weights, STRATEGY_WEIGHTS.
  destruct (decide (strategy = "fastest_wins")) as [->|]; [done|].
  rewrite lookup_insert_ne by done.
  destruct (decide (strategy = "high_impact")) as [->|]; [done|].
  rewrite lookup_insert_ne by done.
  destruct (decide (strategy = "deadline_driven")) as [->|]; [done|].
  rewrite lookup_insert_ne by done.
  destruct (decide (strategy = "smart_balance")) as [->|]; [done|].
  rewrite lookup_insert_ne by done. by rewrite lookup_empty.
Qed.

(** C3: for a returned record whose identifier is in the cycle set, the
    score is urgency times its weight plus importance times its weight
    plus effort times its weight plus the dependency bonus times its
    weight, minus exactly 200 thousandths, and nothing else: no clamping
    follows, and the sample record below has a negative score.  The
    weights are those of the strategy: (0.20, 0.20, 0.50, 0.10) for
    fastest_wins, (0.20, 0.60, 0.10, 0.10) for high_impact,
    (0.60, 0.20, 0.10, 0.10) for deadline_driven and
    (0.35, 0.35, 0.15, 0.15) otherwise. *)
Theorem C3_cycle_penalty (now : Z) (tasks : list task) (strategy : string)
    (out : list scored_task) (cycles : gset ident) (s : scored_task) :
  score_tasks_at now tasks strategy = Ok out →
  detect_cycles (index_by_id task_id tasks) = Ok cycles →
  s ∈ out → sid s ∈ cycles →
  ∃ imp eff wu wi we wd : Z,
    normalize_importance (importance (s_task s)) = Ok imp
    ∧ compute_effort_score (estimated_hours (s_task s)) = Ok eff
    ∧ (wu, wi, we, wd) =
      (if decide (strategy = "fastest_wins") then (20, 20, 50, 10)
       else if decide (strategy = "high_impact") then (20, 60, 10, 10)
       else if decide (strategy = "deadline_driven") then (60, 20, 10, 10)
       else (35, 35, 15, 15))
    ∧ score s =
      (compute_urgency_score (λ _, now) (due_date (s_task s)) 0).1 * wu
      + imp * wi + eff * we
      + default 0 (compute_dependency_bonus tasks !! sid s) * wd
      - 200.
Proof.
  unfold score_tasks_at. intros ([out' k'] & Hrun & ->)%fmap_Ok Hc Hin Hcyc.
  destruct (out_from_scored _ _ _ _ _ _ s Hrun Hin) as (cycles' & j & Hc' & _ & Hs).
  rewrite Hc in Hc'. injection Hc' as <-.
  apply score_task_Ok in Hs as (imp & eff & Himp & Heff & _ & Hscore).
  rewrite urgency_same_day in Hscore. fold (sid s) in Hscore.
  rewrite bool_decide_eq_true_2 in Hscore by done.
  rewrite strategy_weights_table in Hscore. unfold base_score in Hscore.
  exists imp, eff.
  destruct (decide (strategy = "fastest_wins"));
    [|destruct (decide (strategy = "high_impact"));
      [|destruct (decide (strategy = "deadline_driven"))]];
    eexists _, _, _, _; (split_and!; [done|done|reflexivity|exact Hscore]).
Qed.

Lemma C3_cycle_penalty_witness :
  ∃ imp eff wu wi we wd : Z,
    normalize_importance (importance task_X) = Ok imp
    ∧ compute_effort_score (estimated_hours task_X) = Ok eff
    ∧ (wu, wi, we, wd) = (60, 20, 10, 10)
    ∧ -10 =
      (compute_urgency_score (λ _, sample_today) (due_date task_X) 0).1 * wu
      + imp * wi + eff * we
      + default 0 (compute_dependency_bonus sample_batch !! IdStr "X") * wd
      - 200.
Proof.
  apply (C3_cycle_penalty sample_today sample_batch "deadline_driven"
           [Scored task_A 380 "Quick win; Unblocks other tasks";
            Scored task_B 820 "Due very soon; Very important; Quick win";
            Scored task_Y 70
              "Large effort task; Unblocks other tasks; Part of circular dependency (penalized)";
            Scored task_X (-10)
              "Large effort task; Unblocks other tasks; Part of circular dependency (penalized)"]
           {[IdStr "X"; IdStr "Y"]}
           (Scored task_X (-10)
              "Large effort task; Unblocks other tasks; Part of circular dependency (penalized)")).
  - vm_compute. reflexivity.
  - vm_compute. reflexivity.
  - set_solver.
  - vm_compute. set_solver.
Defined.

(** C10: every selected weight set sums to 100 hundredths, and every
    returned score lies between -200 and 1000 thousandths. *)
Theorem C10_score_bounds (clock : nat → Z) (tasks : list task) (strategy : string)
    (k k' : nat) (out : list scored_task) (s : scored_task) :
  score_tasks clock tasks strategy k = Ok (out, k') → s ∈ out →
  (let w := strategy_weights strategy in
   w_urgency w + w_importance w + w_effort w + w_deps w = 100)
  ∧ -200 ≤ score s ≤ 1000.
Proof.
  intros Hrun Hin.
  pose proof (strategy_weights_cases strategy) as Hw.
  split.
  { simpl. repeat (apply elem_of_cons in Hw as [->|Hw]; [done|]).
    by apply elem_of_nil in Hw. }
  destruct (out_from_scored _ _ _ _ _ _ s Hrun Hin) as (cycles & j & _ & _ & Hs).
  apply score_task_Ok in Hs as (imp & eff & Himp & Heff & _ & ->).
  apply normalize_importance_range in Himp.
  apply compute_effort_score_levels in Heff.
  pose proof (compute_urgency_score_levels clock (due_date (s_task s)) j) as Hu.
  assert (0 ≤ default 0 (compute_dependency_bonus tasks !! get_id (s_task s)) ≤ 10) as Hd.
  { destruct (compute_dependency_bonus tasks !! get_id (s_task s)) as [b|] eqn:Hb;
      simpl; [|lia].
    apply compute_dependency_bonus_levels in Hb.
    repeat (apply elem_of_cons in Hb as [->|Hb]; [lia|]). by apply elem_of_nil in Hb. }
  assert (0 ≤ (compute_urgency_score clock (due_date (s_task s)) j).1 ≤ 10) as Hu'.
  { repeat (apply elem_of_cons in Hu as [->|Hu]; [lia|]). by apply elem_of_nil in Hu. }
  assert (0 ≤ eff ≤ 10) as He.
  { repeat (apply elem_of_cons in Heff as [->|Heff]; [lia|]). by apply elem_of_nil in Heff. }
  pose proof (base_score_range _ _ imp eff _ Hw Hu' ltac:(lia) He Hd).
  case_bool_decide; lia.
Qed.

Lemma C10_score_bounds_witness :
  (let w := strategy_weights "deadline_driven" in
   w_urgency w + w_importance w + w_effort w + w_deps w = 100)
  ∧ -200 ≤ -10 ≤ 1000.
Proof.
  apply (C10_score_bounds (λ _, sample_today) sample_batch "deadline_driven" 0%nat 3%nat
           [Scored task_A 380 "Quick win; Unblocks other tasks";
            Scored task_B 820 "Due very soon; Very important; Quick win";
            Scored task_Y 70
              "Large effort task; Unblocks other tasks; Part of circular dependency (penalized)";
            Scored task_X (-10)
              "Large effort task; Unblocks other tasks; Part of circular dependency (penalized)"]
           (Scored task_X (-10)
              "Large effort task; Unblocks other tasks; Part of circular dependency (penalized)")).
  - vm_compute. reflexivity.
  - set_solver.
Defined.

(** ** Strategy fallback and determinism *)

(** C9: a strategy name outside the table gives exactly the result of
    ["smart_balance"], exceptions included. *)
Theorem C9_unknown_strategy_falls_back (clock : nat → Z) (tasks : list task)
    (strategy : string) (k : nat) :
  strategy ∉ ["fastest_wins"; "high_impact"; "deadline_driven"; "smart_balance"] →
  score_tasks clock tasks strategy k = score_tasks clock tasks "smart_balance" k.
Proof.
  intros Hs. unfold score_tasks. by rewrite (strategy_weights_unknown strategy Hs).
Qed.

Lemma C9_unknown_strategy_falls_back_witness :
  score_tasks (λ _, sample_today) sample_batch "urgent_first" 0
  = score_tasks (λ _, sample_today) sample_batch "smart_balance" 0.
Proof.
  apply (C9_unknown_strategy_falls_back (λ _, sample_today) sample_batch "urgent_first" 0).
  intros Hin. repeat (apply elem_of_cons in Hin as [Hin|Hin]; [discriminate Hin|]).
  by apply elem_of_nil in Hin.
Defined.

(** C6: two calls on the same tasks and strategy, made while the clock
    reports the same day, return the same result, whatever else the clocks
    do and however many clock reads preceded each call. *)
Theorem C6_same_day_same_result (now : Z) (clock1 clock2 : nat → Z) (k1 k2 : nat)
    (tasks : list task) (strategy : string) :
  (∀ j, clock1 j = now) → (∀ j, clock2 j = now) →
  fst <$> score_tasks clock1 tasks strategy k1
  = fst <$> score_tasks clock2 tasks strategy k2.
Proof.
  intros H1 H2. rewrite !score_tasks_fst.
  destruct (detect_cycles _) as [cycles| |]; simpl; try done.
  by rewrite (score_loop_same_day now clock1 clock2 _ _ _ _ k1 k2 H1 H2).
Qed.

Lemma C6_same_day_same_result_witness :
  fst <$> score_tasks (λ _, sample_today) sample_batch "high_impact" 0
  = fst <$> score_tasks (λ j, if (j <? 1000)%nat then sample_today else sample_today)
              sample_batch "high_impact" 7.
Proof.
  apply (C6_same_day_same_result sample_today).
  - done.
  - intros j. by destruct (j <? 1000)%nat.
Defined.

(** ** Dependency bonus *)

Lemma count_deps_lookup (deps : list ident) (dc : gmap ident Z) (tid : ident) :
  default 0 (foldl (λ dc dep, <[dep := default 0 (dc !! dep) + 1]> dc) dc deps !! tid)
  = default 0 (dc !! tid) + occurrences tid deps.
Proof.
  revert dc. induction deps as [|dep deps IH]; intros dc.
  - unfold occurrences. simpl. lia.
  - cbn [foldl]. rewrite IH, occurrences_cons.
    destruct (decide (dep = tid)) as [->|Hne].
    + rewrite lookup_insert_eq. simpl. lia.
    + rewrite lookup_insert_ne by done. lia.
Qed.

Lemma count_dependents_lookup (tasks : list task) (tid : ident) :
  default 0 (count_dependents tasks !! tid) = occurrences tid (tasks ≫= deps_of).
Proof.
  unfold count_dependents.
  assert (∀ dc : gmap ident Z,
            default 0 (foldl (λ dependents_count t,
                   foldl (λ dc dep, <[dep := default 0 (dc !! dep) + 1]> dc)
                         dependents_count (deps_of t)) dc tasks !! tid)
                = default 0 (dc !! tid) + occurrences tid (tasks ≫= deps_of)) as H.
  { induction tasks as [|t tasks IH]; intros dc.
    - unfold occurrences. simpl. lia.
    - cbn [foldl]. rewrite IH, count_deps_lookup. unfold occurrences.
      rewrite bind_cons, filter_app, length_app. lia. }
  rewrite H, lookup_empty. simpl. lia.
Qed.

Lemma occurrences_NoDup (tid : ident) (l : list ident) :
  NoDup l → occurrences tid l = if decide (tid ∈ l) then 1 else 0.
Proof.
  induction 1 as [|x l Hx Hnd IH].
  - case_decide as H; [by apply elem_of_nil in H|done].
  - rewrite occurrences_cons, IH.
    repeat case_decide; subst; try lia; set_solver.
Qed.

Lemma occurrences_listing_tasks (tasks : list task) (tid : ident) :
  (∀ t, t ∈ tasks → NoDup (deps_of t)) →
  occurrences tid (tasks ≫= deps_of) = listing_tasks tasks tid.
Proof.
  unfold listing_tasks. induction tasks as [|t tasks IH]; intros Hnd; [done|].
  rewrite bind_cons, filter_cons.
  assert (occurrences tid (deps_of t ++ tasks ≫= deps_of)
          = occurrences tid (deps_of t) + occurrences tid (tasks ≫= deps_of)) as ->.
  { unfold occurrences. rewrite filter_app, length_app. lia. }
  rewrite IH by set_solver. rewrite occurrences_NoDup by set_solver.
  destruct (decide (tid ∈ deps_of t)); simpl length; lia.
Qed.

Lemma compute_dependency_bonus_lookup (tasks : list task) (t : task) :
  t ∈ tasks →
  compute_dependency_bonus tasks !! get_id t
  = Some (bonus_of_count (occurrences (get_id t) (tasks ≫= deps_of))).
Proof.
  unfold compute_dependency_bonus.
  rewrite <- count_dependents_lookup. generalize (count_dependents tasks). intros dc.
  induction tasks as [|t' tasks IH] using rev_ind; [by intros ?%elem_of_nil|].
  intros Hin. rewrite foldl_app. simpl.
  destruct (decide (get_id t' = get_id t)) as [->|Hne].
  - by rewrite lookup_insert_eq.
  - rewrite lookup_insert_ne by done. apply IH.
    apply elem_of_app in Hin as [?|Hin]; [done|].
    apply list_elem_of_singleton in Hin. congruence.
Qed.

(** C7, as stated, fails: a task that lists itself is counted, although no
    other task lists it. *)
Lemma C7_self_listing_counted :
  compute_dependency_bonus [self_listing_task] !! IdInt 1 = Some 3
  ∧ bonus_of_count (other_listing_tasks [self_listing_task] 0 (IdInt 1)) = 0.
Proof. split; vm_compute; reflexivity. Qed.

(** C7, amended: when no task lists an identifier twice, the bonus of a
    task is decided by the number of tasks of the batch, itself included,
    that list its identifier: none gives 0, one 0.3, two or three 0.6, four
    or more 1.0. *)
Theorem C7_bonus_by_listing_tasks (tasks : list task) (t : task) :
  (∀ t', t' ∈ tasks → NoDup (deps_of t')) → t ∈ tasks →
  compute_dependency_bonus tasks !! get_id t
  = Some (bonus_of_count (listing_tasks tasks (get_id t)))
  ∧ bonus_of_count 0 = 0 ∧ bonus_of_count 1 = 3
  ∧ bonus_of_count 2 = 6 ∧ bonus_of_count 3 = 6
  ∧ ∀ n, 4 ≤ n → bonus_of_count n = 10.
Proof.
  intros Hnd Hin. split_and!; try done.
  - by rewrite compute_dependency_bonus_lookup, occurrences_listing_tasks.
  - intros n Hn. unfold bonus_of_count.
    destruct (Z.eqb_spec n 0), (Z.eqb_spec n 1), (Z.leb_spec n 3); lia.
Qed.

Lemma C7_bonus_by_listing_tasks_witness :
  compute_dependency_bonus sample_batch !! get_id task_A
  = Some (bonus_of_count (listing_tasks sample_batch (get_id task_A)))
  ∧ bonus_of_count 0 = 0 ∧ bonus_of_count 1 = 3
  ∧ bonus_of_count 2 = 6 ∧ bonus_of_count 3 = 6
  ∧ ∀ n, 4 ≤ n → bonus_of_count n = 10.
Proof.
  apply (C7_bonus_by_listing_tasks sample_batch task_A).
  - intros t' Ht.
    repeat (apply elem_of_cons in Ht as [->|Ht];
            [vm_compute; repeat constructor; set_solver|]).
    by apply elem_of_nil in Ht.
  - set_solver.
Defined.

(** ** Importance *)

(** Whenever the conversion to an integer does not overflow, the rating is
    the converted value, or 5 when there is none, clamped to [1, 10]. *)
Lemma normalize_importance_spec (v : pyval) :
  Py.int v ≠ Raise OverflowError →
  normalize_importance v
  = Ok (clamp_rating (match Py.int v with Ok n => n | _ => 5 end)).
Proof.
  unfold normalize_importance, clamp_rating.
  assert (Py.int v ≠ OutOfFuel ∧ Py.int v ≠ Raise KeyError) as [H1 H2].
  { destruct v as [| | |f|s| | |]; simpl; try done.
    - by destruct (Prim2SF f).
    - by destruct (Py.int_of_str s). }
  destruct (Py.int v) as [n|[]|]; try done; intros _; simpl.
  destruct (Z.ltb_spec n 1); [|done].
  by destruct (Z.gtb_spec 1 10).
Qed.

Lemma normalize_importance_examples :
  normalize_importance (VInt 0) = Ok 1
  ∧ normalize_importance (VInt 15) = Ok 10
  ∧ normalize_importance (VStr "abc") = Ok 5
  ∧ normalize_importance VNone = Ok 5.
Proof. vm_compute. done. Qed.

(** C8 fails on the code: an infinite rating is not caught by the
    [except (TypeError, ValueError)] clause. *)
Theorem C8_infinite_rating_raises :
  normalize_importance (VFloat infinity) = Raise OverflowError
  ∧ score_tasks_at sample_today [infinite_rating_task] "smart_balance"
    = Raise OverflowError.
Proof. split; vm_compute; reflexivity. Qed.

(** ** Cycle detection *)

Lemma on_cycle_key (tbi : list (ident * task)) (R : relation ident) (u w : ident) :
  (∀ a b, R a b → depends_on tbi a b) → tc R u w → u ∈ od_keys tbi.
Proof.
  intros HR Htc.
  assert (∃ y, depends_on tbi u y) as [y Hy].
  { destruct Htc as [x y Hxy|x y z Hxy _]; eauto. }
  unfold depends_on, task_deps in Hy. apply od_get_is_Some.
  destruct (od_get tbi u); [done|]. simpl in Hy. by apply elem_of_nil in Hy.
Qed.

Lemma finishing_order_descends (tbi : list (ident * task)) (cycles : gset ident)
    (L : list ident) (u w : ident) :
  (∀ i u, L !! i = Some u → u ∉ cycles →
     ∀ v, v ∈ task_deps tbi u → ∃ j, (j < i)%nat ∧ L !! j = Some v) →
  tc (λ a b, depends_on tbi a b ∧ a ∉ cycles) u w →
  ∀ i, L !! i = Some u → ∃ j, (j < i)%nat ∧ L !! j = Some w.
Proof.
  intros Hord Htc. induction Htc as [x y [Hxy Hx]|x y z [Hxy Hx] _ IH]; intros i Hi.
  - by apply (Hord i x).
  - destruct (Hord i x Hi Hx y Hxy) as (j & Hj & Hjy).
    destruct (IH j Hjy) as (j' & Hj' & Hjz). exists j'. split; [lia|done].
Qed.

Lemma unmarked_acyclic (tbi : list (ident * task)) (cycles : gset ident)
    (L : list ident) (u : ident) :
  (∀ tid, tid ∈ od_keys tbi → tid ∈ L) →
  (∀ i u, L !! i = Some u → u ∉ cycles →
     ∀ v, v ∈ task_deps tbi u → ∃ j, (j < i)%nat ∧ L !! j = Some v) →
  ¬ tc (λ a b, depends_on tbi a b ∧ a ∉ cycles) u u.
Proof.
  intros HL Hord Htc.
  assert (u ∈ L) as [i Hi]%list_elem_of_lookup.
  { apply HL. eapply on_cycle_key; [|exact Htc]. by intros a b [? _]. }
  induction (lt_wf i) as [i _ IH].
  destruct (finishing_order_descends tbi cycles L u u Hord Htc i Hi) as (j & Hj & Hju).
  by apply (IH j).
Qed.




(** Every identifier of the cycle set reaches itself through at least one
    dependency. *)
Lemma detect_cycles_sound (tasks_by_id : list (ident * task)) (cycles : gset ident)
    (tid : ident) :
  detect_cycles tasks_by_id = Ok cycles → tid ∈ cycles → on_cycle tasks_by_id tid.
Proof.
  intros Hrun. destruct (detect_cycles_spec tasks_by_id) as (cycles' & _ & Hrun' & Hs & _).
  rewrite Hrun in Hrun'. injection Hrun' as <-. apply Hs.
Qed.

(** The converse fails: a node of a cycle that is only reached again when
    it is black stays unmarked.  Here B is visited after C was finished. *)
Example cycle_member_can_stay_unmarked :
  detect_cycles (index_by_id task_id acb_batch) = Ok {[IdStr "A"; IdStr "C"]}
  ∧ on_cycle (index_by_id task_id acb_batch) (IdStr "B").
Proof.
  split; [vm_compute; reflexivity|].
  apply (tc_l _ _ (IdStr "C")); [vm_compute; set_solver|].
  apply (tc_l _ _ (IdStr "A")); [vm_compute; set_solver|].
  apply tc_once. vm_compute. set_solver.
Qed.



(** ** Request handlers *)

(** The full-analysis view refuses every payload that is not a list, with
    status 400 and without calling the engine. *)
Lemma analyze_rejects_non_list (clock : nat → Z) (strategy : option string)
    (p : payload) (k : nat) :
  is_list p = false →
  AnalyzeTasksView_post clock (Request strategy (Some p)) k
  = Outcome (Response HTTP_400_BAD_REQUEST (ErrorBody "tasks must be a list")) [] k.
Proof.
  intros Hp. unfold AnalyzeTasksView_post. simpl. by rewrite Hp.
Qed.

(** The suggestion view never answers with a client error. *)
Lemma suggest_never_rejects (clock : nat → Z) (req : request) (k : nat) (b : body) :
  out_reply (SuggestTasksView_post clock req k) ≠ Response HTTP_400_BAD_REQUEST b.
Proof.
  unfold SuggestTasksView_post, score_and_reply.
  destruct (py_iter _ ≫= normalize_from 0) as [normalized| |]; simpl; try done.
  destruct (score_tasks _ _ _ _) as [[scored k']| |]; simpl; done.
Qed.

(** C5 fails on the code: the suggestion view has no list check.  An empty
    JSON object, or an empty string, is iterated as if it were an empty
    list, the engine is called and the reply is a success. *)
Theorem C5_suggest_accepts_non_list (clock : nat → Z) (k : nat) :
  SuggestTasksView_post clock (Request None (Some (PObject []))) k
  = Outcome (Response HTTP_200_OK (TasksBody "smart_balance" [])) [[]] k
  ∧ SuggestTasksView_post clock (Request None (Some (PString ""))) k
    = Outcome (Response HTTP_200_OK (TasksBody "smart_balance" [])) [[]] k
  ∧ SuggestTasksView_post clock (Request None (Some PNull)) k
    = Outcome (Uncaught TypeError) [] k.
Proof. split_and!; vm_compute; reflexivity. Qed.

(** ** The modelled engine never stops short *)

Lemma score_loop_raises (clock : nat → Z) (w : weights) (cycles : gset ident)
    (db : gmap ident Z) (tasks : list task) (k : nat) :
  match score_loop clock w cycles db tasks k with
  | Ok _ => True
  | Raise e => e = OverflowError
  | OutOfFuel => False
  end.
Proof.
  revert k. induction tasks as [|t tasks IH]; intros k; simpl; [done|].
  destruct (compute_urgency_score clock (due_date t) k) as [u k1].
  unfold score_task.
  assert (∀ v, match Py.int v with
               | Raise KeyError | OutOfFuel => False | _ => True end) as Hint.
  { intros [| | |f|s| | |]; simpl; try done.
    - by destruct (Prim2SF f).
    - by destruct (Py.int_of_str s). }
  assert (∀ v, match Py.float v with
               | Raise KeyError | OutOfFuel => False | _ => True end) as Hfl.
  { intros [|[]|n|f|s| | |]; simpl; try done.
    - by destruct (is_infinity _).
    - by destruct (Py.float_of_str s). }
  unfold normalize_importance. specialize (Hint (importance t)).
  destruct (Py.int (importance t)) as [n|[]|]; simpl; try done;
    (unfold compute_effort_score; specialize (Hfl (estimated_hours t));
     destruct (Py.float (estimated_hours t)) as [h|[]|]; simpl; try done;
     repeat match goal with |- context [if ?b then Ok _ else _] => destruct b end;
     simpl; specialize (IH k1);
     destruct (score_loop clock w cycles db tasks k1) as [[??]|e|]; simpl; done).
Qed.

(** With the recursion bound left out, [score_tasks] returns, or raises
    the [OverflowError] of a conversion. *)
Lemma score_tasks_outcome (clock : nat → Z) (tasks : list task) (strategy : string)
    (k : nat) :
  (∃ out k', score_tasks clock tasks strategy k = Ok (out, k'))
  ∨ score_tasks clock tasks strategy k = Raise OverflowError.
Proof.
  unfold score_tasks.
  destruct (detect_cycles_total (index_by_id task_id tasks)) as [cycles ->]. simpl.
  pose proof (score_loop_raises clock (strategy_weights strategy) cycles
                (compute_dependency_bonus tasks) tasks k) as Hloop.
  destruct (score_loop _ _ _ _ _ _) as [[scored k']|e|]; simpl; [|right; by subst|done].
  destruct (order_tasks_spec (index_by_id task_id tasks) cycles scored)
    as (? & ? & ? & out & -> & _). simpl. left. by eexists _, _.
Qed.
(** * Further properties *)

(** ** Which inputs make the engine raise *)

Lemma normalize_importance_cases (v : pyval) :
  if infinite_rating v then normalize_importance v = Raise OverflowError
  else ∃ imp, normalize_importance v = Ok imp.
Proof.
  unfold normalize_importance, infinite_rating.
  destruct v as [|b|n|f|s| | |]; simpl; eauto.
  - destruct (Prim2SF f); simpl; eauto.
  - destruct (Py.int_of_str s); simpl; eauto.
Qed.

Lemma compute_effort_score_cases (v : pyval) :
  if oversized_hours v then compute_effort_score v = Raise OverflowError
  else ∃ eff, compute_effort_score v = Ok eff.
Proof.
  unfold compute_effort_score, oversized_hours.
  destruct v as [|b|n|f|s| | |]; simpl; eauto.
  - repeat case_match; eauto.
  - destruct (is_infinity (Py.Z_to_float n)); [done|]. repeat case_match; eauto.
  - repeat case_match; eauto.
  - destruct (Py.float_of_str s); repeat case_match; eauto.
Qed.

(** X1: [normalize_importance] raises for the infinite doubles, with
    [OverflowError], and for nothing else; every other rating gives a
    value between 0.1 and 1.0. *)
Theorem normalize_importance_outcome (v : pyval) :
  match normalize_importance v with
  | Ok imp => infinite_rating v = false ∧ 1 ≤ imp ≤ 10
  | Raise e => e = OverflowError ∧ infinite_rating v = true
  | OutOfFuel => False
  end.
Proof.
  pose proof (normalize_importance_range v) as Hrange.
  pose proof (normalize_importance_cases v) as Hcases.
  destruct (infinite_rating v).
  - by rewrite Hcases.
  - destruct Hcases as [imp Himp]. rewrite Himp. auto.
Qed.

(** X2: [compute_effort_score] raises for an integer too large for a double,
    with [OverflowError], and for nothing else; every other value gives
    one of the five effort levels. *)
Theorem compute_effort_score_outcome (v : pyval) :
  match compute_effort_score v with
  | Ok eff => oversized_hours v = false ∧ eff ∈ [5; 10; 7; 4; 2]
  | Raise e => e = OverflowError ∧ oversized_hours v = true
  | OutOfFuel => False
  end.
Proof.
  pose proof (compute_effort_score_levels v) as Hlev.
  pose proof (compute_effort_score_cases v) as Hcases.
  destruct (oversized_hours v).
  - by rewrite Hcases.
  - destruct Hcases as [eff Heff]. rewrite Heff. auto.
Qed.







(** ** What the cycle set contains *)

Lemma no_marks_acyclic (tbi : list (ident * task)) (u : ident) :
  detect_cycles tbi = Ok ∅ → ¬ on_cycle tbi u.
Proof.
  intros Hrun Hu.
  destruct (detect_cycles_spec tbi) as (cycles & L & Hrun' & _ & HL & Hord).
  rewrite Hrun in Hrun'. injection Hrun' as <-.
  apply (unmarked_acyclic tbi ∅ L u HL Hord).
  eapply tc_subrel; [|exact Hu]. intros a b Hab. split; [done|].
  by intros ?%elem_of_empty.
Qed.

(** X4: [detect_cycles] never flags a task wrongly: every identifier of the
    set it returns is a key of [tasks_by_id] that reaches itself through
    one or more dependencies.  For a batch without dependency cycles the
    set returned is empty. *)
Theorem detect_cycles_marks_only_cycle_members (tasks_by_id : list (ident * task))
    (cycles : gset ident) :
  detect_cycles tasks_by_id = Ok cycles →
  (∀ tid, tid ∈ cycles → tid ∈ od_keys tasks_by_id ∧ on_cycle tasks_by_id tid)
  ∧ ((∀ u, ¬ on_cycle tasks_by_id u) → cycles = ∅).
Proof.
  intros Hrun.
  destruct (detect_cycles_spec tasks_by_id) as (cycles' & L & Hrun' & Hsound & _).
  rewrite Hrun in Hrun'. injection Hrun' as <-.
  split.
  - intros tid Htid. split; [|by apply Hsound].
    eapply on_cycle_key; [|by apply Hsound]. done.
  - intros Hacyclic. apply set_eq. intros tid. split; [|by intros ?%elem_of_empty].
    intros Htid. by destruct (Hacyclic tid); apply Hsound.
Qed.

Lemma detect_cycles_marks_only_cycle_members_witness :
  (∀ tid, tid ∈ ({[IdStr "A"; IdStr "B"; IdStr "C"]} : gset ident) →
     tid ∈ od_keys (index_by_id task_id abc_batch)
     ∧ on_cycle (index_by_id task_id abc_batch) tid)
  ∧ ((∀ u, ¬ on_cycle (index_by_id task_id abc_batch) u) →
     ({[IdStr "A"; IdStr "B"; IdStr "C"]} : gset ident) = ∅).
Proof.
  apply (detect_cycles_marks_only_cycle_members (index_by_id task_id abc_batch)
           {[IdStr "A"; IdStr "B"; IdStr "C"]}).
  vm_compute. reflexivity.
Defined.

(** X5: [detect_cycles] misses no cycle entirely: no dependency cycle is made
    of tasks left out of the set it returns.  In particular a task that
    lists itself is flagged, and the set is not empty when some task lies
    on a cycle. *)
Theorem detect_cycles_marks_every_cycle (tasks_by_id : list (ident * task))
    (cycles : gset ident) :
  detect_cycles tasks_by_id = Ok cycles →
  (∀ u, ¬ tc (λ a b, depends_on tasks_by_id a b ∧ a ∉ cycles) u u)
  ∧ (∀ u, depends_on tasks_by_id u u → u ∈ cycles)
  ∧ (∀ u, on_cycle tasks_by_id u → cycles ≠ ∅).
Proof.
  intros Hrun.
  destruct (detect_cycles_spec tasks_by_id) as (cycles' & L & Hrun' & _ & HL & Hord).
  rewrite Hrun in Hrun'. injection Hrun' as <-.
  pose proof (λ u, unmarked_acyclic tasks_by_id cycles L u HL Hord) as Hacyclic.
  split_and!; [done| |].
  - intros u Hu. destruct (decide (u ∈ cycles)) as [|Hno]; [done|].
    destruct (Hacyclic u). by apply tc_once.
  - intros u Hu ->. by apply (no_marks_acyclic tasks_by_id u).
Qed.

Lemma detect_cycles_marks_every_cycle_witness :
  (∀ u, ¬ tc (λ a b, depends_on (index_by_id task_id acb_batch) a b
                     ∧ a ∉ ({[IdStr "A"; IdStr "C"]} : gset ident)) u u)
  ∧ (∀ u, depends_on (index_by_id task_id acb_batch) u u →
          u ∈ ({[IdStr "A"; IdStr "C"]} : gset ident))
  ∧ (∀ u, on_cycle (index_by_id task_id acb_batch) u →
          ({[IdStr "A"; IdStr "C"]} : gset ident) ≠ ∅).
Proof.
  apply (detect_cycles_marks_every_cycle (index_by_id task_id acb_batch)
           {[IdStr "A"; IdStr "C"]}).
  vm_compute. reflexivity.
Defined.

(** ** Urgency and the clock *)

(** X6: For two due dates that parse, read against the same day, the earlier
    one is at least as urgent as the later one; and a task without a
    usable due date (0.3) ranks between a task due in more than fourteen
    days (0.2) and one due within fourteen days (0.4 or more). *)
Theorem urgency_antitone_in_due_date (clock : nat → Z) (v1 v2 v3 : pyval)
    (d1 d2 : Z) (k : nat) :
  _parse_due_date v1 = Some d1 → _parse_due_date v2 = Some d2 → d1 ≤ d2 →
  _parse_due_date v3 = None →
  let u1 := (compute_urgency_score clock v1 k).1 in
  let u2 := (compute_urgency_score clock v2 k).1 in
  let u3 := (compute_urgency_score clock v3 k).1 in
  u2 ≤ u1
  ∧ (d1 - clock k ≤ 14 → u3 < u1)
  ∧ (14 < d2 - clock k → u2 < u3).
Proof.
  intros H1 H2 Hle H3. unfold compute_urgency_score. rewrite H1, H2, H3. simpl.
  repeat match goal with
         | |- context [?a <? ?b] => destruct (Z.ltb_spec a b)
         | |- context [?a =? ?b] => destruct (Z.eqb_spec a b)
         | |- context [?a <=? ?b] => destruct (Z.leb_spec a b)
         end; lia.
Qed.

Lemma urgency_antitone_in_due_date_witness :
  let clock := λ _ : nat, sample_today in
  let u1 := (compute_urgency_score clock (VStr "2024-03-04") 0).1 in
  let u2 := (compute_urgency_score clock (VDate (sample_today + 30)) 0).1 in
  let u3 := (compute_urgency_score clock (VStr "next week") 0).1 in
  u2 ≤ u1
  ∧ (738949 - clock 0%nat ≤ 14 → u3 < u1)
  ∧ (14 < sample_today + 30 - clock 0%nat → u2 < u3).
Proof.
  apply (urgency_antitone_in_due_date (λ _, sample_today) (VStr "2024-03-04")
           (VDate (sample_today + 30)) (VStr "next week") 738949 (sample_today + 30) 0).
  - vm_compute. reflexivity.
  - reflexivity.
  - vm_compute. discriminate.
  - vm_compute. reflexivity.
Defined.

Lemma dated_parse (t : task) :
  dated t = true ↔ is_Some (_parse_due_date (due_date t)).
Proof. unfold dated. apply bool_decide_eq_true. Qed.

Lemma urgency_reads (clock : nat → Z) (t : task) (k : nat) :
  (compute_urgency_score clock (due_date t) k).2
  = (k + length (filter (λ t, dated t = true) [t]))%nat.
Proof.
  unfold compute_urgency_score.
  destruct (_parse_due_date (due_date t)) as [d|] eqn:Hd; simpl.
  - rewrite filter_cons_True by (apply dated_parse; rewrite Hd; eauto). simpl. lia.
  - rewrite filter_cons_False; [simpl; lia|].
    rewrite dated_parse, Hd. by intros [? ?].
Qed.

Lemma score_loop_reads (clock : nat → Z) (w : weights) (cycles : gset ident)
    (db : gmap ident Z) (tasks : list task) (k k' : nat) (scored : list scored_task) :
  score_loop clock w cycles db tasks k = Ok (scored, k') →
  k' = (k + length (filter (λ t, dated t = true) tasks))%nat.
Proof.
  revert k scored. induction tasks as [|t tasks IH]; intros k scored; simpl.
  - intros [= <- <-]. lia.
  - pose proof (urgency_reads clock t k) as Hread.
    destruct (compute_urgency_score clock (due_date t) k) as [u k1]. simpl in Hread.
    destruct (score_task _ _ _ _ t); simpl; try done.
    destruct (score_loop _ _ _ _ tasks k1) as [[sc k2]| |] eqn:Hrest; simpl; try done.
    intros [= <- <-]. apply IH in Hrest.
    change (t :: tasks) with ([t] ++ tasks). rewrite filter_app, length_app. lia.
Qed.

Lemma score_loop_window (clock1 clock2 : nat → Z) (w : weights) (cycles : gset ident)
    (db : gmap ident Z) (tasks : list task) (k : nat) :
  (∀ j, (k ≤ j < k + length (filter (λ t, dated t = true) tasks))%nat →
        clock1 j = clock2 j) →
  score_loop clock1 w cycles db tasks k = score_loop clock2 w cycles db tasks k.
Proof.
  revert k. induction tasks as [|t tasks IH]; intros k Hclock; simpl; [done|].
  change (t :: tasks) with ([t] ++ tasks) in Hclock.
  rewrite filter_app, length_app in Hclock.
  pose proof (urgency_reads clock1 t k) as Hread.
  unfold compute_urgency_score in *.
  destruct (_parse_due_date (due_date t)) as [d|] eqn:Hd; simpl in Hread.
  - rewrite (Hclock k) by lia.
    rewrite (IH (S k)); [done|]. intros j Hj. apply Hclock. lia.
  - rewrite (IH k); [done|]. intros j Hj. apply Hclock. lia.
Qed.

(** X7: A successful call of [score_tasks] reads the clock once for every task
    whose due date parses, and not at all for the others; its result is
    the same under any two clocks that agree on those reads. *)
Theorem score_tasks_reads_clock_per_dated_task (clock : nat → Z) (tasks : list task)
    (strategy : string) (k k' : nat) (out : list scored_task) :
  score_tasks clock tasks strategy k = Ok (out, k') →
  k' = (k + length (filter (λ t, dated t = true) tasks))%nat
  ∧ ∀ clock2 : nat → Z,
      (∀ j, (k ≤ j < k')%nat → clock2 j = clock j) →
      score_tasks clock2 tasks strategy k = Ok (out, k').
Proof.
  intros Hrun.
  destruct (score_tasks_Ok _ _ _ _ _ _ Hrun) as (cycles & scored & Hc & Hloop & Hord).
  pose proof (score_loop_reads _ _ _ _ _ _ _ _ Hloop) as Hk. split; [done|].
  intros clock2 Hclock. unfold score_tasks. rewrite Hc. simpl.
  rewrite (score_loop_window clock2 clock).
  - rewrite Hloop. simpl. by rewrite Hord.
  - intros j Hj. apply Hclock. lia.
Qed.

Lemma score_tasks_reads_clock_per_dated_task_witness :
  2%nat = (0 + length (filter (λ t, dated t = true) [task_A; task_B; task_X]))%nat
  ∧ ∀ clock2 : nat → Z,
      (∀ j, (0 ≤ j < 2)%nat → clock2 j = sample_today) →
      score_tasks clock2 [task_A; task_B; task_X] "smart_balance" 0
      = Ok ([Scored task_A 430 "Quick win; Unblocks other tasks";
             Scored task_B 780 "Due very soon; Very important; Quick win";
             Scored task_X 135 "Large effort task"], 2%nat).
Proof.
  apply (score_tasks_reads_clock_per_dated_task (λ _, sample_today)
           [task_A; task_B; task_X] "smart_balance" 0 2).
  vm_compute. reflexivity.
Defined.

(** ** Which strings are due dates *)

Lemma split_dash_app (l a b : list ascii) :
  Py.split_dash l = (a, Some b) → l = a ++ "-"%char :: b.
Proof.
  revert a. induction l as [|c l IH]; intros a; simpl; [done|].
  case_bool_decide as Hc.
  - intros [= <- <-]. by subst.
  - destruct (Py.split_dash l) as [a' b'] eqn:Hs. intros [= <- ->].
    simpl. f_equal. by apply IH.
Qed.

Lemma small_number_length (hi : Z) (tok : list ascii) (v : Z) :
  Py.small_number hi tok = Some v → (1 ≤ length tok ≤ 2)%nat ∧ 1 ≤ v ≤ hi.
Proof.
  unfold Py.small_number. case_match eqn:Hc; [|done]. intros [= <-].
  rewrite !andb_true_iff, !Z.leb_le, bool_decide_eq_true in Hc. naive_solver.
Qed.

Lemma day_number_length (tok : list ascii) (v : Z) :
  Py.day_number tok = Some v → (1 ≤ length tok ≤ 2)%nat ∧ 1 ≤ v ≤ 31.
Proof.
  unfold Py.day_number.
  destruct tok as [|c [|d [|e tok]]]; try apply small_number_length.
  case_bool_decide; [|apply small_number_length].
  intros [_ ?]%small_number_length. simpl. lia.
Qed.

Lemma day_of_year_bound (y m d : Z) :
  1 ≤ m ≤ 12 → 1 ≤ d ≤ Py.days_in_month y m →
  1 ≤ Py.days_before_month y m + d ≤ (if Py.is_leap y then 366 else 365).
Proof.
  intros Hm.
  assert (m = 1 ∨ m = 2 ∨ m = 3 ∨ m = 4 ∨ m = 5 ∨ m = 6 ∨ m = 7 ∨ m = 8 ∨ m = 9
          ∨ m = 10 ∨ m = 11 ∨ m = 12) as Hcases by lia.
  unfold Py.days_before_month, Py.days_in_month.
  repeat (destruct Hcases as [->|Hcases]; [simpl; destruct (Py.is_leap y); lia|]).
  subst. simpl. destruct (Py.is_leap y); lia.
Qed.

Lemma make_date_range (y m d ordinal : Z) :
  Py.make_date y m d = Some ordinal → 1 ≤ ordinal ≤ 3652059.
Proof.
  unfold Py.make_date. case_match eqn:Hc; [|done]. intros [= <-].
  rewrite !andb_true_iff, !Z.leb_le in Hc.
  destruct Hc as (((((Hy1 & Hy2) & Hm1) & Hm2) & Hd1) & Hd2).
  pose proof (day_of_year_bound y m d ltac:(lia) ltac:(lia)) as Hday.
  unfold Py.days_before_year.
  destruct (decide (y = 9999)) as [->|Hy].
  - change (Py.is_leap 9999) with false in Hday.
    change ((9999 - 1) * 365 + (9999 - 1) / 4 - (9999 - 1) / 100 + (9999 - 1) / 400)
      with 3651694. lia.
  - assert (Py.days_before_month y m + d ≤ 366) by (destruct (Py.is_leap y); lia).
    Z.div_mod_to_equations. lia.
Qed.

(** X8: An ASCII string is taken as a due date only when it is a date written
    with a four-digit year, a month and a day separated by dashes and
    nothing else: it has between eight and ten characters, and the date
    read lies between 0001-01-01 and 9999-12-31.  Any longer ASCII string,
    such as a date followed by a time of day, counts as no due date and
    gets the neutral urgency 0.3 without a clock read.  (Strings with
    other characters are left out: Python also reads decimal digits
    outside ASCII.) *)
Theorem due_date_strings_hold_a_date_only (clock : nat → Z) (s : string) (k : nat) :
  ascii_only s = true →
  match _parse_due_date (VStr s) with
  | Some d => (8 ≤ String.length s ≤ 10)%nat ∧ 1 ≤ d ≤ 3652059
  | None => compute_urgency_score clock (VStr s) k = (3, k)
  end
  ∧ ((10 < String.length s)%nat → compute_urgency_score clock (VStr s) k = (3, k)).
Proof.
  intros _.
  assert (Hshape : ∀ d, _parse_due_date (VStr s) = Some d →
                        (8 ≤ String.length s ≤ 10)%nat ∧ 1 ≤ d ≤ 3652059).
  { intros d. unfold _parse_due_date. case_bool_decide; [done|].
    unfold Py.strptime_ymd.
    assert (String.length s = length (String.list_ascii_of_string s)) as ->.
    { clear. induction s as [|c s IH]; simpl; [done|]. by rewrite IH. }
    destruct (String.list_ascii_of_string s) as [|y1 [|y2 [|y3 [|y4 [|dash r]]]]]; try done.
    case_match; [|done].
    destruct (Py.split_dash r) as [mtok [dtok|]] eqn:Hsplit; [|done].
    apply split_dash_app in Hsplit as ->.
    destruct (Py.small_number 12 mtok) as [m|] eqn:Hm; [|done].
    destruct (Py.day_number dtok) as [dd|] eqn:Hd; [|done]. simpl.
    apply small_number_length in Hm as [Hm _].
    apply day_number_length in Hd as [Hd _].
    intros Hdate%make_date_range. split; [|done].
    simpl. rewrite length_app. simpl. lia. }
  split.
  - destruct (_parse_due_date (VStr s)) as [d|] eqn:Hparse; [by apply Hshape|].
    unfold compute_urgency_score. by rewrite Hparse.
  - intros Hlong. unfold compute_urgency_score.
    destruct (_parse_due_date (VStr s)) as [d|] eqn:Hparse; [|done].
    destruct (Hshape d eq_refl) as [? _]. lia.
Qed.

Lemma due_date_strings_hold_a_date_only_witness :
  ((8 ≤ String.length "2024-3-1" ≤ 10)%nat ∧ 1 ≤ 738946 ≤ 3652059)
  ∧ ((10 < String.length "2024-3-1")%nat →
     compute_urgency_score (λ _, sample_today) (VStr "2024-3-1") 0 = (3, 0%nat)).
Proof.
  apply (due_date_strings_hold_a_date_only (λ _, sample_today) "2024-3-1" 0%nat).
  vm_compute. reflexivity.
Defined.

(** ** The dependency bonus of a batch *)

Lemma compute_dependency_bonus_None (tasks : list task) (tid : ident) :
  tid ∉ get_id <$> tasks → compute_dependency_bonus tasks !! tid = None.
Proof.
  unfold compute_dependency_bonus. generalize (count_dependents tasks). intros dc.
  induction tasks as [|t tasks IH] using rev_ind; intros Hno; [done|].
  rewrite foldl_app. simpl. rewrite fmap_app in Hno.
  rewrite lookup_insert_ne by set_solver. apply IH. set_solver.
Qed.

Lemma occurrences_app (tid : ident) (l1 l2 : list ident) :
  occurrences tid (l1 ++ l2) = occurrences tid l1 + occurrences tid l2.
Proof. unfold occurrences. rewrite filter_app, length_app. lia. Qed.

Lemma occurrences_perm (tid : ident) (l1 l2 : list ident) :
  l1 ≡ₚ l2 → occurrences tid l1 = occurrences tid l2.
Proof. intros Hp. unfold occurrences. by rewrite Hp. Qed.

Lemma bonus_of_count_mono (n m : Z) :
  0 ≤ n → n ≤ m → bonus_of_count n ≤ bonus_of_count m.
Proof.
  intros Hn Hnm. unfold bonus_of_count.
  repeat match goal with
         | |- context [?a =? ?b] => destruct (Z.eqb_spec a b)
         | |- context [?a <=? ?b] => destruct (Z.leb_spec a b)
         end; lia.
Qed.

Lemma compute_dependency_bonus_lookup_id (tasks : list task) (tid : ident) :
  compute_dependency_bonus tasks !! tid =
  if decide (tid ∈ get_id <$> tasks)
  then Some (bonus_of_count (occurrences tid (tasks ≫= deps_of)))
  else None.
Proof.
  case_decide as Hin.
  - apply list_elem_of_fmap in Hin as (t & -> & Ht).
    by apply compute_dependency_bonus_lookup.
  - by apply compute_dependency_bonus_None.
Qed.

(** X9: The dictionary returned by [compute_dependency_bonus] has one entry
    for each identifier carried by a task of the batch ([None] for a task
    without one) and no other; the entry is given by the number of times
    the identifier is written in the dependency lists of the batch, every
    repetition counted, whether or not the listing task is the task
    itself. *)
Theorem compute_dependency_bonus_entries (tasks : list task) (tid : ident) :
  compute_dependency_bonus tasks !! tid =
  (if decide (tid ∈ get_id <$> tasks)
   then Some (bonus_of_count (occurrences tid (tasks ≫= deps_of)))
   else None)
  ∧ (tid ∈ tasks ≫= deps_of ↔ 0 < occurrences tid (tasks ≫= deps_of)).
Proof.
  split; [apply compute_dependency_bonus_lookup_id|].
  split; [|apply occurrences_pos].
  intros Hin. unfold occurrences.
  assert (tid ∈ filter (λ y, y = tid) (tasks ≫= deps_of)) as Hf
    by by apply list_elem_of_filter.
  destruct (filter _ _); [by apply elem_of_nil in Hf|simpl; lia].
Qed.

Lemma compute_dependency_bonus_perm (tasks tasks' : list task) :
  tasks' ≡ₚ tasks → compute_dependency_bonus tasks' = compute_dependency_bonus tasks.
Proof.
  intros Hperm. apply map_eq. intros tid.
  rewrite !compute_dependency_bonus_lookup_id.
  rewrite (occurrences_perm tid (tasks' ≫= deps_of) (tasks ≫= deps_of))
    by by rewrite Hperm.
  assert (tid ∈ get_id <$> tasks' ↔ tid ∈ get_id <$> tasks) as Hids by by rewrite Hperm.
  repeat case_decide; try done; exfalso; naive_solver.
Qed.

(** X10: The bonus does not depend on the order of the batch, and adding tasks
    to a batch never lowers the bonus of a task already in it. *)
Theorem compute_dependency_bonus_grows_with_batch (tasks more tasks' : list task) :
  tasks' ≡ₚ tasks ++ more →
  (more = [] → compute_dependency_bonus tasks' = compute_dependency_bonus tasks)
  ∧ ∀ tid b, compute_dependency_bonus tasks !! tid = Some b →
      ∃ b', compute_dependency_bonus tasks' !! tid = Some b' ∧ b ≤ b'.
Proof.
  intros Hperm. split.
  - intros ->. rewrite app_nil_r in Hperm. by apply compute_dependency_bonus_perm.
  - intros tid b.
    rewrite (compute_dependency_bonus_perm (tasks ++ more) tasks' Hperm).
    rewrite !compute_dependency_bonus_lookup_id.
    case_decide as Hin; [|done]. intros [= <-].
    rewrite decide_True by (rewrite fmap_app; set_solver).
    eexists. split; [done|]. rewrite bind_app, occurrences_app.
    pose proof (occurrences_nonneg tid (tasks ≫= deps_of)).
    pose proof (occurrences_nonneg tid (more ≫= deps_of)).
    apply bonus_of_count_mono; lia.
Qed.

Lemma compute_dependency_bonus_grows_with_batch_witness :
  (([] : list task) = [] → compute_dependency_bonus [task_B; task_A]
             = compute_dependency_bonus [task_A; task_B])
  ∧ ∀ tid b, compute_dependency_bonus [task_A; task_B] !! tid = Some b →
      ∃ b', compute_dependency_bonus [task_B; task_A] !! tid = Some b' ∧ b ≤ b'.
Proof.
  apply (compute_dependency_bonus_grows_with_batch [task_A; task_B] [] [task_B; task_A]).
  simpl. apply perm_swap.
Defined.

(** ** Which records a call returns *)

Lemma index_by_id_last {A : Type} (id_of : A → option ident) (l : list A) (k : ident) :
  od_get (index_by_id id_of l) k = last (filter (λ x, id_of x = Some k) l).
Proof.
  induction l as [|x l IH] using rev_ind; [done|].
  rewrite index_by_id_snoc, filter_app.
  destruct (id_of x) as [tid|] eqn:Hx.
  - destruct (decide (tid = k)) as [->|Hne].
    + rewrite od_get_set_eq.
      rewrite (filter_cons_True _ x []) by done. by rewrite filter_nil, last_snoc.
    + rewrite od_get_set_ne by done.
      rewrite (filter_cons_False _ x []) by congruence.
      by rewrite filter_nil, app_nil_r.
  - rewrite (filter_cons_False _ x []) by congruence.
    by rewrite filter_nil, app_nil_r.
Qed.

(** X11: A successful call returns exactly one record for every identifier
    carried by some task of the batch, and nothing else: the identifiers
    of the output are pairwise distinct and are those of the input; when
    several tasks carry the same identifier the record returned is the
    one of the last of them, and tasks without an identifier give no
    record. *)
Theorem score_tasks_one_record_per_identifier (clock : nat → Z) (tasks : list task)
    (strategy : string) (k k' : nat) (out : list scored_task) :
  score_tasks clock tasks strategy k = Ok (out, k') →
  NoDup (sid <$> out)
  ∧ (∀ tid, tid ∈ sid <$> out ↔ tid ∈ omap task_id tasks)
  ∧ (∀ s, s ∈ out →
       task_id (s_task s) = Some (sid s)
       ∧ last (filter (λ t, task_id t = Some (sid s)) tasks) = Some (s_task s))
  ∧ length out = size (list_to_set (omap task_id tasks) : gset ident).
Proof.
  intros Hrun.
  destruct (score_tasks_layout _ _ _ _ _ _ Hrun)
    as (cycles & scored & o & l & c & _ & _ & _ & _ & Hperm & _ & Hget & _).
  assert (Hnd : NoDup (sid <$> out)).
  { rewrite Hperm. apply index_by_id_NoDup. }
  assert (Hmem : ∀ tid, tid ∈ sid <$> out ↔ tid ∈ omap task_id tasks).
  { intros tid. rewrite Hperm, index_by_id_keys, list_elem_of_omap. done. }
  split_and!; [done|done| |].
  - intros s Hin. specialize (Hget s Hin).
    split; [by apply index_by_id_elem in Hget as [_ ?]|].
    by rewrite <- index_by_id_last.
  - rewrite <- (length_fmap sid out), <- (size_list_to_set (C := gset ident)) by done.
    f_equal. apply set_eq. intros tid. rewrite !elem_of_list_to_set. apply Hmem.
Qed.

Lemma score_tasks_one_record_per_identifier_witness :
  let out := [Scored task_A_bis 385 "Quick win"] in
  let tasks := [task_A; untracked_task; task_A_bis] in
  NoDup (sid <$> out)
  ∧ (∀ tid, tid ∈ sid <$> out ↔ tid ∈ omap task_id tasks)
  ∧ (∀ s, s ∈ out →
       task_id (s_task s) = Some (sid s)
       ∧ last (filter (λ t, task_id t = Some (sid s)) tasks) = Some (s_task s))
  ∧ length out = size (list_to_set (omap task_id tasks) : gset ident).
Proof.
  apply (score_tasks_one_record_per_identifier (λ _, sample_today)
           [task_A; untracked_task; task_A_bis] "smart_balance" 0 0).
  vm_compute. reflexivity.
Defined.

(** ** Batches without inner dependencies: a stable sort *)

Lemma tc_last_step {A : Type} (R : relation A) (x y : A) :
  tc R x y → ∃ z, R z y.
Proof. induction 1 as [x y Hxy|x y z _ _ IH]; eauto. Qed.

Lemma task_deps_listed (tasks : list task) (u d : ident) :
  d ∈ task_deps (index_by_id task_id tasks) u →
  ∃ t, t ∈ tasks ∧ task_id t = Some u ∧ d ∈ deps_of t.
Proof.
  unfold task_deps.
  destruct (od_get (index_by_id task_id tasks) u) as [t|] eqn:Hu;
    [|by intros ?%elem_of_nil].
  apply index_by_id_elem in Hu as [Hin Hid]. simpl. eauto.
Qed.

Lemma StronglySorted_weaken {A : Type} (R R' : relation A) (l : list A) :
  (∀ a b, R a b → R' a b) → StronglySorted R l → StronglySorted R' l.
Proof.
  intros HR. induction 1 as [|x l _ IH Hall]; constructor; [done|].
  eapply Forall_impl; [exact Hall|]. intros y. apply HR.
Qed.

Section first_max.
Context (key : ident → result Z) (kf : ident → Z).

(** [max] returns the first of the elements with the greatest key. *)
Lemma py_max_loop_first (r l1 l2 : list ident) (b : ident) :
  (∀ y, y ∈ r → key y = Ok (kf y)) →
  (∀ x, x ∈ l1 → kf x < kf b) → (∀ x, x ∈ l2 → kf x ≤ kf b) →
  ∃ b' l1' l2',
    foldM (λ '(best, kbest) y,
             ky ← key y;
             Ok (if kbest <? ky then (y, ky) else (best, kbest)))
          r (b, kf b) = Ok (b', kf b')
    ∧ l1 ++ b :: l2 ++ r = l1' ++ b' :: l2'
    ∧ (∀ x, x ∈ l1' → kf x < kf b') ∧ (∀ x, x ∈ l2' → kf x ≤ kf b').
Proof.
  revert l1 l2 b. induction r as [|y r IH]; intros l1 l2 b Hkey H1 H2; simpl.
  - exists b, l1, l2. by rewrite app_nil_r.
  - rewrite Hkey by left. simpl.
    destruct (Z.ltb_spec (kf b) (kf y)) as [Hlt|Hge].
    + destruct (IH (l1 ++ b :: l2) [] y) as (b' & l1' & l2' & -> & Heq & H1' & H2').
      * intros z Hz. apply Hkey. by right.
      * intros x [Hx|[->|Hx]%elem_of_cons]%elem_of_app; [|lia|].
        -- specialize (H1 x Hx). lia.
        -- specialize (H2 x Hx). lia.
      * by intros ? ?%elem_of_nil.
      * exists b', l1', l2'. split_and!; try done.
        rewrite <- Heq. simpl. by rewrite <- app_assoc.
    + destruct (IH l1 (l2 ++ [y]) b) as (b' & l1' & l2' & -> & Heq & H1' & H2').
      * intros z Hz. apply Hkey. by right.
      * done.
      * intros x [Hx|Hx%list_elem_of_singleton]%elem_of_app; [auto|subst; lia].
      * exists b', l1', l2'. split_and!; try done.
        rewrite <- Heq. by rewrite <- app_assoc.
Qed.

Lemma py_max_first (l : list ident) :
  l ≠ [] → (∀ x, x ∈ l → key x = Ok (kf x)) →
  ∃ b l1 l2,
    py_max key l = Ok b ∧ l = l1 ++ b :: l2
    ∧ (∀ x, x ∈ l1 → kf x < kf b) ∧ (∀ x, x ∈ l2 → kf x ≤ kf b).
Proof.
  destruct l as [|x r]; [done|]. intros _ Hkey. simpl.
  rewrite Hkey by left. simpl.
  destruct (py_max_loop_first r [] [] x) as (b & l1 & l2 & -> & Heq & H1 & H2).
  - intros y Hy. apply Hkey. by right.
  - by intros ? ?%elem_of_nil.
  - by intros ? ?%elem_of_nil.
  - by exists b, l1, l2.
Qed.

Lemma py_remove_first (b : ident) (l1 l2 : list ident) :
  b ∉ l1 → py_remove b (l1 ++ b :: l2) = Ok (l1 ++ l2).
Proof.
  induction l1 as [|y l1 IH]; intros Hno; simpl.
  - by rewrite decide_True.
  - rewrite decide_False by set_solver. rewrite IH by set_solver. done.
Qed.

Lemma sort_desc_keys (l : list ident) (p : Z * ident) :
  p ∈ foldr insert_desc [] ((λ x, (kf x, x)) <$> l) → p.1 = kf p.2 ∧ p.2 ∈ l.
Proof.
  rewrite sort_desc_perm. intros (x & -> & Hx)%list_elem_of_fmap. done.
Qed.

Lemma insert_desc_first (x : Z * ident) (l : list (Z * ident)) :
  (∀ p, p ∈ l → p.1 ≤ x.1) → insert_desc x l = x :: l.
Proof.
  destruct l as [|y l]; [done|]. intros Hle. simpl.
  destruct (Z.ltb_spec x.1 y.1) as [Hlt|]; [|done].
  specialize (Hle y ltac:(left)). lia.
Qed.

(** Sorting puts the first greatest element in front and sorts the rest. *)
Lemma sort_desc_first_max (l1 l2 : list ident) (b : ident) :
  (∀ x, x ∈ l1 → kf x < kf b) → (∀ x, x ∈ l2 → kf x ≤ kf b) →
  foldr insert_desc [] ((λ x, (kf x, x)) <$> l1 ++ b :: l2)
  = (kf b, b) :: foldr insert_desc [] ((λ x, (kf x, x)) <$> l1 ++ l2).
Proof.
  intros H1 H2. induction l1 as [|x l1 IH].
  - rewrite !app_nil_l, fmap_cons. cbn [foldr].
    apply insert_desc_first. intros p [Hp Hin]%sort_desc_keys. simpl.
    rewrite Hp. by apply H2.
  - rewrite <- !app_comm_cons, !fmap_cons. cbn [foldr].
    rewrite IH by (intros; apply H1; by right). simpl.
    destruct (Z.ltb_spec (kf x) (kf b)) as [|Hge]; [done|].
    specialize (H1 x ltac:(left)). lia.
Qed.

(** Without edges the selection loop is a stable sort by descending key. *)
Lemma kahn_no_edges (adj : gmap ident (list ident)) (fuel : nat)
    (ind : gmap ident Z) (av ord : list ident) :
  (∀ x, x ∈ av → key x = Ok (kf x)) →
  (∀ x, x ∈ av → default [] (adj !! x) = []) →
  (length av ≤ fuel)%nat →
  kahn fuel key adj ind av ord
  = Ok (ord ++ (foldr insert_desc [] ((λ x, (kf x, x)) <$> av)).*2).
Proof.
  revert av ord. induction fuel as [|fuel IH]; intros av ord Hkey Hadj Hlen.
  - destruct av; [|simpl in Hlen; lia]. simpl. by rewrite app_nil_r.
  - destruct (decide (av = [])) as [->|Hne]; [simpl; by rewrite app_nil_r|].
    destruct (py_max_first av) as (b & l1 & l2 & Hmax & Heq & H1 & H2); [done..|].
    assert (b ∉ l1) as Hb by (intros Hin; specialize (H1 b Hin); lia).
    rewrite kahn_unfold by done.
    rewrite Hmax. cbn [mbind result_bind].
    rewrite Heq at 1. rewrite (py_remove_first b l1 l2 Hb). cbn [mbind result_bind].
    rewrite Hadj by (rewrite Heq; set_solver).
    change (release [] (ind, l1 ++ l2)) with (Ok (ind, l1 ++ l2)).
    cbn [mbind result_bind].
    rewrite IH.
    + rewrite Heq, sort_desc_first_max by done. simpl. by rewrite <- app_assoc.
    + intros x Hx. apply Hkey. rewrite Heq. set_solver.
    + intros x Hx. apply Hadj. rewrite Heq. set_solver.
    + rewrite Heq in Hlen. rewrite length_app in *. simpl in *. lia.
Qed.

(** A stable sort keeps, among equal keys, the order of the list sorted. *)
Lemma sort_desc_stable (l : list ident) :
  StronglySorted
    (λ p q : Z * ident,
       q.1 ≤ p.1
       ∧ (p.1 = q.1 → ∃ i j, (i < j)%nat ∧ l !! i = Some p.2 ∧ l !! j = Some q.2))
    (foldr insert_desc [] ((λ x, (kf x, x)) <$> l)).
Proof.
  induction l as [|x l IH]; [constructor|].
  rewrite fmap_cons. cbn [foldr].
  set (S := foldr insert_desc [] ((λ x, (kf x, x)) <$> l)) in *.
  assert (Hin : ∀ p, p ∈ S → p.2 ∈ l) by (intros p Hp; by apply sort_desc_keys in Hp as [_ ?]).
  assert (Hlift : StronglySorted
    (λ p q : Z * ident,
       q.1 ≤ p.1
       ∧ (p.1 = q.1 → ∃ i j, (i < j)%nat ∧ (x :: l) !! i = Some p.2
                             ∧ (x :: l) !! j = Some q.2)) S).
  { eapply StronglySorted_weaken; [|exact IH].
    intros p q [Hle Htie]. split; [done|]. intros Heq.
    destruct (Htie Heq) as (i & j & Hij & Hi & Hj).
    exists (Datatypes.S i), (Datatypes.S j). split; [lia|done]. }
  clear IH. revert Hin. induction Hlift as [|y S' Hs IH Hall]; intros Hin; simpl.
  - repeat constructor.
  - destruct (Z.ltb_spec (kf x) y.1) as [Hlt|Hge].
    + constructor; [apply IH; intros p Hp; apply Hin; by right|].
      rewrite insert_desc_perm. constructor; [|done].
      simpl. split; [lia|]. intros Heq. lia.
    + constructor; [by constructor|].
      assert (Hx : ∀ q, q ∈ y :: S' → q.1 ≤ kf x ∧
                   (kf x = q.1 → ∃ i j, (i < j)%nat ∧ (x :: l) !! i = Some x
                                        ∧ (x :: l) !! j = Some q.2)).
      { intros q Hq. split.
        - apply elem_of_cons in Hq as [->|Hq]; [done|].
          rewrite Forall_forall in Hall. destruct (Hall q Hq) as [? _]. lia.
        - intros _. apply Hin, list_elem_of_lookup in Hq as [j Hj].
          exists 0%nat, (Datatypes.S j). split; [lia|done]. }
      apply Forall_forall. intros q Hq. apply (Hx q Hq).
Qed.
End first_max.

Lemma first_position_app (tasks : list task) (x : task) (tid : ident) :
  first_position (tasks ++ [x]) tid =
  match first_position tasks tid with
  | Some p => Some p
  | None => if decide (task_id x = Some tid) then Some (length tasks) else None
  end.
Proof.
  unfold first_position.
  destruct (list_find (λ t, task_id t = Some tid) tasks) as [[p t]|] eqn:Hfind.
  - by rewrite (list_find_app_l _ _ _ _ _ Hfind).
  - rewrite list_find_app_r by done. simpl.
    case_decide; simpl; [f_equal; lia|done].
Qed.

Lemma first_position_lt (tasks : list task) (tid : ident) (p : nat) :
  first_position tasks tid = Some p → (p < length tasks)%nat.
Proof.
  unfold first_position. intros ([p' t] & Hfind & ->)%fmap_Some.
  apply list_find_Some in Hfind as (Hp & _). by eapply lookup_lt_Some.
Qed.

Lemma first_position_key (tasks : list task) (tid : ident) :
  tid ∈ od_keys (index_by_id task_id tasks) ↔ is_Some (first_position tasks tid).
Proof.
  rewrite index_by_id_keys. unfold first_position. rewrite fmap_is_Some. split.
  - intros (t & Ht & Hid). by apply (list_find_elem_of _ _ t).
  - intros [[p t] (Hp & Hid & _)%list_find_Some]. exists t. split; [|done].
    by eapply list_elem_of_lookup_2.
Qed.

(** The keys of [tasks_by_id] come in the order in which the identifiers
    first occur in the batch. *)
Lemma index_by_id_first_position (tasks : list task) (i j : nat) (a b : ident) :
  (i < j)%nat →
  od_keys (index_by_id task_id tasks) !! i = Some a →
  od_keys (index_by_id task_id tasks) !! j = Some b →
  ∃ p q, first_position tasks a = Some p ∧ first_position tasks b = Some q
         ∧ (p < q)%nat.
Proof.
  revert i j a b. induction tasks as [|x tasks IH] using rev_ind; intros i j a b Hij.
  { by intros ?. }
  rewrite index_by_id_snoc, !first_position_app.
  assert (Hold : ∀ n c, od_keys (index_by_id task_id tasks) !! n = Some c →
                        ∃ p, first_position tasks c = Some p).
  { intros n c Hn. apply first_position_key. by eapply list_elem_of_lookup_2. }
  destruct (task_id x) as [k|] eqn:Hx.
  - destruct (decide (k ∈ od_keys (index_by_id task_id tasks))) as [Hin|Hnew].
    + rewrite od_keys_set_in by done. intros Hi Hj.
      destruct (IH i j a b Hij Hi Hj) as (p & q & Hp & Hq & Hpq).
      exists p, q. by rewrite Hp, Hq.
    + rewrite od_keys_set_notin by done. intros Hi Hj.
      apply lookup_app_Some in Hi as [Hi|[Hlen Hi]]; last first.
      { apply lookup_app_Some in Hj as [Hj|[_ Hj]].
        - apply lookup_lt_Some in Hj. lia.
        - apply list_lookup_singleton_Some in Hi as [? _].
          apply list_lookup_singleton_Some in Hj as [? _]. lia. }
      destruct (Hold i a Hi) as [p Hp]. rewrite Hp.
      apply lookup_app_Some in Hj as [Hj|[_ Hj]].
      * destruct (IH i j a b Hij Hi Hj) as (p' & q & Hp' & Hq & Hpq).
        exists p', q. rewrite Hq. split_and!; [congruence|done|done].
      * apply list_lookup_singleton_Some in Hj as [_ <-].
        assert (first_position tasks k = None) as ->.
        { apply eq_None_not_Some. by rewrite <- first_position_key. }
        rewrite decide_True by done. exists p, (length tasks).
        split_and!; [done..|]. by eapply first_position_lt.
  - intros Hi Hj. destruct (IH i j a b Hij Hi Hj) as (p & q & Hp & Hq & Hpq).
    exists p, q. by rewrite Hp, Hq.
Qed.

Lemma filter_all {A : Type} (P : A → Prop) `{∀ x, Decision (P x)} (l : list A) :
  (∀ x, x ∈ l → P x) → filter P l = l.
Proof.
  induction l as [|x l IH]; intros Hall; [done|].
  rewrite filter_cons_True by (apply Hall; left). f_equal. apply IH.
  intros y Hy. apply Hall. by right.
Qed.

Lemma filter_none {A : Type} (P : A → Prop) `{∀ x, Decision (P x)} (l : list A) :
  (∀ x, x ∈ l → ¬ P x) → filter P l = [].
Proof.
  intros Hnone. apply elem_of_nil_inv. intros x [HP Hx]%list_elem_of_filter.
  by apply (Hnone x).
Qed.

(** Without cycles and without inner dependencies the ordering phase
    returns the records in the order of a stable sort of the keys of
    [scored_by_id] by descending score. *)
Lemma order_tasks_no_edges (tbi : list (ident * task)) (cycles : gset ident)
    (scored out : list scored_task) :
  let sb := index_by_id (λ s, task_id (s_task s)) scored in
  (∀ tid, tid ∉ cycles) →
  (∀ u d, d ∈ task_deps tbi u → d ∉ od_keys sb) →
  order_tasks tbi cycles scored = Ok out →
  Forall2 (λ tid s, od_get sb tid = Some s)
          (foldr insert_desc [] ((λ x, (key_of sb x, x)) <$> od_keys sb)).*2 out.
Proof.
  intros sb Hempty Hnodep. unfold order_tasks. fold sb.
  assert (HsbND : NoDup (od_keys sb)) by apply index_by_id_NoDup.
  rewrite (filter_all (λ tid, tid ∉ cycles)) by (intros; apply Hempty).
  rewrite (filter_none (λ tid, tid ∈ cycles)) by (intros; apply Hempty).
  set (N := od_keys sb) in *.
  destruct (build_graph_spec tbi N HsbND) as (ind & adj & -> & Hind & Hadj).
  cbn [mbind result_bind].
  assert (HE : edges tbi N N = []).
  { apply elem_of_nil_inv. intros p Hp.
    unfold edges in Hp. apply list_elem_of_bind in Hp as (m & Hp & _).
    apply list_elem_of_fmap in Hp as (d & -> & Hd).
    apply list_elem_of_filter in Hd as [HdN Hd]. by destruct (Hnodep m d Hd). }
  rewrite HE in Hind, Hadj. simpl in Hind, Hadj.
  rewrite (filter_all (λ tid, default 0 (ind !! tid) = 0)); last first.
  { intros n Hn. rewrite Hind. by rewrite decide_True. }
  rewrite (kahn_no_edges (score_key sb) (key_of sb)); last first.
  { done. }
  { intros n Hn. by rewrite (Hadj n Hn). }
  { intros n Hn. by apply score_key_Ok. }
  cbn [mbind result_bind app].
  set (ordered := (foldr insert_desc [] ((λ x, (key_of sb x, x)) <$> N)).*2).
  assert (Hperm : ordered ≡ₚ N).
  { unfold ordered. rewrite sort_desc_perm, <- list_fmap_compose.
    by rewrite (list_fmap_ext _ id N) by done; rewrite list_fmap_id. }
  rewrite (filter_none (λ tid, tid ∉ ordered)); last first.
  { intros n Hn Hno. apply Hno. by rewrite Hperm. }
  change (py_sort_desc (score_key sb) []) with (Ok ([] : list ident)).
  cbn [mbind result_bind]. rewrite !app_nil_r.
  destruct (mapM_lookup sb ordered) as (out' & -> & Hall).
  { intros tid. by rewrite Hperm. }
  by intros [= <-].
Qed.

Lemma StronglySorted_lookup_lt {A : Type} (R : relation A) (l : list A)
    (i j : nat) (x y : A) :
  StronglySorted R l → (i < j)%nat → l !! i = Some x → l !! j = Some y → R x y.
Proof.
  intros Hs. revert i j. induction Hs as [|z l _ IH Hall]; intros i j Hij Hi Hj.
  - done.
  - destruct j as [|j]; [lia|]. destruct i as [|i]; simpl in *.
    + injection Hi as ->. rewrite Forall_forall in Hall. apply Hall.
      by eapply list_elem_of_lookup_2.
    + apply (IH i j); [lia|done..].
Qed.

Lemma StronglySorted_from_lookup {A : Type} (R : relation A) (l : list A) :
  (∀ i j x y, (i < j)%nat → l !! i = Some x → l !! j = Some y → R x y) →
  StronglySorted R l.
Proof.
  induction l as [|z l IH]; intros Hpair; constructor.
  - apply IH. intros i j x y Hij Hi Hj. by apply (Hpair (S i) (S j)); [lia|..].
  - apply Forall_forall. intros y [j Hj]%list_elem_of_lookup.
    by apply (Hpair 0%nat (S j) z y); [lia|..].
Qed.

(** X12: When no task lists the identifier of a task of the batch (no
    dependencies at all, or only on tasks that are not in the batch), a
    successful call returns the records by descending score, and records
    with equal scores in the order in which their identifiers first
    occur in the batch: the result is a stable sort. *)
Theorem score_tasks_stable_sort_without_inner_dependencies (clock : nat → Z)
    (tasks : list task) (strategy : string) (k k' : nat) (out : list scored_task) :
  (∀ t d, t ∈ tasks → d ∈ deps_of t → d ∉ omap task_id tasks) →
  score_tasks clock tasks strategy k = Ok (out, k') →
  StronglySorted (λ a b, score b ≤ score a) out
  ∧ ∀ i j a b, (i < j)%nat → out !! i = Some a → out !! j = Some b →
      score a = score b →
      ∃ p q, first_position tasks (sid a) = Some p
             ∧ first_position tasks (sid b) = Some q ∧ (p < q)%nat.
Proof.
  intros Hfree Hrun.
  destruct (score_tasks_Ok _ _ _ _ _ _ Hrun) as (cycles & scored & Hc & Hloop & Hord).
  pose proof (score_loop_tasks _ _ _ _ _ _ _ _ Hloop) as Htasks.
  set (sb := index_by_id (λ s, task_id (s_task s)) scored) in *.
  set (tbi := index_by_id task_id tasks) in *.
  assert (Hkeys : od_keys sb = od_keys tbi).
  { unfold tbi. rewrite <- Htasks.
    rewrite <- (index_by_id_fmap s_task task_id). by rewrite od_keys_fmap. }
  assert (Hnodep : ∀ u d, d ∈ task_deps tbi u → d ∉ od_keys sb).
  { intros u d (t & Ht & _ & Hd)%task_deps_listed Hkey.
    apply (Hfree t d Ht Hd). apply list_elem_of_omap.
    rewrite Hkeys in Hkey. by apply index_by_id_keys in Hkey. }
  assert (Hempty : ∀ tid, tid ∉ cycles).
  { intros tid Htid. pose proof (detect_cycles_sound tbi cycles tid Hc Htid) as Hcyc.
    destruct (tc_last_step _ _ _ Hcyc) as [z Hz].
    apply (Hnodep z tid Hz). rewrite Hkeys. by eapply on_cycle_key. }
  pose proof (order_tasks_no_edges tbi cycles scored out Hempty Hnodep Hord) as Hall.
  fold sb in Hall.
  pose proof (sort_desc_stable (key_of sb) (od_keys sb)) as Hstable.
  set (sorted := foldr insert_desc [] ((λ x, (key_of sb x, x)) <$> od_keys sb)) in *.
  assert (Hpair : ∀ i j a b, (i < j)%nat → out !! i = Some a → out !! j = Some b →
            score b ≤ score a
            ∧ (score a = score b →
               ∃ p q, first_position tasks (sid a) = Some p
                      ∧ first_position tasks (sid b) = Some q ∧ (p < q)%nat)).
  { assert (Hrec : ∀ n s, out !! n = Some s →
                          sorted !! n = Some (score s, sid s)).
    { intros n s Hn.
      destruct (Forall2_lookup_r _ _ _ _ _ Hall Hn) as (tid & Htid & Hget).
      rewrite list_lookup_fmap in Htid.
      destruct (sorted !! n) as [[kv tid']|] eqn:Hsn; [|done].
      simpl in Htid. injection Htid as ->.
      destruct (sort_desc_keys (key_of sb) (od_keys sb) (kv, tid)) as [Hk _].
      { by eapply list_elem_of_lookup_2. }
      simpl in Hk. apply scored_by_id_entry in Hget as Hentry.
      destruct Hentry as (_ & _ & Hsid). unfold key_of in Hk. rewrite Hget in Hk.
      simpl in Hk. by rewrite Hk, Hsid. }
    intros i j a b Hij Hi Hj.
    destruct (StronglySorted_lookup_lt _ _ i j _ _ Hstable Hij (Hrec i a Hi) (Hrec j b Hj))
      as [Hle Htie].
    simpl in Hle, Htie. split; [done|]. intros Heq.
    destruct (Htie Heq) as (p & q & Hpq & Hp & Hq).
    rewrite Hkeys in Hp, Hq. by apply (index_by_id_first_position tasks p q). }
  split.
  - apply StronglySorted_from_lookup. intros i j a b Hij Hi Hj.
    by destruct (Hpair i j a b Hij Hi Hj).
  - intros i j a b Hij Hi Hj. by destruct (Hpair i j a b Hij Hi Hj).
Qed.

Lemma score_tasks_stable_sort_without_inner_dependencies_witness :
  let out := [Scored task_A 385 "Quick win"; Scored twin_of_A 385 "Quick win";
              Scored task_X 135 "Large effort task"] in
  StronglySorted (λ a b, score b ≤ score a) out
  ∧ ∀ i j a b, (i < j)%nat → out !! i = Some a → out !! j = Some b →
      score a = score b →
      ∃ p q, first_position [task_X; task_A; untracked_task; twin_of_A] (sid a) = Some p
             ∧ first_position [task_X; task_A; untracked_task; twin_of_A] (sid b) = Some q
             ∧ (p < q)%nat.
Proof.
  apply (score_tasks_stable_sort_without_inner_dependencies (λ _, sample_today)
           [task_X; task_A; untracked_task; twin_of_A] "smart_balance" 0 1).
  - intros t d Ht Hd Hin.
    assert (t = task_X ∨ t = task_A ∨ t = untracked_task ∨ t = twin_of_A)
      as Hcases by set_solver.
    destruct Hcases as [Ht'|[Ht'|[Ht'|Ht']]]; subst t; vm_compute in Hd, Hin; set_solver.
  - vm_compute. reflexivity.
Defined.

(** ** What the explanation says *)

Lemma explain_mentions (urgency importance effort deps : Z) (cyclic : bool) :
  let text := explain (explanation_parts urgency importance effort deps cyclic) in
  text ≠ ""
  ∧ mentions "circular dependency" text = cyclic
  ∧ mentions "Unblocks other tasks" text = (0 <? deps).
Proof.
  unfold explanation_parts.
  destruct (8 <=? urgency), (6 <=? urgency), (8 <=? importance), (6 <=? importance),
    (7 <=? effort), (effort <=? 3), (0 <? deps), cyclic;
    vm_compute; split_and!; (reflexivity || discriminate).
Qed.

(** X13: The explanation of a returned record is never empty; it mentions the
    circular dependency exactly when the identifier of the record is in
    the cycle set, and says that the task unblocks others exactly when its
    identifier is written in some dependency list of the batch. *)
Theorem explanation_reflects_dependencies (clock : nat → Z) (tasks : list task)
    (strategy : string) (k k' : nat) (out : list scored_task) (cycles : gset ident)
    (s : scored_task) :
  score_tasks clock tasks strategy k = Ok (out, k') →
  detect_cycles (index_by_id task_id tasks) = Ok cycles →
  s ∈ out →
  explanation s ≠ ""
  ∧ (mentions "circular dependency" (explanation s) = true ↔ sid s ∈ cycles)
  ∧ (mentions "Unblocks other tasks" (explanation s) = true
     ↔ sid s ∈ tasks ≫= deps_of).
Proof.
  intros Hrun Hc Hin.
  destruct (out_from_scored _ _ _ _ _ _ s Hrun Hin) as (cycles' & j & Hc' & Ht & Hs).
  rewrite Hc in Hc'. injection Hc' as <-.
  unfold score_task in Hs.
  destruct (normalize_importance _) as [imp| |]; simpl in Hs; try done.
  destruct (compute_effort_score _) as [eff| |]; simpl in Hs; try done.
  injection Hs as Hs.
  set (u := (compute_urgency_score clock (due_date (s_task s)) j).1) in *.
  set (d := default 0 (compute_dependency_bonus tasks !! get_id (s_task s))) in *.
  set (cyc := bool_decide (get_id (s_task s) ∈ cycles)) in *.
  destruct (explain_mentions u imp eff d cyc) as (Hne & Hcyc & Hdep).
  rewrite <- Hs. simpl. split_and!; [done| |].
  - rewrite Hcyc. unfold cyc, sid. apply bool_decide_eq_true.
  - rewrite Hdep. unfold d, sid.
    rewrite (compute_dependency_bonus_lookup tasks (s_task s) Ht). simpl.
    set (n := occurrences (get_id (s_task s)) (tasks ≫= deps_of)).
    pose proof (occurrences_nonneg (get_id (s_task s)) (tasks ≫= deps_of)) as Hn.
    fold n in Hn. rewrite Z.ltb_lt. split.
    + intros Hb. apply occurrences_pos. fold n.
      destruct (decide (n = 0)) as [Hz|]; [|lia]. by rewrite Hz in Hb.
    + intros Hl. assert (0 < n) as Hpos.
      { unfold n, occurrences.
        assert (get_id (s_task s) ∈ filter (λ y, y = get_id (s_task s)) (tasks ≫= deps_of))
          as Hf by by apply list_elem_of_filter.
        destruct (filter _ _); [by apply elem_of_nil in Hf|simpl; lia]. }
      unfold bonus_of_count.
      repeat match goal with
             | |- context [?a =? ?b] => destruct (Z.eqb_spec a b)
             | |- context [?a <=? ?b] => destruct (Z.leb_spec a b)
             end; lia.
Qed.

Lemma explanation_reflects_dependencies_witness :
  let s := Scored task_X (-20) "Large effort task; Unblocks other tasks; Part of circular dependency (penalized)" in
  explanation s ≠ ""
  ∧ (mentions "circular dependency" (explanation s) = true
     ↔ sid s ∈ ({[IdStr "X"; IdStr "Y"]} : gset ident))
  ∧ (mentions "Unblocks other tasks" (explanation s) = true
     ↔ sid s ∈ sample_batch ≫= deps_of).
Proof.
  apply (explanation_reflects_dependencies (λ _, sample_today) sample_batch
           "smart_balance" 0 3
           [Scored task_A 430 "Quick win; Unblocks other tasks";
            Scored task_B 780 "Due very soon; Very important; Quick win";
            Scored task_Y 120 "Large effort task; Unblocks other tasks; Part of circular dependency (penalized)";
            Scored task_X (-20) "Large effort task; Unblocks other tasks; Part of circular dependency (penalized)"]).
  - vm_compute. reflexivity.
  - vm_compute. reflexivity.
  - set_solver.
Defined.

(** ** Batches without cycles: the order of the batch does not matter *)

Lemma distinct_ids_inj (tasks : list task) (t t' : task) :
  NoDup (task_id <$> tasks) → t ∈ tasks → t' ∈ tasks → task_id t = task_id t' → t = t'.
Proof.
  intros Hnd [i Hi]%list_elem_of_lookup [j Hj]%list_elem_of_lookup Heq.
  assert (i = j) as ->; [|congruence].
  apply (NoDup_lookup _ i j (task_id t) Hnd); rewrite list_lookup_fmap.
  - by rewrite Hi.
  - by rewrite Hj, Heq.
Qed.

Lemma index_by_id_distinct_lookup (tasks : list task) (tid : ident) (t : task) :
  NoDup (task_id <$> tasks) →
  od_get (index_by_id task_id tasks) tid = Some t ↔ t ∈ tasks ∧ task_id t = Some tid.
Proof.
  intros Hnd. split; [apply index_by_id_elem|]. intros [Hin Hid].
  assert (is_Some (od_get (index_by_id task_id tasks) tid)) as [t' Ht'].
  { apply od_get_is_Some, index_by_id_keys. eauto. }
  rewrite Ht'. f_equal. apply index_by_id_elem in Ht' as [Hin' Hid'].
  apply (distinct_ids_inj tasks); [done..|congruence].
Qed.

Lemma index_by_id_distinct_perm (tasks tasks' : list task) (tid : ident) :
  NoDup (task_id <$> tasks) → tasks' ≡ₚ tasks →
  od_get (index_by_id task_id tasks') tid = od_get (index_by_id task_id tasks) tid.
Proof.
  intros Hnd Hperm.
  assert (Hnd' : NoDup (task_id <$> tasks')) by by rewrite Hperm.
  apply option_eq. intros t.
  rewrite !index_by_id_distinct_lookup by done. by rewrite Hperm.
Qed.

Lemma score_tasks_distinct_records (clock : nat → Z) (tasks : list task)
    (strategy : string) (k k' : nat) (out : list scored_task) :
  (∀ t, t ∈ tasks → is_Some (task_id t)) → NoDup (task_id <$> tasks) →
  score_tasks clock tasks strategy k = Ok (out, k') →
  ∃ cycles scored,
    detect_cycles (index_by_id task_id tasks) = Ok cycles
    ∧ score_loop clock (strategy_weights strategy) cycles
                 (compute_dependency_bonus tasks) tasks k = Ok (scored, k')
    ∧ out ≡ₚ scored.
Proof.
  intros Hids Hnd Hrun.
  destruct (score_tasks_structure _ _ _ _ _ _ Hrun)
    as (cycles & scored & ids_o & ids_l & ids_c & Hc & Hs & Hall & Hord).
  set (sb := index_by_id (λ s, task_id (s_task s)) scored) in *.
  assert (HsbND : NoDup (od_keys sb)) by apply index_by_id_NoDup.
  destruct (ordering_perm _ cycles sb ids_o ids_l ids_c HsbND Hord) as [_ Hperm].
  pose proof (od_values_perm no_scored_task sb _ out HsbND Hperm Hall) as Hout.
  pose proof (score_loop_tasks _ _ _ _ _ _ _ _ Hs) as Htasks.
  exists cycles, scored. split_and!; [done..|].
  rewrite Hout. apply reflexive_eq.
  assert (prod_map Some id <$> sb = (λ s, (task_id (s_task s), s)) <$> scored) as Heq.
  { apply index_by_id_distinct.
    - intros s Hin. apply Hids. rewrite <- Htasks.
      apply list_elem_of_fmap. by exists s.
    - by rewrite (list_fmap_compose s_task task_id), Htasks. }
  apply (f_equal (fmap snd)) in Heq.
  rewrite <- !list_fmap_compose in Heq.
  rewrite (list_fmap_ext (snd ∘ prod_map Some id) snd sb) in Heq by (by intros ? []).
  rewrite Heq. rewrite (list_fmap_ext _ id scored) by done. by rewrite list_fmap_id.
Qed.

Lemma score_loop_same_day_map (now : Z) (w : weights) (cycles : gset ident)
    (db : gmap ident Z) (tasks : list task) (k k' : nat) (scored : list scored_task) :
  score_loop (λ _, now) w cycles db tasks k = Ok (scored, k') →
  scored = (λ t, match score_task w cycles db
                         (compute_urgency_score (λ _, now) (due_date t) 0).1 t with
                 | Ok s => s
                 | _ => no_scored_task
                 end) <$> tasks.
Proof.
  intros Hloop%score_loop_Ok.
  induction Hloop as [|t s tasks scored [j Hj] _ IH]; [done|].
  rewrite fmap_cons, <- IH. f_equal.
  rewrite (urgency_same_day now (due_date t) j) in Hj. by rewrite Hj.
Qed.

Lemma acyclic_no_marks (tasks : list task) (cycles : gset ident) :
  (∀ u, ¬ on_cycle (index_by_id task_id tasks) u) →
  detect_cycles (index_by_id task_id tasks) = Ok cycles → cycles = ∅.
Proof.
  intros Hacyclic Hc. apply set_eq. intros tid. split; [|by intros ?%elem_of_empty].
  intros Htid. destruct (Hacyclic tid). by apply (detect_cycles_sound _ cycles).
Qed.

(** X14: For a batch in which every task carries an identifier of its own and
    no task lies on a dependency cycle, scored on a given day, the order
    in which the tasks are passed changes at most the order of the
    result: two calls that return give the same records, with the same
    scores and explanations. *)
Theorem score_tasks_order_independent_without_cycles (now : Z)
    (tasks tasks' : list task) (strategy : string) (out out' : list scored_task) :
  (∀ t, t ∈ tasks → is_Some (task_id t)) → NoDup (task_id <$> tasks) →
  (∀ u, ¬ on_cycle (index_by_id task_id tasks) u) →
  tasks' ≡ₚ tasks →
  score_tasks_at now tasks strategy = Ok out →
  score_tasks_at now tasks' strategy = Ok out' →
  out' ≡ₚ out.
Proof.
  intros Hids Hnd Hacyclic Hperm Hrun Hrun'.
  assert (Hids' : ∀ t, t ∈ tasks' → is_Some (task_id t)).
  { intros t Ht. apply Hids. by rewrite <- Hperm. }
  assert (Hnd' : NoDup (task_id <$> tasks')) by by rewrite Hperm.
  assert (Hacyclic' : ∀ u, ¬ on_cycle (index_by_id task_id tasks') u).
  { intros u Hu. apply (Hacyclic u). eapply tc_subrel; [|exact Hu].
    intros a b. unfold depends_on, task_deps.
    by rewrite (index_by_id_distinct_perm tasks tasks' a Hnd Hperm). }
  unfold score_tasks_at in *.
  apply fmap_Ok in Hrun as ([out0 k0] & Hrun & ->).
  apply fmap_Ok in Hrun' as ([out1 k1] & Hrun' & ->). simpl.
  destruct (score_tasks_distinct_records _ _ _ _ _ _ Hids Hnd Hrun)
    as (cycles & scored & Hc & Hloop & ->).
  destruct (score_tasks_distinct_records _ _ _ _ _ _ Hids' Hnd' Hrun')
    as (cycles' & scored' & Hc' & Hloop' & ->).
  rewrite (acyclic_no_marks tasks cycles Hacyclic Hc) in Hloop.
  rewrite (acyclic_no_marks tasks' cycles' Hacyclic' Hc') in Hloop'.
  rewrite (compute_dependency_bonus_perm tasks tasks' Hperm) in Hloop'.
  rewrite (score_loop_same_day_map _ _ _ _ _ _ _ _ Hloop).
  rewrite (score_loop_same_day_map _ _ _ _ _ _ _ _ Hloop').
  by rewrite Hperm.
Qed.

Lemma score_tasks_order_independent_without_cycles_witness :
  [Scored twin_of_A 385 "Quick win"; Scored task_A 385 "Quick win"]
  ≡ₚ [Scored task_A 385 "Quick win"; Scored twin_of_A 385 "Quick win"].
Proof.
  apply (score_tasks_order_independent_without_cycles sample_today
           [task_A; twin_of_A] [twin_of_A; task_A] "smart_balance").
  - intros t Ht. assert (t = task_A ∨ t = twin_of_A) as [->| ->] by set_solver; by eexists.
  - vm_compute. repeat constructor; set_solver.
  - intros u. apply no_marks_acyclic. vm_compute. reflexivity.
  - apply perm_swap.
  - vm_compute. reflexivity.
  - vm_compute. reflexivity.
Defined.

(** ** The request handlers on a list of tasks *)

Lemma normalize_from_tasks (start : Z) (items : list task) :
  normalize_from start (ElemTask <$> items)
  = Ok (imap (λ i t, setdefault_id (IdInt (start + Z.of_nat i + 1)) t) items).
Proof.
  revert start. induction items as [|t items IH]; intros start; [done|].
  cbn [fmap list_fmap normalize_from py_dict mbind result_bind imap].
  rewrite IH. simpl. f_equal.
  replace (start + Z.of_nat 0 + 1) with (start + 1) by lia. f_equal.
  apply imap_ext. intros i x _. simpl.
  by replace (start + 1 + Z.of_nat i + 1) with (start + Z.of_nat (S i) + 1) by lia.
Qed.

Lemma normalize_list (items : list task) :
  (items' ← py_iter (PList items); normalize_from 0 items') = Ok (with_positions items).
Proof.
  simpl. by rewrite normalize_from_tasks.
Qed.

Lemma with_positions_lookup (items : list task) (i : nat) (t : task) :
  with_positions items !! i = Some t
  ↔ ∃ t0, items !! i = Some t0 ∧ t = setdefault_id (IdInt (Z.of_nat i + 1)) t0.
Proof.
  unfold with_positions. rewrite list_lookup_imap.
  destruct (items !! i) as [t0|]; simpl; naive_solver.
Qed.


(** X15: The suggestion endpoint, on a list, does what the analysis endpoint
    does and keeps the first three records of its reply: the same call of
    the engine, the same clock reads, the same status, and the first three
    tasks of the analysis in the same order. *)
Theorem suggest_is_the_head_of_the_analysis (clock : nat → Z) (strategy : option string)
    (items : list task) (k : nat) :
  let req := Request strategy (Some (PList items)) in
  let analysis := AnalyzeTasksView_post clock req k in
  let suggestion := SuggestTasksView_post clock req k in
  out_reply suggestion = truncated 3 (out_reply analysis)
  ∧ engine_calls suggestion = engine_calls analysis
  ∧ clock_reads suggestion = clock_reads analysis
  ∧ engine_calls analysis = [with_positions items]
  ∧ ∀ status name tasks,
      out_reply suggestion = Response status (TasksBody name tasks) →
      (length tasks ≤ 3)%nat.
Proof.
  unfold AnalyzeTasksView_post, SuggestTasksView_post, score_and_reply.
  cbn [req_strategy req_tasks default from_option id is_list negb].
  rewrite normalize_list.
  destruct (score_tasks _ _ _ _) as [[out k']| |]; split_and!; try done.
  simpl. intros status name tasks [= _ _ <-]. rewrite length_take. lia.
Qed.







Lemma index_by_id_length_app {A : Type} (id_of : A → option ident) (l l' : list A) :
  (length (index_by_id id_of (l ++ l')) ≤ length (index_by_id id_of l) + length l')%nat.
Proof.
  induction l' as [|x l' IH] using rev_ind; [rewrite app_nil_r; simpl; lia|].
  rewrite app_assoc, index_by_id_snoc, length_app. simpl.
  destruct (id_of x) as [tid|]; [|lia].
  destruct (decide (tid ∈ od_keys (index_by_id id_of (l ++ l')))) as [Hin|Hno].
  - pose proof (od_keys_set_in (index_by_id id_of (l ++ l')) tid x Hin) as Hk.
    apply (f_equal length) in Hk. unfold od_keys in Hk.
    rewrite !length_fmap in Hk. lia.
  - rewrite od_set_notin, length_app by done. simpl. lia.
Qed.

Lemma index_by_id_collision {A : Type} (id_of : A → option ident) (l : list A)
    (i j : nat) (x y : A) (tid : ident) :
  (i < j)%nat → l !! i = Some x → l !! j = Some y →
  id_of x = Some tid → id_of y = Some tid →
  (length (index_by_id id_of l) < length l)%nat.
Proof.
  intros Hij Hi Hj Hx Hy.
  rewrite <- (take_drop_middle l j y Hj) at 1.
  change (y :: drop (S j) l) with ([y] ++ drop (S j) l). rewrite app_assoc.
  pose proof (index_by_id_length_app id_of (take j l ++ [y]) (drop (S j) l)) as H1.
  pose proof (index_by_id_length_app id_of [] (take j l)) as H2.
  rewrite app_nil_l in H2. simpl in H2.
  assert (length (index_by_id id_of (take j l ++ [y]))
          = length (index_by_id id_of (take j l))) as H3.
  { rewrite index_by_id_snoc, Hy.
    assert (tid ∈ od_keys (index_by_id id_of (take j l))) as Hin.
    { apply index_by_id_keys. exists x. split; [|done].
      apply list_elem_of_lookup. exists i. by rewrite lookup_take_lt. }
    pose proof (od_keys_set_in (index_by_id id_of (take j l)) tid y Hin) as Hk.
    apply (f_equal length) in Hk. unfold od_keys in Hk.
    by rewrite !length_fmap in Hk. }
  pose proof (lookup_lt_Some _ _ _ Hj) as Hlen.
  rewrite length_take, length_drop in *. lia.
Qed.

(** X18: A task that carries no identifier is given its position; when another
    task of the list carries that very number as its identifier, the two
    collide and the analysis returns fewer records than tasks were
    sent. *)
Theorem analyze_drops_a_task_on_identifier_collision (clock : nat → Z)
    (strategy : option string) (items : list task) (k i j : nat) (t t' : task)
    (status : Z) (name : string) (out : list scored_task) :
  items !! i = Some t → task_id t = None →
  items !! j = Some t' → task_id t' = Some (IdInt (Z.of_nat i + 1)) →
  out_reply (AnalyzeTasksView_post clock (Request strategy (Some (PList items))) k)
  = Response status (TasksBody name out) →
  (length out < length items)%nat.
Proof.
  intros Hi Hnone Hj Hsome.
  assert (i ≠ j) as Hij by (intros ->; congruence).
  unfold AnalyzeTasksView_post, score_and_reply.
  cbn [req_strategy req_tasks default from_option id is_list negb].
  rewrite normalize_list.
  destruct (score_tasks _ _ _ _) as [[out' k']| |] eqn:Hrun; try done.
  simpl. intros [= _ _ <-].
  destruct (score_tasks_layout _ _ _ _ _ _ Hrun)
    as (cycles & scored & o & l & c & _ & _ & _ & _ & Hperm & _).
  assert (length out' = length (index_by_id task_id (with_positions items))) as ->.
  { rewrite <- (length_fmap sid out'), Hperm. unfold od_keys. by rewrite length_fmap. }
  assert (length items = length (with_positions items)) as ->.
  { unfold with_positions. by rewrite length_imap. }
  assert (Hi' : with_positions items !! i
                = Some (setdefault_id (IdInt (Z.of_nat i + 1)) t)).
  { apply with_positions_lookup. eauto. }
  assert (Hj' : with_positions items !! j
                = Some (setdefault_id (IdInt (Z.of_nat j + 1)) t')).
  { apply with_positions_lookup. eauto. }
  assert (Hidi : task_id (setdefault_id (IdInt (Z.of_nat i + 1)) t)
                 = Some (IdInt (Z.of_nat i + 1))).
  { unfold setdefault_id. by rewrite Hnone. }
  assert (Hidj : task_id (setdefault_id (IdInt (Z.of_nat j + 1)) t')
                 = Some (IdInt (Z.of_nat i + 1))).
  { unfold setdefault_id. by rewrite Hsome. }
  destruct (decide (i < j)%nat).
  - by eapply (index_by_id_collision task_id _ i j).
  - eapply (index_by_id_collision task_id _ j i); [lia|done..].
Qed.

Lemma analyze_drops_a_task_on_identifier_collision_witness :
  (length [Scored (setdefault_id (IdInt 2) untracked_task) 355 "Balanced priority based on urgency, importance, effort, and dependencies."]
   < length [task_B; untracked_task])%nat.
Proof.
  apply (analyze_drops_a_task_on_identifier_collision (λ _, sample_today) None
           [task_B; untracked_task] 0 1 0 untracked_task task_B 200 "smart_balance").
  - reflexivity.
  - reflexivity.
  - reflexivity.
  - reflexivity.
  - vm_compute. reflexivity.
Defined.

(** ** The doubles behind the scores *)

Lemma level_pair (levels : list (Z * float)) (x : Z) :
  x ∈ levels.*1 → ∃ p, p ∈ levels ∧ p.1 = x.
Proof. intros (p & -> & Hp)%list_elem_of_fmap. eauto. Qed.

Lemma importance_level_pair (imp : Z) :
  1 ≤ imp ≤ 10 → ∃ p, p ∈ FloatCheck.importance_levels ∧ p.1 = imp.
Proof.
  intros Himp. exists (imp, (Py.Z_to_float imp / 10.0)%float). split; [|done].
  unfold FloatCheck.importance_levels. apply list_elem_of_fmap. exists imp.
  split; [done|]. rewrite !elem_of_cons. lia.
Qed.

Lemma weight_set_pair (strategy : string) :
  ∃ w, w ∈ FloatCheck.weight_sets ∧ w.1 = strategy_weights strategy.
Proof.
  pose proof (strategy_weights_cases strategy) as Hw.
  assert (strategy_weights strategy ∈ FloatCheck.weight_sets.*1) as Hin by exact Hw.
  apply list_elem_of_fmap in Hin as (w & -> & Hin). eauto.
Qed.

(** X19: The score of a returned record stands for the double the source
    computes for it: the record's signals are literals of the source, and
    the binary64 evaluation of the weighted sum, of the penalty and of
    [round(_, 3)] on those literals gives exactly the double nearest to the
    score kept here in thousandths, a double between -0.2 and 1.0. *)
Theorem returned_score_is_the_rounded_double (clock : nat → Z) (tasks : list task)
    (strategy : string) (k k' : nat) (out : list scored_task) (s : scored_task) :
  score_tasks clock tasks strategy k = Ok (out, k') → s ∈ out →
  ∃ cycles w u i e d,
    let cyclic := bool_decide (sid s ∈ cycles) in
    detect_cycles (index_by_id task_id tasks) = Ok cycles
    ∧ w ∈ FloatCheck.weight_sets ∧ w.1 = strategy_weights strategy
    ∧ u ∈ FloatCheck.urgency_levels
    ∧ (∃ j, (compute_urgency_score clock (due_date (s_task s)) j).1 = u.1)
    ∧ i ∈ FloatCheck.importance_levels
    ∧ normalize_importance (importance (s_task s)) = Ok i.1
    ∧ e ∈ FloatCheck.effort_levels
    ∧ compute_effort_score (estimated_hours (s_task s)) = Ok e.1
    ∧ d ∈ FloatCheck.bonus_levels
    ∧ compute_dependency_bonus tasks !! sid s = Some d.1
    ∧ score s = base_score w.1 u.1 i.1 e.1 d.1 - (if cyclic then 200 else 0)
    ∧ let fs := FloatCheck.float_score w.2 u.2 i.2 e.2 d.2 cyclic in
      (fs =? FloatCheck.decode (score s))%float = true
      ∧ (-0.2 <=? fs)%float = true ∧ (fs <=? 1.0)%float = true.
Proof.
  intros Hrun Hin.
  destruct (out_from_scored _ _ _ _ _ _ s Hrun Hin) as (cycles & j & Hc & Ht & Hs).
  apply score_task_Ok in Hs as (imp & eff & Himp & Heff & _ & Hscore).
  pose proof (compute_dependency_bonus_lookup tasks (s_task s) Ht) as Hbonus.
  rewrite Hbonus in Hscore. simpl in Hscore.
  destruct (weight_set_pair strategy) as (w & Hw & Hw1).
  destruct (level_pair FloatCheck.urgency_levels
              (compute_urgency_score clock (due_date (s_task s)) j).1)
    as (u & Hu & Hu1); [apply compute_urgency_score_levels|].
  destruct (level_pair FloatCheck.effort_levels eff) as (e & He & He1);
    [by apply (compute_effort_score_levels (estimated_hours (s_task s)))|].
  destruct (importance_level_pair imp) as (i & Hi & Hi1);
    [by apply (normalize_importance_range (importance (s_task s)))|].
  destruct (level_pair FloatCheck.bonus_levels
              (bonus_of_count (occurrences (get_id (s_task s)) (tasks ≫= deps_of))))
    as (d & Hd & Hd1); [apply bonus_of_count_levels|].
  set (cyclic := bool_decide (get_id (s_task s) ∈ cycles)) in *.
  pose proof (float_score_agrees w u i e d cyclic Hw Hu Hi He Hd) as Hagree.
  unfold FloatCheck.agree in Hagree.
  repeat (apply andb_prop in Hagree as [Hagree ?]).
  exists cycles, w, u, i, e, d. cbv zeta. fold (sid s). fold cyclic.
  rewrite Hw1, Hu1, Hi1, He1, Hd1 in *.
  split_and!; try done; [by exists j|].
  by rewrite Hscore.
Qed.

Lemma returned_score_is_the_rounded_double_witness :
  let s := Scored task_B 780 "Due very soon; Very important; Quick win" in
  ∃ cycles w u i e d,
    let cyclic := bool_decide (sid s ∈ cycles) in
    detect_cycles (index_by_id task_id [task_A; task_B]) = Ok cycles
    ∧ w ∈ FloatCheck.weight_sets ∧ w.1 = strategy_weights "smart_balance"
    ∧ u ∈ FloatCheck.urgency_levels
    ∧ (∃ j, (compute_urgency_score (λ _, sample_today) (due_date (s_task s)) j).1 = u.1)
    ∧ i ∈ FloatCheck.importance_levels
    ∧ normalize_importance (importance (s_task s)) = Ok i.1
    ∧ e ∈ FloatCheck.effort_levels
    ∧ compute_effort_score (estimated_hours (s_task s)) = Ok e.1
    ∧ d ∈ FloatCheck.bonus_levels
    ∧ compute_dependency_bonus [task_A; task_B] !! sid s = Some d.1
    ∧ score s = base_score w.1 u.1 i.1 e.1 d.1 - (if cyclic then 200 else 0)
    ∧ let fs := FloatCheck.float_score w.2 u.2 i.2 e.2 d.2 cyclic in
      (fs =? FloatCheck.decode (score s))%float = true
      ∧ (-0.2 <=? fs)%float = true ∧ (fs <=? 1.0)%float = true.
Proof.
  apply (returned_score_is_the_rounded_double (λ _, sample_today) [task_A; task_B]
           "smart_balance" 0 1
           [Scored task_A 430 "Quick win; Unblocks other tasks";
            Scored task_B 780 "Due very soon; Very important; Quick win"]).
  - vm_compute. reflexivity.
  - set_solver.
Defined.

Lemma score_range_elem (m : Z) : -200 ≤ m ≤ 1000 → m ∈ FloatCheck.score_range.
Proof.
  intros Hm. unfold FloatCheck.score_range. apply list_elem_of_fmap.
  exists (Z.to_nat (m + 200)). split; [lia|].
  apply list_elem_of_In, in_seq. lia.
Qed.

Lemma forallb_pairs {A : Type} (f : A → A → bool) (l : list A) :
  (let fs := l in forallb (λ a, forallb (λ b, f a b) fs) fs) = true →
  ∀ a b, a ∈ l → b ∈ l → f a b = true.
Proof.
  intros H a b Ha Hb. cbv zeta in H.
  rewrite forallb_forall in H. apply list_elem_of_In, H in Ha.
  rewrite forallb_forall in Ha. apply list_elem_of_In, Ha in Hb. exact Hb.
Qed.

Lemma decode_order_checked :
  (let fs := (λ m, (m, FloatCheck.decode m)) <$> FloatCheck.score_range in
   forallb (λ x, forallb (λ y : Z * float,
              bool_decide ((x.2 <? y.2)%float = (x.1 <? y.1))
              && bool_decide ((x.2 =? y.2)%float = (x.1 =? y.1))) fs) fs) = true.
Proof. vm_compute. reflexivity. Qed.

(** X20: On the range of scores, the order of the doubles is the order of the
    thousandths: the comparisons made by [max] and by the two sorts on
    the doubles of the source are the comparisons made here on integers. *)
Theorem score_order_is_the_order_of_doubles (a b : Z) :
  -200 ≤ a ≤ 1000 → -200 ≤ b ≤ 1000 →
  (FloatCheck.decode a <? FloatCheck.decode b)%float = (a <? b)
  ∧ (FloatCheck.decode a =? FloatCheck.decode b)%float = (a =? b).
Proof.
  intros Ha%score_range_elem Hb%score_range_elem.
  assert (Hina : (a, FloatCheck.decode a)
                 ∈ (λ m, (m, FloatCheck.decode m)) <$> FloatCheck.score_range).
  { apply list_elem_of_fmap. exists a. split; [reflexivity|exact Ha]. }
  assert (Hinb : (b, FloatCheck.decode b)
                 ∈ (λ m, (m, FloatCheck.decode m)) <$> FloatCheck.score_range).
  { apply list_elem_of_fmap. exists b. split; [reflexivity|exact Hb]. }
  pose proof (forallb_pairs _ _ decode_order_checked _ _ Hina Hinb) as H.
  cbn [fst snd] in H.
  apply andb_prop in H as [H1 H2].
  apply bool_decide_eq_true in H1, H2. split; [exact H1|exact H2].
Qed.

Lemma score_order_is_the_order_of_doubles_witness :
  (FloatCheck.decode 430 <? FloatCheck.decode 780)%float = (430 <? 780)
  ∧ (FloatCheck.decode 430 =? FloatCheck.decode 780)%float = (430 =? 780).
Proof. apply (score_order_is_the_order_of_doubles 430 780); lia. Defined.
